(** * pint: the PromQL label-flow analyzer and the alerts/comparison check

    A shallow embedding of
    - [internal/parser/utils/source.go]   (package [utils]:  [LabelsSource])
    - [internal/checks/alerts_comparison.go] (package [checks]: [ComparisonCheck.Check])
    - [internal/discovery/discovery.go]   (package [discovery]: the names of
      [ChangeType] and [Path])

    Go packages become modules of the same name, functions keep their names.
    The part of the Prometheus libraries the two files use ([labels],
    [posrange], [promParser]) is described first, as data only.

    Conventions.
    - [float64] is Rocq's primitive [float] (IEEE 754 binary64).
    - [int] positions are [Z]; no arithmetic is done on them.
    - A Go panic is the outcome [Panics]; a function that can panic, or that
      reads or writes memory shared between values, lives in the monad [M].
    - [[]float64] and [map[string]ExcludedLabel] fields of a [Source] are
      references into a [Store]: copies of a [Source] share them, as in Go.
    - [[]string] label fields of a [Source] are lists.  Two sources only share
      a label slice when a binary expression without vector matching emits
      one source several times.  In an expression the parser has checked this
      only happens to the source of a scalar left operand, which has no
      labels ([walkNode_result]); a right source is emitted at most once,
      since the right operand is a scalar whenever the left one has several
      sources.  The loop of [parseAggregation] that deletes from the slice it
      ranges over is modelled on the backing array. *)

From Stdlib Require Import ZArith String Ascii Floats.
From stdpp Require Import base option list strings gmap.

#[local] Set Warnings "-register-all".

(* ===================================================================== *)
(** * Prometheus: model/labels *)
(* ===================================================================== *)
Module labels.

Inductive MatchType := MatchEqual | MatchNotEqual | MatchRegexp | MatchNotRegexp.

#[global] Instance MatchType_eq_dec : EqDecision MatchType.
Proof. solve_decision. Defined.

Record Matcher := { Type_ : MatchType; Name : string; Value : string }.

Definition MetricName : string := "__name__".

End labels.

(* ===================================================================== *)
(** * Prometheus: promql/parser/posrange *)
(* ===================================================================== *)
Module posrange.

Record PositionRange := { Start : Z; End_ : Z }.

End posrange.

(* ===================================================================== *)
(** * Prometheus: promql/parser (the AST the analyzer consumes) *)
(* ===================================================================== *)
Module promParser.

Inductive ValueType :=
| ValueTypeNone | ValueTypeVector | ValueTypeScalar | ValueTypeMatrix | ValueTypeString.

#[global] Instance ValueType_eq_dec : EqDecision ValueType.
Proof. solve_decision. Defined.

(** The item types that can be the operator of an expression. *)
Inductive ItemType :=
| EQLC | NEQ | LTE | LSS | GTE | GTR
| ADD | SUB | MUL | DIV | MOD | POW | ATAN2
| LAND | LOR | LUNLESS
| AVG | BOTTOMK | COUNT | COUNT_VALUES | GROUP | MAX | MIN | QUANTILE
| STDDEV | STDVAR | SUM | TOPK | LIMITK | LIMIT_RATIO.

#[global] Instance ItemType_eq_dec : EqDecision ItemType.
Proof. solve_decision. Defined.

Definition IsComparisonOperator (i : ItemType) : bool :=
  match i with
  | EQLC | NEQ | LTE | LSS | GTE | GTR => true
  | _ => false
  end.

Inductive VectorMatchCardinality :=
| CardOneToOne | CardManyToOne | CardOneToMany | CardManyToMany.

#[global] Instance VectorMatchCardinality_eq_dec : EqDecision VectorMatchCardinality.
Proof. solve_decision. Defined.

(** [VectorMatchCardinality.String] *)
Definition Card_String (c : VectorMatchCardinality) : string :=
  match c with
  | CardOneToOne => "one-to-one"
  | CardManyToOne => "many-to-one"
  | CardOneToMany => "one-to-many"
  | CardManyToMany => "many-to-many"
  end.

Record VectorMatching := {
  Card : VectorMatchCardinality;
  MatchingLabels : list string;
  On : bool;
  Include : list string;
}.

Record Function := {
  Name : string;
  ArgTypes : list ValueType;
  Variadic : Z;
  ReturnType : ValueType;
}.

Record VectorSelector := {
  VS_Name : string;
  LabelMatchers : list labels.Matcher;
  VS_PosRange : posrange.PositionRange;
}.

#[local] Unset Elimination Schemes.

Inductive Node :=
| AggregateExpr (Op : ItemType) (Expr : Node) (Param : option Node)
                (Grouping : list string) (Without : bool)
                (PosRange : posrange.PositionRange)
| BinaryExpr (Op : ItemType) (LHS RHS : Node)
             (VectorMatching_ : option VectorMatching) (ReturnBool : bool)
| Call (Func : Function) (Args : list Node) (PosRange : posrange.PositionRange)
| MatrixSelector (VectorSelector_ : Node) (Range : Z) (EndPos : Z)
| SubqueryExpr (Expr : Node) (Range Step : Z) (EndPos : Z)
| NumberLiteral (Val : float) (PosRange : posrange.PositionRange)
| ParenExpr (Expr : Node) (PosRange : posrange.PositionRange)
| StringLiteral (Val : string) (PosRange : posrange.PositionRange)
| UnaryExpr (Op : ItemType) (Expr : Node) (StartPos : Z)
| StepInvariantExpr (Expr : Node)
| VectorSelectorExpr (vs : VectorSelector).

#[local] Set Elimination Schemes.

(** Induction over the AST, with the hypothesis on every argument of a call
    and on the parameter of an aggregation. *)
Section NodeInd.
Variable P : Node → Prop.
Hypothesis HAgg : ∀ op e param grouping without pos,
    P e → from_option P True param →
    P (AggregateExpr op e param grouping without pos).
Hypothesis HBin : ∀ op l r vm rb, P l → P r → P (BinaryExpr op l r vm rb).
Hypothesis HCall : ∀ f args pos, Forall P args → P (Call f args pos).
Hypothesis HMat : ∀ e r ep, P e → P (MatrixSelector e r ep).
Hypothesis HSub : ∀ e r s ep, P e → P (SubqueryExpr e r s ep).
Hypothesis HNum : ∀ v pos, P (NumberLiteral v pos).
Hypothesis HPar : ∀ e pos, P e → P (ParenExpr e pos).
Hypothesis HStr : ∀ v pos, P (StringLiteral v pos).
Hypothesis HUn : ∀ op e sp, P e → P (UnaryExpr op e sp).
Hypothesis HStep : ∀ e, P e → P (StepInvariantExpr e).
Hypothesis HVS : ∀ vs, P (VectorSelectorExpr vs).

Fixpoint Node_ind (n : Node) : P n :=
  match n with
  | AggregateExpr op e param grouping without pos =>
      HAgg op e param grouping without pos (Node_ind e)
        (match param as o return from_option P True o with
         | Some q => Node_ind q
         | None => I
         end)
  | BinaryExpr op l r vm rb => HBin op l r vm rb (Node_ind l) (Node_ind r)
  | Call f args pos =>
      HCall f args pos
        ((fix all (l : list Node) : Forall P l :=
            match l with
            | [] => @List.Forall_nil _ P
            | x :: l' => @List.Forall_cons _ P x l' (Node_ind x) (all l')
            end) args)
  | MatrixSelector e r ep => HMat e r ep (Node_ind e)
  | SubqueryExpr e r s ep => HSub e r s ep (Node_ind e)
  | NumberLiteral v pos => HNum v pos
  | ParenExpr e pos => HPar e pos (Node_ind e)
  | StringLiteral v pos => HStr v pos
  | UnaryExpr op e sp => HUn op e sp (Node_ind e)
  | StepInvariantExpr e => HStep e (Node_ind e)
  | VectorSelectorExpr vs => HVS vs
  end.
End NodeInd.

(** [Node.PositionRange]: a field for most nodes, computed from the operands
    for the others. *)
Fixpoint PositionRange (n : Node) : posrange.PositionRange :=
  match n with
  | AggregateExpr _ _ _ _ _ pos => pos
  | BinaryExpr _ l r _ _ =>
      {| posrange.Start := posrange.Start (PositionRange l);
         posrange.End_ := posrange.End_ (PositionRange r) |}
  | Call _ _ pos => pos
  | MatrixSelector e _ ep =>
      {| posrange.Start := posrange.Start (PositionRange e); posrange.End_ := ep |}
  | SubqueryExpr e _ _ ep =>
      {| posrange.Start := posrange.Start (PositionRange e); posrange.End_ := ep |}
  | NumberLiteral _ pos => pos
  | ParenExpr _ pos => pos
  | StringLiteral _ pos => pos
  | UnaryExpr _ e sp =>
      {| posrange.Start := sp; posrange.End_ := posrange.End_ (PositionRange e) |}
  | StepInvariantExpr e => PositionRange e
  | VectorSelectorExpr vs => VS_PosRange vs
  end.

(** [Children]: the sub-nodes of a node, in source order. *)
Definition Children (n : Node) : list Node :=
  match n with
  | AggregateExpr _ e None _ _ _ => [e]
  | AggregateExpr _ e (Some p) _ _ _ => [e; p]
  | BinaryExpr _ l r _ _ => [l; r]
  | Call _ args _ => args
  | MatrixSelector e _ _ => [e]
  | SubqueryExpr e _ _ _ => [e]
  | ParenExpr e _ => [e]
  | UnaryExpr _ e _ => [e]
  | StepInvariantExpr e => [e]
  | NumberLiteral _ _ | StringLiteral _ _ | VectorSelectorExpr _ => []
  end.

(** The view that a type assertion of a node to a binary expression gives. *)
Record BinaryExprT := {
  Op : ItemType;
  LHS : Node;
  RHS : Node;
  VectorMatching_of : option VectorMatching;
  ReturnBool : bool;
}.

Definition asBinaryExpr (n : Node) : option BinaryExprT :=
  match n with
  | BinaryExpr op l r vm rb =>
      Some {| Op := op; LHS := l; RHS := r; VectorMatching_of := vm; ReturnBool := rb |}
  | _ => None
  end.

End promParser.

(* ===================================================================== *)
(** * pint: internal/parser (the rules the checks receive) *)
(* ===================================================================== *)
Module parser.

(** A parsed query: the Prometheus node and pint's own tree of children. *)
Inductive PromQLNode :=
| mkPromQLNode (Node : promParser.Node) (Children : list PromQLNode).

Definition Node (n : PromQLNode) : promParser.Node :=
  match n with mkPromQLNode node _ => node end.
Definition Children (n : PromQLNode) : list PromQLNode :=
  match n with mkPromQLNode _ children => children end.

Record LineRange := { First : Z; Last : Z }.

(** Modelled from the spec: the type of rule expressions is not among the
    sources.  An expression "carries both the original text, its
    position/line range inside the file, and either the parsed AST or a
    syntax error". *)
Inductive ParseResult :=
| SyntaxError (err : string)
| Query (q : PromQLNode).

Record PromQLExpr := {
  Value : string;
  Lines : LineRange;
  Parsed : ParseResult;
}.

(** Modelled from the spec: the type of rules is not among the sources.  A
    rule is "either a RecordingRule or AlertingRule"; of their fields the
    check reads the expression only. *)
Record RecordingRuleT := { Record_ : string; RecordingExpr : PromQLExpr }.
Record AlertingRuleT := { Alert : string; Expr : PromQLExpr }.

Inductive Rule :=
| RecordingRule (r : RecordingRuleT)
| AlertingRule (a : AlertingRuleT).

End parser.

(* ===================================================================== *)
(** * pint: internal/parser/utils/source.go *)
(* ===================================================================== *)
Module utils.

Inductive SourceType :=
| UnknownSource | NumberSource | StringSource | SelectorSource | FuncSource
| AggregateSource.

#[global] Instance SourceType_eq_dec : EqDecision SourceType.
Proof. solve_decision. Defined.

Record ExcludedLabel := { Reason : string; Fragment : string }.

(** ** Shared memory

    A [Source] is copied by value, but its [ReturnedNumbers] slice and its
    [ExcludeReason] map are references: every copy sees a write made through
    any other copy.  [ref] is an index into the [Store]. *)
Definition ref := nat.

Record Store := {
  numbers : list (list float);
  reasons : list (gmap string ExcludedLabel);
}.

Definition emptyStore : Store := {| numbers := []; reasons := [] |}.

Record Source := {
  Selectors : list promParser.VectorSelector;
  Call : option promParser.Node;
  ExcludeReason : option ref;
  Operation : string;
  Returns : promParser.ValueType;
  ReturnedNumbers : option ref;
  IncludedLabels : list string;
  ExcludedLabels : list string;
  GuaranteedLabels : list string;
  Type_ : SourceType;
  FixedLabels : bool;
  IsDead : bool;
  AlwaysReturns : bool;
}.

(** [var s Source] *)
Definition zeroSource : Source :=
  {| Selectors := []; Call := None; ExcludeReason := None;
     Operation := EmptyString; Returns := promParser.ValueTypeNone;
     ReturnedNumbers := None; IncludedLabels := []; ExcludedLabels := [];
     GuaranteedLabels := []; Type_ := UnknownSource; FixedLabels := false;
     IsDead := false; AlwaysReturns := false |}.

(** Field assignments [s.F = v]. *)
Definition setSelectors v s :=
  {| Selectors := v; Call := Call s; ExcludeReason := ExcludeReason s;
     Operation := Operation s; Returns := Returns s;
     ReturnedNumbers := ReturnedNumbers s; IncludedLabels := IncludedLabels s;
     ExcludedLabels := ExcludedLabels s; GuaranteedLabels := GuaranteedLabels s;
     Type_ := Type_ s; FixedLabels := FixedLabels s; IsDead := IsDead s;
     AlwaysReturns := AlwaysReturns s |}.
Definition setCall v s :=
  {| Selectors := Selectors s; Call := v; ExcludeReason := ExcludeReason s;
     Operation := Operation s; Returns := Returns s;
     ReturnedNumbers := ReturnedNumbers s; IncludedLabels := IncludedLabels s;
     ExcludedLabels := ExcludedLabels s; GuaranteedLabels := GuaranteedLabels s;
     Type_ := Type_ s; FixedLabels := FixedLabels s; IsDead := IsDead s;
     AlwaysReturns := AlwaysReturns s |}.
Definition setExcludeReason v s :=
  {| Selectors := Selectors s; Call := Call s; ExcludeReason := v;
     Operation := Operation s; Returns := Returns s;
     ReturnedNumbers := ReturnedNumbers s; IncludedLabels := IncludedLabels s;
     ExcludedLabels := ExcludedLabels s; GuaranteedLabels := GuaranteedLabels s;
     Type_ := Type_ s; FixedLabels := FixedLabels s; IsDead := IsDead s;
     AlwaysReturns := AlwaysReturns s |}.
Definition setOperation v s :=
  {| Selectors := Selectors s; Call := Call s; ExcludeReason := ExcludeReason s;
     Operation := v; Returns := Returns s;
     ReturnedNumbers := ReturnedNumbers s; IncludedLabels := IncludedLabels s;
     ExcludedLabels := ExcludedLabels s; GuaranteedLabels := GuaranteedLabels s;
     Type_ := Type_ s; FixedLabels := FixedLabels s; IsDead := IsDead s;
     AlwaysReturns := AlwaysReturns s |}.
Definition setReturns v s :=
  {| Selectors := Selectors s; Call := Call s; ExcludeReason := ExcludeReason s;
     Operation := Operation s; Returns := v;
     ReturnedNumbers := ReturnedNumbers s; IncludedLabels := IncludedLabels s;
     ExcludedLabels := ExcludedLabels s; GuaranteedLabels := GuaranteedLabels s;
     Type_ := Type_ s; FixedLabels := FixedLabels s; IsDead := IsDead s;
     AlwaysReturns := AlwaysReturns s |}.
Definition setReturnedNumbers v s :=
  {| Selectors := Selectors s; Call := Call s; ExcludeReason := ExcludeReason s;
     Operation := Operation s; Returns := Returns s;
     ReturnedNumbers := v; IncludedLabels := IncludedLabels s;
     ExcludedLabels := ExcludedLabels s; GuaranteedLabels := GuaranteedLabels s;
     Type_ := Type_ s; FixedLabels := FixedLabels s; IsDead := IsDead s;
     AlwaysReturns := AlwaysReturns s |}.
Definition setIncludedLabels v s :=
  {| Selectors := Selectors s; Call := Call s; ExcludeReason := ExcludeReason s;
     Operation := Operation s; Returns := Returns s;
     ReturnedNumbers := ReturnedNumbers s; IncludedLabels := v;
     ExcludedLabels := ExcludedLabels s; GuaranteedLabels := GuaranteedLabels s;
     Type_ := Type_ s; FixedLabels := FixedLabels s; IsDead := IsDead s;
     AlwaysReturns := AlwaysReturns s |}.
Definition setExcludedLabels v s :=
  {| Selectors := Selectors s; Call := Call s; ExcludeReason := ExcludeReason s;
     Operation := Operation s; Returns := Returns s;
     ReturnedNumbers := ReturnedNumbers s; IncludedLabels := IncludedLabels s;
     ExcludedLabels := v; GuaranteedLabels := GuaranteedLabels s;
     Type_ := Type_ s; FixedLabels := FixedLabels s; IsDead := IsDead s;
     AlwaysReturns := AlwaysReturns s |}.
Definition setGuaranteedLabels v s :=
  {| Selectors := Selectors s; Call := Call s; ExcludeReason := ExcludeReason s;
     Operation := Operation s; Returns := Returns s;
     ReturnedNumbers := ReturnedNumbers s; IncludedLabels := IncludedLabels s;
     ExcludedLabels := ExcludedLabels s; GuaranteedLabels := v;
     Type_ := Type_ s; FixedLabels := FixedLabels s; IsDead := IsDead s;
     AlwaysReturns := AlwaysReturns s |}.
Definition setType v s :=
  {| Selectors := Selectors s; Call := Call s; ExcludeReason := ExcludeReason s;
     Operation := Operation s; Returns := Returns s;
     ReturnedNumbers := ReturnedNumbers s; IncludedLabels := IncludedLabels s;
     ExcludedLabels := ExcludedLabels s; GuaranteedLabels := GuaranteedLabels s;
     Type_ := v; FixedLabels := FixedLabels s; IsDead := IsDead s;
     AlwaysReturns := AlwaysReturns s |}.
Definition setFixedLabels v s :=
  {| Selectors := Selectors s; Call := Call s; ExcludeReason := ExcludeReason s;
     Operation := Operation s; Returns := Returns s;
     ReturnedNumbers := ReturnedNumbers s; IncludedLabels := IncludedLabels s;
     ExcludedLabels := ExcludedLabels s; GuaranteedLabels := GuaranteedLabels s;
     Type_ := Type_ s; FixedLabels := v; IsDead := IsDead s;
     AlwaysReturns := AlwaysReturns s |}.
Definition setIsDead v s :=
  {| Selectors := Selectors s; Call := Call s; ExcludeReason := ExcludeReason s;
     Operation := Operation s; Returns := Returns s;
     ReturnedNumbers := ReturnedNumbers s; IncludedLabels := IncludedLabels s;
     ExcludedLabels := ExcludedLabels s; GuaranteedLabels := GuaranteedLabels s;
     Type_ := Type_ s; FixedLabels := FixedLabels s; IsDead := v;
     AlwaysReturns := AlwaysReturns s |}.
Definition setAlwaysReturns v s :=
  {| Selectors := Selectors s; Call := Call s; ExcludeReason := ExcludeReason s;
     Operation := Operation s; Returns := Returns s;
     ReturnedNumbers := ReturnedNumbers s; IncludedLabels := IncludedLabels s;
     ExcludedLabels := ExcludedLabels s; GuaranteedLabels := GuaranteedLabels s;
     Type_ := Type_ s; FixedLabels := FixedLabels s; IsDead := IsDead s;
     AlwaysReturns := v |}.

(** ** The monad of the analyzer: a store, and panics *)

Inductive Panic :=
| InterfaceConversion     (* a failed type assertion *)
| IndexOutOfRange
| SliceBoundsOutOfRange
| InvalidReference.       (* a reference outside the store: never built *)

Inductive Outcome (A : Type) :=
| Done (a : A) (st : Store)
| Panics (p : Panic).
Arguments Done {A} a st.
Arguments Panics {A} p.

Definition M (A : Type) : Type := Store → Outcome A.

#[global] Instance M_ret : MRet M := λ A a st, Done a st.
#[global] Instance M_bind : MBind M := λ A B f m st,
  match m st with
  | Done a st' => f a st'
  | Panics p => Panics p
  end.
#[global] Instance M_fmap : FMap M := λ A B f m st,
  match m st with
  | Done a st' => Done (f a) st'
  | Panics p => Panics p
  end.

Definition panic {A} (p : Panic) : M A := λ _, Panics p.

(** [for _, x := range xs { acc = body(acc, x) }] *)
Fixpoint forRange {A S} (xs : list A) (body : S → A → M S) (acc : S) : M S :=
  match xs with
  | [] => mret acc
  | x :: xs' => acc' ← body acc x; forRange xs' body acc'
  end.

(** [for _, s = range srcs { ...; src = append(src, s) }] *)
Definition forEachSource (body : Source → M Source) (srcs : list Source)
  : M (list Source) :=
  forRange srcs (λ src s, s' ← body s; mret (src ++ [s'])) [].

(** [append(nums, v)]: every slice of numbers the analyzer builds has its
    capacity equal to its length, so that [append] allocates. *)
Definition appendNumber (nums : option ref) (v : float) : M (option ref) := λ st,
  match nums with
  | None =>
      Done (Some (length (numbers st)))
           {| numbers := numbers st ++ [[v]]; reasons := reasons st |}
  | Some r =>
      match numbers st !! r with
      | Some old =>
          Done (Some (length (numbers st)))
               {| numbers := numbers st ++ [old ++ [v]]; reasons := reasons st |}
      | None => Panics InvalidReference
      end
  end.

(** The contents of a slice of numbers, as a [range] reads them. *)
Definition readNumbers (nums : option ref) : M (list float) := λ st,
  match nums with
  | None => Done [] st
  | Some r =>
      match numbers st !! r with
      | Some vs => Done vs st
      | None => Panics InvalidReference
      end
  end.

(** [nums[i]] *)
Definition readNumber (nums : option ref) (i : nat) : M float := λ st,
  match nums with
  | None => Panics IndexOutOfRange
  | Some r =>
      match numbers st !! r with
      | Some vs =>
          match vs !! i with
          | Some v => Done v st
          | None => Panics IndexOutOfRange
          end
      | None => Panics InvalidReference
      end
  end.

(** [nums[i] = v] *)
Definition writeNumber (nums : option ref) (i : nat) (v : float) : M unit := λ st,
  match nums with
  | None => Panics IndexOutOfRange
  | Some r =>
      match numbers st !! r with
      | Some vs =>
          if decide (i < length vs)
          then Done tt {| numbers := <[r := <[i := v]> vs]> (numbers st);
                          reasons := reasons st |}
          else Panics IndexOutOfRange
      | None => Panics InvalidReference
      end
  end.

Definition setInMap (dst : option ref) (key : string) (val : ExcludedLabel)
  : M (option ref) := λ st,
  match dst with
  | None =>
      Done (Some (length (reasons st)))
           {| numbers := numbers st; reasons := reasons st ++ [ <[key := val]> ∅ ] |}
  | Some r =>
      match reasons st !! r with
      | Some m =>
          Done (Some r)
               {| numbers := numbers st; reasons := <[r := <[key := val]> m]> (reasons st) |}
      | None => Panics InvalidReference
      end
  end.

(** [delete(m, key)]; deleting from a nil map does nothing. *)
Definition deleteInMap (dst : option ref) (key : string) : M unit := λ st,
  match dst with
  | None => Done tt st
  | Some r =>
      match reasons st !! r with
      | Some m =>
          Done tt {| numbers := numbers st; reasons := <[r := delete key m]> (reasons st) |}
      | None => Panics InvalidReference
      end
  end.

(** ** Slices of label names *)

(** [slices.Index] *)
Fixpoint slices_Index (sl : list string) (v : string) : option nat :=
  match sl with
  | [] => None
  | x :: sl' => if decide (x = v) then Some 0 else S <$> slices_Index sl' v
  end.

(** [slices.Contains] *)
Definition slices_Contains {A} `{EqDecision A} (sl : list A) (v : A) : bool :=
  bool_decide (v ∈ sl).

Fixpoint removeFromSlice (sl : list string) (s : list string) : list string :=
  match s with
  | [] => sl
  | v :: s' =>
      match slices_Index sl v with
      | Some idx =>
          if decide (length sl = 1) then []
          else removeFromSlice (delete idx sl) s'
      | None => removeFromSlice sl s'
      end
  end.

Fixpoint appendToSlice (dst : list string) (values : list string) : list string :=
  match values with
  | [] => dst
  | v :: values' =>
      if slices_Contains dst v then appendToSlice dst values'
      else appendToSlice (dst ++ [v]) values'
  end.

Definition guaranteedLabelsMatches : list labels.MatchType :=
  [labels.MatchEqual; labels.MatchRegexp].

(** The body of the two nested loops of [labelsFromSelectors], for one matcher. *)
Definition countMatcher (matches : list labels.MatchType)
    (acc : list string * gmap string nat) (lm : labels.Matcher)
  : list string * gmap string nat :=
  let '(names, nameCount) := acc in
  if decide (labels.Name lm = labels.MetricName) then acc
  else if negb (slices_Contains matches (labels.Type_ lm)) then acc
  else
    let names := appendToSlice names [labels.Name lm] in
    let nameCount :=
      match nameCount !! labels.Name lm with
      | Some _ => nameCount
      | None => <[labels.Name lm := 0]> nameCount
      end in
    (names, <[labels.Name lm := S (default 0 (nameCount !! labels.Name lm))]> nameCount).

(** The last loop of [labelsFromSelectors], over the entries of [nameCount]
    in the order [entries]. *)
Definition pruneNames (n : nat) (entries : list (string * nat)) (names : list string)
  : list string :=
  foldl (λ names '(name, cnt),
           if decide (cnt ≠ n) then removeFromSlice names [name] else names)
        names entries.

(** Go ranges over a map in an unspecified order; [map_to_list] is one
    order, and [pruneNames_Permutation] below shows that the order is
    immaterial. *)
Definition labelsFromSelectors (matches : list labels.MatchType)
    (selectors : list promParser.VectorSelector) : list string :=
  let '(names, nameCount) :=
    foldl (λ acc selector,
             foldl (countMatcher matches) acc (promParser.LabelMatchers selector))
          ([], ∅) selectors in
  pruneNames (length selectors) (map_to_list nameCount) names.

Definition getQueryFragment (expr : string) (pos : posrange.PositionRange) : M string :=
  let start := posrange.Start pos in
  let end_ := posrange.End_ pos in
  if decide (0 ≤ start ∧ start ≤ end_ ∧ end_ ≤ Z.of_nat (String.length expr))%Z
  then mret (substring (Z.to_nat start) (Z.to_nat (end_ - start)) expr)
  else panic SliceBoundsOutOfRange.

(** ** The loop of [parseAggregation] that deletes from the slice it ranges over

    [for _, name := range s.GuaranteedLabels] reads [name] from the backing
    array at every iteration, for the length the slice had when the loop
    started, while [removeFromSlice] shifts the elements of that same array
    ([slices.Delete] works in place and clears the slot it vacates; when the
    slice has one element [removeFromSlice] returns nil and leaves the array
    alone).  The state of the loop is the backing array [arr] and the
    current length [k] of [s.GuaranteedLabels]: the slice is [take k arr]. *)
Definition removeInPlace (arr : list string) (k : nat) (v : string)
  : list string * nat :=
  match slices_Index (take k arr) v with
  | Some idx =>
      if decide (k = 1) then (arr, 0)
      else (delete idx (take k arr) ++ EmptyString :: drop k arr, k - 1)
  | None => (arr, k)
  end.

Fixpoint rangeInPlace (grouping : list string) (idxs : list nat)
    (arr : list string) (k : nat) : list string :=
  match idxs with
  | [] => take k arr
  | i :: idxs' =>
      let name := default EmptyString (arr !! i) in
      if negb (slices_Contains grouping name)
      then let '(arr', k') := removeInPlace arr k name in
           rangeInPlace grouping idxs' arr' k'
      else rangeInPlace grouping idxs' arr k
  end.

(** [for _, name := range gl { if !slices.Contains(grouping, name) { gl = removeFromSlice(gl, name) } }] *)
Definition keepGrouped (grouping : list string) (gl : list string) : list string :=
  rangeInPlace grouping (seq 0 (length gl)) gl (length gl).

(** ** Reasons recorded in [ExcludeReason] *)

Definition strings_Join (elems : list string) (sep : string) : string :=
  String.concat sep elems.

Definition reasonNumber : string := "This returns a number value with no labels.".
Definition reasonString : string := "This returns a string value with no labels.".
Definition reasonWithout (grouping : list string) : string :=
  "Query is using aggregation with `without(" +:+ strings_Join grouping ", " +:+
  ")`, all labels included inside `without(...)` will be removed from the results.".
Definition reasonNoLabels : string :=
  "Query is using aggregation that removes all labels.".
Definition reasonBy (grouping : list string) : string :=
  "Query is using aggregation with `by(" +:+ strings_Join grouping ", " +:+
  ")`, only labels included inside `by(...)` will be present on the results.".
Definition reasonAbsent (name : string) : string :=
  "The [" +:+ name +:+ "()](https://prometheus.io/docs/prometheus/latest/querying/functions/#"
  +:+ name +:+ ") function is used to check if provided query doesn't match any time series.
You will only get any results back if the metric selector you pass doesn't match anything.
Since there are no matching time series there are also no labels. If some time series is missing you cannot read its labels.
This means that the only labels you can get back from absent call are the ones you pass to it.
If you're hoping to get instance specific labels this way and alert when some target is down then that won't work, use the `up` metric instead.".
Definition reasonNoArguments (name : string) : string :=
  "Calling `" +:+ name +:+
  "()` with no arguments will return an empty time series with no labels.".
Definition reasonScalar (name : string) : string :=
  "Calling `" +:+ name +:+ "()` will return a scalar value with no labels.".
Definition reasonVector (name : string) : string :=
  "Calling `" +:+ name +:+ "()` will return a vector value with no labels.".
Definition reasonOn (vm : promParser.VectorMatching) : string :=
  "Query is using " +:+ promParser.Card_String (promParser.Card vm) +:+
  " vector matching with `on(" +:+
  strings_Join (promParser.MatchingLabels vm) ", " +:+
  ")`, only labels included inside `on(...)` will be present on the results.".
Definition reasonIgnoring (vm : promParser.VectorMatching) : string :=
  "Query is using " +:+ promParser.Card_String (promParser.Card vm) +:+
  " vector matching with `ignoring(" +:+
  strings_Join (promParser.MatchingLabels vm) ", " +:+
  ")`, all labels included inside `ignoring(...)` will be removed on the results.".

(** [s.ExcludeReason = setInMap(s.ExcludeReason, key, ExcludedLabel{reason, getQueryFragment(expr, pos)})] *)
Definition setReason (expr : string) (key reason : string)
    (pos : posrange.PositionRange) (s : Source) : M Source :=
  fragment ← getQueryFragment expr pos;
  m ← setInMap (ExcludeReason s) key {| Reason := reason; Fragment := fragment |};
  mret (setExcludeReason m s).

(** [for _, name := range names { delete(s.ExcludeReason, name) }] *)
Definition deleteReasons (names : list string) (s : Source) : M unit :=
  forRange names (λ _ name, deleteInMap (ExcludeReason s) name) tt.

(** ** Constant folding *)
Section Analyzer.

(** [math.Mod] and [math.Pow] of the Go standard library. *)
Variables math_Mod math_Pow : float → float → float.

Definition calculateStaticReturn (lv rv : float) (op : promParser.ItemType)
    (isDead : bool) : float * bool :=
  match op with
  | promParser.EQLC => if negb (lv =? rv)%float then (lv, true) else (lv, isDead)
  | promParser.NEQ => if (lv =? rv)%float then (lv, true) else (lv, isDead)
  | promParser.LTE => if (rv <? lv)%float then (lv, true) else (lv, isDead)
  | promParser.LSS => if (rv <=? lv)%float then (lv, true) else (lv, isDead)
  | promParser.GTE => if (lv <? rv)%float then (lv, true) else (lv, isDead)
  | promParser.GTR => if (lv <=? rv)%float then (lv, true) else (lv, isDead)
  | promParser.ADD => ((lv + rv)%float, isDead)
  | promParser.SUB => ((lv - rv)%float, isDead)
  | promParser.MUL => ((lv * rv)%float, isDead)
  | promParser.DIV => ((lv / rv)%float, isDead)
  | promParser.MOD => (math_Mod lv rv, isDead)
  | promParser.POW => (math_Pow lv rv, isDead)
  | _ => (lv, isDead)
  end.

(** ** Aggregations *)

(** The body of the loop of [parseAggregation], for one source of the
    inner expression. *)
Definition aggregateSource (expr : string) (grouping : list string)
    (without : bool) (pos : posrange.PositionRange) (s : Source) : M Source :=
  s ← (if without then
         let s := setExcludedLabels (appendToSlice (ExcludedLabels s) grouping) s in
         let s := setIncludedLabels (removeFromSlice (IncludedLabels s) grouping) s in
         let s := setGuaranteedLabels (removeFromSlice (GuaranteedLabels s) grouping) s in
         forRange grouping
           (λ s name, setReason expr name (reasonWithout grouping) pos s) s
       else
         s ← (if decide (length grouping = 0) then
                let s := setIncludedLabels [] s in
                let s := setGuaranteedLabels [] s in
                setReason expr EmptyString reasonNoLabels pos s
              else
                s ← (if negb (FixedLabels s) then
                       let s := setIncludedLabels
                                  (appendToSlice (IncludedLabels s) grouping) s in
                       let s := foldl (λ s name,
                                  setExcludedLabels
                                    (removeFromSlice (ExcludedLabels s) [name]) s)
                                  s grouping in
                       setReason expr EmptyString (reasonBy grouping) pos s
                     else mret s);
                mret (setGuaranteedLabels
                        (keepGrouped grouping (GuaranteedLabels s)) s));
         mret (setFixedLabels true s));
  let s := setType AggregateSource s in
  let s := setReturns promParser.ValueTypeVector s in
  mret (setCall None s).

Definition parseAggregation (walkNode : promParser.Node → M (list Source))
    (expr : string) (e : promParser.Node) (grouping : list string)
    (without : bool) (pos : posrange.PositionRange) : M (list Source) :=
  inner ← walkNode e;
  forEachSource (aggregateSource expr grouping without pos) inner.

(** The type assertion of a node to a string literal, followed by [.Val]:
    the value of a string literal, a panic for any other node. *)
Definition stringLiteralVal (n : option promParser.Node) : M string :=
  match n with
  | Some (promParser.StringLiteral val _) => mret val
  | _ => panic InterfaceConversion
  end.

(** [for _, s = range srcs { s.Operation = op; src = append(src, s) }] *)
Definition tagOperation (op : string) (srcs : list Source) : list Source :=
  setOperation op <$> srcs.

Definition walkAggregation (walkNode : promParser.Node → M (list Source))
    (expr : string) (op : promParser.ItemType) (e : promParser.Node)
    (param : option promParser.Node) (grouping : list string)
    (without : bool) (pos : posrange.PositionRange) : M (list Source) :=
  let parsed := parseAggregation walkNode expr e grouping without pos in
  match op with
  | promParser.SUM => tagOperation "sum" <$> parsed
  | promParser.MIN => tagOperation "min" <$> parsed
  | promParser.MAX => tagOperation "max" <$> parsed
  | promParser.AVG => tagOperation "avg" <$> parsed
  | promParser.GROUP => tagOperation "group" <$> parsed
  | promParser.STDDEV => tagOperation "stddev" <$> parsed
  | promParser.STDVAR => tagOperation "stdvar" <$> parsed
  | promParser.COUNT => tagOperation "count" <$> parsed
  | promParser.COUNT_VALUES =>
      srcs ← parsed;
      forEachSource
        (λ s,
           let s := setOperation "count_values" s in
           val ← stringLiteralVal param;
           let s := setGuaranteedLabels (appendToSlice (GuaranteedLabels s) [val]) s in
           val ← stringLiteralVal param;
           let s := setIncludedLabels (appendToSlice (IncludedLabels s) [val]) s in
           val ← stringLiteralVal param;
           let s := setExcludedLabels (removeFromSlice (ExcludedLabels s) [val]) s in
           val ← stringLiteralVal param;
           _ ← deleteInMap (ExcludeReason s) val;
           mret s)
        srcs
  | promParser.QUANTILE => tagOperation "quantile" <$> parsed
  | promParser.TOPK =>
      srcs ← walkNode e;
      mret ((λ s, setOperation "topk" (setType AggregateSource s)) <$> srcs)
  | promParser.BOTTOMK =>
      srcs ← walkNode e;
      mret ((λ s, setOperation "bottomk" (setType AggregateSource s)) <$> srcs)
  | _ => mret []
  end.

(** ** Function calls *)

(** The type of the [i]-th argument: [n.Func.ArgTypes[i]], the last type
    for the extra arguments of a variadic function. *)
Definition argType (f : promParser.Function) (i : nat) : M promParser.ValueType :=
  let types := promParser.ArgTypes f in
  if decide (length types ≤ i) then
    match length types with
    | 0 => panic IndexOutOfRange
    | S last => from_option mret (panic IndexOutOfRange) (types !! last)
    end
  else from_option mret (panic IndexOutOfRange) (types !! i).

(** [for _, es := range walkNode(expr, e) { s.Selectors = append(s.Selectors, es.Selectors...) }] *)
Definition appendSelectors (s : Source) (srcs : list Source) : Source :=
  foldl (λ s es, setSelectors (Selectors s ++ Selectors es) s) s srcs.

(** The first loop of [parseCall], from argument [i] on. *)
Fixpoint gatherSelectors (walkNode : promParser.Node → M (list Source))
    (f : promParser.Function) (i : nat) (args : list promParser.Node)
    (s : Source) : M Source :=
  match args with
  | [] => mret s
  | e :: args' =>
      vt ← argType f i;
      s ← match vt with
          | promParser.ValueTypeVector | promParser.ValueTypeMatrix =>
              srcs ← walkNode e; mret (appendSelectors s srcs)
          | _ => mret s
          end;
      gatherSelectors walkNode f (S i) args' s
  end.

(** [case "a", "b", ...:] of a switch over a string. *)
Definition isCase (name : string) (names : list string) : bool :=
  bool_decide (name ∈ names).

(** The body shared by the cases commented "No change to labels". *)
Definition noChangeToLabels (s : Source) : Source :=
  let s := setReturns promParser.ValueTypeVector s in
  setGuaranteedLabels
    (appendToSlice (GuaranteedLabels s)
       (labelsFromSelectors guaranteedLabelsMatches (Selectors s))) s.

(** The body shared by [pi], [scalar] and [time]. *)
Definition scalarNoLabels (expr : string) (name : string)
    (pos : posrange.PositionRange) (s : Source) : M Source :=
  let s := setReturns promParser.ValueTypeScalar s in
  let s := setIncludedLabels [] s in
  let s := setGuaranteedLabels [] s in
  let s := setFixedLabels true s in
  let s := setAlwaysReturns true s in
  setReason expr EmptyString (reasonScalar name) pos s.

Definition parseCall (walkNode : promParser.Node → M (list Source))
    (expr : string) (f : promParser.Function) (args : list promParser.Node)
    (pos : posrange.PositionRange) : M Source :=
  let n := promParser.Call f args pos in
  let name := promParser.Name f in
  let s := setType FuncSource zeroSource in
  let s := setOperation name s in
  let s := setCall (Some n) s in
  s ← gatherSelectors walkNode f 0 args s;
  if isCase name ["abs"; "sgn"; "acos"; "acosh"; "asin"; "asinh"; "atan"; "atanh";
                  "cos"; "cosh"; "sin"; "sinh"; "tan"; "tanh"]
  then mret (noChangeToLabels s)
  else if isCase name ["ceil"; "floor"; "round"] then mret (noChangeToLabels s)
  else if isCase name ["changes"; "resets"] then mret (noChangeToLabels s)
  else if isCase name ["clamp"; "clamp_max"; "clamp_min"] then mret (noChangeToLabels s)
  else if isCase name ["absent"; "absent_over_time"] then
    let s := setReturns promParser.ValueTypeVector s in
    let s := setFixedLabels true s in
    let s := foldl (λ s name,
               let s := setIncludedLabels (appendToSlice (IncludedLabels s) [name]) s in
               setGuaranteedLabels (appendToSlice (GuaranteedLabels s) [name]) s)
               s (labelsFromSelectors [labels.MatchEqual] (Selectors s)) in
    setReason expr EmptyString (reasonAbsent name) pos s
  else if isCase name ["avg_over_time"; "count_over_time"; "last_over_time";
                       "max_over_time"; "min_over_time"; "present_over_time";
                       "quantile_over_time"; "stddev_over_time"; "stdvar_over_time";
                       "sum_over_time"]
  then mret (noChangeToLabels s)
  else if isCase name ["days_in_month"; "day_of_month"; "day_of_week"; "day_of_year";
                       "hour"; "minute"; "month"; "year"] then
    let s := setReturns promParser.ValueTypeVector s in
    if decide (length args = 0) then
      let s := setFixedLabels true s in
      let s := setAlwaysReturns true s in
      let s := setIncludedLabels [] s in
      let s := setGuaranteedLabels [] s in
      setReason expr EmptyString (reasonNoArguments name) pos s
    else
      mret (setGuaranteedLabels
              (appendToSlice (GuaranteedLabels s)
                 (labelsFromSelectors guaranteedLabelsMatches (Selectors s))) s)
  else if isCase name ["deg"; "rad"; "ln"; "log10"; "log2"; "sqrt"; "exp"]
  then mret (noChangeToLabels s)
  else if isCase name ["delta"; "idelta"; "increase"; "deriv"; "irate"; "rate"]
  then mret (noChangeToLabels s)
  else if isCase name ["histogram_avg"; "histogram_count"; "histogram_sum";
                       "histogram_stddev"; "histogram_stdvar"; "histogram_fraction";
                       "histogram_quantile"]
  then mret (noChangeToLabels s)
  else if isCase name ["holt_winters"; "predict_linear"] then mret (noChangeToLabels s)
  else if isCase name ["label_replace"; "label_join"] then
    let s := noChangeToLabels s in
    arg ← from_option mret (panic IndexOutOfRange) (args !! 1);
    dst ← stringLiteralVal (Some arg);
    mret (setGuaranteedLabels (appendToSlice (GuaranteedLabels s) [dst]) s)
  else if isCase name ["pi"] then scalarNoLabels expr name pos s
  else if isCase name ["scalar"] then scalarNoLabels expr name pos s
  else if isCase name ["sort"; "sort_desc"] then
    mret (setReturns promParser.ValueTypeVector s)
  else if isCase name ["time"] then scalarNoLabels expr name pos s
  else if isCase name ["timestamp"] then mret (noChangeToLabels s)
  else if isCase name ["vector"] then
    let s := setReturns promParser.ValueTypeVector s in
    let s := setIncludedLabels [] s in
    let s := setGuaranteedLabels [] s in
    let s := setFixedLabels true s in
    let s := setAlwaysReturns true s in
    arg ← from_option mret (panic IndexOutOfRange) (args !! 0);
    s ← match arg with
        | promParser.NumberLiteral val _ =>
            nums ← appendNumber (ReturnedNumbers s) val;
            mret (setReturnedNumbers nums s)
        | _ => mret s
        end;
    setReason expr EmptyString (reasonVector name) pos s
  else
    let s := setReturns promParser.ValueTypeNone s in
    mret (setCall None s).

(** ** Binary expressions *)

(** [if s.Operation == "" { s.Operation = n.VectorMatching.Card.String() }] *)
Definition defaultOperation (vm : promParser.VectorMatching) (s : Source) : Source :=
  if decide (Operation s = EmptyString)
  then setOperation (promParser.Card_String (promParser.Card vm)) s
  else s.

(** The two loops over the returned numbers of a pair of sources that both
    always return.  The array of [ls] is written in place. *)
Definition foldReturnedNumbers (op : promParser.ItemType) (ls rs : Source)
  : M Source :=
  lnums ← readNumbers (ReturnedNumbers ls);
  forRange (seq 0 (length lnums))
    (λ ls i,
       lv ← readNumber (ReturnedNumbers ls) i;
       rnums ← readNumbers (ReturnedNumbers rs);
       forRange (seq 0 (length rnums))
         (λ ls j,
            rv ← readNumber (ReturnedNumbers rs) j;
            let '(v, isDead) := calculateStaticReturn lv rv op (IsDead ls) in
            _ ← writeNumber (ReturnedNumbers ls) i v;
            mret (setIsDead isDead ls))
         ls)
    ls.

Definition isVectorOrMatrix (vt : promParser.ValueType) : bool :=
  bool_decide (vt = promParser.ValueTypeVector)
  || bool_decide (vt = promParser.ValueTypeMatrix).

(** The body of the inner loop of the case without vector matching: [ls]
    is the variable of the outer loop, which the inner loop updates. *)
Definition pairSources (op : promParser.ItemType)
    (acc : Source * list Source) (rs : Source) : M (Source * list Source) :=
  let '(ls, src) := acc in
  if AlwaysReturns ls && AlwaysReturns rs then
    ls ← foldReturnedNumbers op ls rs;
    mret (ls, src ++ [ls])
  else if isVectorOrMatrix (Returns ls) then mret (ls, src ++ [ls])
  else if isVectorOrMatrix (Returns rs) then mret (ls, src ++ [rs])
  else mret (ls, src).

(** The body of the loop for [on(...)] and [ignoring(...)] of a one-to-one
    matching. *)
Definition oneToOneSource (expr : string) (vm : promParser.VectorMatching)
    (pos : posrange.PositionRange) (s : Source) : M Source :=
  let ml := promParser.MatchingLabels vm in
  s ← (if promParser.On vm then
         let s := setFixedLabels true s in
         let s := setIncludedLabels (appendToSlice (IncludedLabels s) ml) s in
         let s := setExcludedLabels (removeFromSlice (ExcludedLabels s) ml) s in
         _ ← deleteReasons ml s;
         setReason expr EmptyString (reasonOn vm) pos s
       else
         let s := setIncludedLabels (removeFromSlice (IncludedLabels s) ml) s in
         let s := setGuaranteedLabels (removeFromSlice (GuaranteedLabels s) ml) s in
         let s := setExcludedLabels (appendToSlice (ExcludedLabels s) ml) s in
         forRange ml (λ s name, setReason expr name (reasonIgnoring vm) pos s) s);
  mret (defaultOperation vm s).

(** The body of the loops for [group_left] and [group_right]. *)
Definition groupSource (vm : promParser.VectorMatching) (s : Source) : M Source :=
  let s := setIncludedLabels
             (appendToSlice (IncludedLabels s) (promParser.Include vm)) s in
  s ← (if promParser.On vm then
         let s := setIncludedLabels
                    (appendToSlice (IncludedLabels s) (promParser.MatchingLabels vm)) s in
         _ ← deleteReasons (promParser.MatchingLabels vm) s;
         mret s
       else mret s);
  let s := setExcludedLabels
             (removeFromSlice (ExcludedLabels s) (promParser.Include vm)) s in
  _ ← deleteReasons (promParser.Include vm) s;
  mret (defaultOperation vm s).

(** The body of the loop over the left side of [and], [or], [unless]; the
    accumulator is [lhsCanBeEmpty] and [src]. *)
Definition manyToManyLeft (vm : promParser.VectorMatching)
    (acc : bool * list Source) (s : Source) : M (bool * list Source) :=
  let '(lhsCanBeEmpty, src) := acc in
  s ← (if promParser.On vm then
         let s := setIncludedLabels
                    (appendToSlice (IncludedLabels s) (promParser.MatchingLabels vm)) s in
         _ ← deleteReasons (promParser.MatchingLabels vm) s;
         mret s
       else mret s);
  let s := defaultOperation vm s in
  let lhsCanBeEmpty := if negb (AlwaysReturns s) then true else lhsCanBeEmpty in
  mret (lhsCanBeEmpty, src ++ [s]).

(** The body of the loop over the right side of [or]. *)
Definition manyToManyRight (vm : promParser.VectorMatching) (lhsCanBeEmpty : bool)
    (s : Source) : Source :=
  let s := defaultOperation vm s in
  if negb lhsCanBeEmpty then setIsDead true s else s.

Definition parseBinOps (walkNode : promParser.Node → M (list Source))
    (expr : string) (op : promParser.ItemType) (LHS RHS : promParser.Node)
    (vm : option promParser.VectorMatching) : M (list Source) :=
  match vm with
  | None =>
      lhs ← walkNode LHS;
      rhs ← walkNode RHS;
      forRange lhs
        (λ src ls, snd <$> forRange rhs (pairSources op) (ls, src))
        []
  | Some vm =>
      match promParser.Card vm with
      | promParser.CardOneToOne =>
          srcs ← walkNode LHS;
          forEachSource
            (oneToOneSource expr vm
               {| posrange.Start := posrange.Start (promParser.PositionRange LHS);
                  posrange.End_ := posrange.End_ (promParser.PositionRange RHS) |})
            srcs
      | promParser.CardOneToMany =>
          srcs ← walkNode RHS; forEachSource (groupSource vm) srcs
      | promParser.CardManyToOne =>
          srcs ← walkNode LHS; forEachSource (groupSource vm) srcs
      | promParser.CardManyToMany =>
          lhs ← walkNode LHS;
          '(lhsCanBeEmpty, src) ← forRange lhs (manyToManyLeft vm) (false, []);
          if decide (op = promParser.LOR) then
            rhs ← walkNode RHS;
            mret (src ++ (manyToManyRight vm lhsCanBeEmpty <$> rhs))
          else mret src
      end
  end.

(** ** The walk *)

Fixpoint walkNode (expr : string) (node : promParser.Node) {struct node}
  : M (list Source) :=
  match node with
  | promParser.AggregateExpr op e param grouping without pos =>
      walkAggregation (walkNode expr) expr op e param grouping without pos
  | promParser.BinaryExpr op lhs rhs vm _ =>
      parseBinOps (walkNode expr) expr op lhs rhs vm
  | promParser.Call f args pos =>
      s ← parseCall (walkNode expr) expr f args pos; mret [s]
  | promParser.MatrixSelector vs _ _ => walkNode expr vs
  | promParser.SubqueryExpr e _ _ _ => walkNode expr e
  | promParser.NumberLiteral val pos =>
      let s := setType NumberSource zeroSource in
      let s := setReturns promParser.ValueTypeScalar s in
      nums ← appendNumber (ReturnedNumbers s) val;
      let s := setReturnedNumbers nums s in
      let s := setIncludedLabels [] s in
      let s := setGuaranteedLabels [] s in
      let s := setFixedLabels true s in
      let s := setAlwaysReturns true s in
      s ← setReason expr EmptyString reasonNumber pos s;
      mret [s]
  | promParser.ParenExpr e _ => walkNode expr e
  | promParser.StringLiteral _ pos =>
      let s := setType StringSource zeroSource in
      let s := setReturns promParser.ValueTypeString s in
      let s := setIncludedLabels [] s in
      let s := setGuaranteedLabels [] s in
      let s := setFixedLabels true s in
      let s := setAlwaysReturns true s in
      s ← setReason expr EmptyString reasonString pos s;
      mret [s]
  | promParser.UnaryExpr _ e _ => walkNode expr e
  | promParser.StepInvariantExpr _ => mret []
  | promParser.VectorSelectorExpr n =>
      let s := setType SelectorSource zeroSource in
      let s := setReturns promParser.ValueTypeVector s in
      let s := setSelectors (Selectors s ++ [n]) s in
      let s := setGuaranteedLabels
                 (appendToSlice (GuaranteedLabels s)
                    (labelsFromSelectors guaranteedLabelsMatches [n])) s in
      mret [s]
  end.

Definition LabelsSource (expr : string) (node : promParser.Node) : M (list Source) :=
  walkNode expr node.

End Analyzer.

(** Modelled from the spec: [HasOuterBinaryExpr] belongs to this package but
    is not among the sources.  It "returns the binary expression at the
    outermost level, skipping Paren and Unary wrappers". *)
Fixpoint outerBinaryExpr (n : promParser.Node) : option promParser.BinaryExprT :=
  match n with
  | promParser.BinaryExpr _ _ _ _ _ => promParser.asBinaryExpr n
  | promParser.ParenExpr e _ => outerBinaryExpr e
  | promParser.UnaryExpr _ e _ => outerBinaryExpr e
  | _ => None
  end.

Definition HasOuterBinaryExpr (node : parser.PromQLNode)
  : option promParser.BinaryExprT :=
  outerBinaryExpr (parser.Node node).

End utils.

(* ===================================================================== *)
(** * pint: internal/checks/alerts_comparison.go *)
(* ===================================================================== *)
Module checks.

Inductive Severity := Information | Warning | Bug | Fatal.

#[global] Instance Severity_eq_dec : EqDecision Severity.
Proof. solve_decision. Defined.

Record Problem := {
  Fragment : string;
  Lines : parser.LineRange;
  Reporter : string;
  Text : string;
  Details : string;
  Severity_ : Severity;
}.

Definition ComparisonCheckName : string := "alerts/comparison".

Definition textAlwaysFire : string :=
  "alert query uses 'or' operator with one side of the query that will always return a result, this alert will always fire".
Definition textBoolModifier : string :=
  "alert query uses bool modifier for comparison, this means it will always return a result and the alert will always fire".
Definition textNoCondition : string :=
  "alert query doesn't have any condition, it will always fire if the metric exists".

(** The test [hasComparision] makes on the node itself. *)
Definition comparisonOrUnless (n : promParser.Node) : option promParser.BinaryExprT :=
  match promParser.asBinaryExpr n with
  | Some node =>
      if promParser.IsComparisonOperator (promParser.Op node) then Some node
      else if decide (promParser.Op node = promParser.LUNLESS) then Some node
      else None
  | None => None
  end.

(** [for _, child := range children { if node := f(child); node != nil { return node } }; return nil] *)
Fixpoint firstNonNil {A B} (f : A → option B) (children : list A) : option B :=
  match children with
  | [] => None
  | child :: children' =>
      match f child with
      | Some node => Some node
      | None => firstNonNil f children'
      end
  end.

(** The recursion runs over [promParser.Children]; it is written out by
    node kind so that it is structural, and [hasComparision_Children]
    below gives the equation of the source. *)
Fixpoint hasComparision (n : promParser.Node) : option promParser.BinaryExprT :=
  match comparisonOrUnless n with
  | Some node => Some node
  | None =>
      match n with
      | promParser.AggregateExpr _ e None _ _ _ => hasComparision e
      | promParser.AggregateExpr _ e (Some p) _ _ _ =>
          match hasComparision e with
          | Some node => Some node
          | None => hasComparision p
          end
      | promParser.BinaryExpr _ l r _ _ =>
          match hasComparision l with
          | Some node => Some node
          | None => hasComparision r
          end
      | promParser.Call _ args _ =>
          (fix children (l : list promParser.Node) :=
             match l with
             | [] => None
             | child :: l' =>
                 match hasComparision child with
                 | Some node => Some node
                 | None => children l'
                 end
             end) args
      | promParser.MatrixSelector e _ _ => hasComparision e
      | promParser.SubqueryExpr e _ _ _ => hasComparision e
      | promParser.ParenExpr e _ => hasComparision e
      | promParser.UnaryExpr _ e _ => hasComparision e
      | promParser.StepInvariantExpr e => hasComparision e
      | promParser.NumberLiteral _ _ | promParser.StringLiteral _ _
      | promParser.VectorSelectorExpr _ => None
      end
  end.

(** The test [isAbsent] makes on the node itself. *)
Definition isAbsentCall (node : promParser.Node) : bool :=
  match node with
  | promParser.Call f _ _ => bool_decide (promParser.Name f = "absent")
  | _ => false
  end.

Fixpoint isAbsent (node : promParser.Node) : bool :=
  if isAbsentCall node then true
  else
    match node with
    | promParser.AggregateExpr _ e None _ _ _ => isAbsent e
    | promParser.AggregateExpr _ e (Some p) _ _ _ => isAbsent e || isAbsent p
    | promParser.BinaryExpr _ l r _ _ => isAbsent l || isAbsent r
    | promParser.Call _ args _ =>
        (fix children (l : list promParser.Node) :=
           match l with
           | [] => false
           | child :: l' => isAbsent child || children l'
           end) args
    | promParser.MatrixSelector e _ _ => isAbsent e
    | promParser.SubqueryExpr e _ _ _ => isAbsent e
    | promParser.ParenExpr e _ => isAbsent e
    | promParser.UnaryExpr _ e _ => isAbsent e
    | promParser.StepInvariantExpr e => isAbsent e
    | promParser.NumberLiteral _ _ | promParser.StringLiteral _ _
    | promParser.VectorSelectorExpr _ => false
    end.

Fixpoint hasAbsent (n : parser.PromQLNode) : bool :=
  match n with
  | parser.mkPromQLNode node children =>
      if isAbsent node then true
      else
        (fix loop (l : list parser.PromQLNode) :=
           match l with
           | [] => false
           | child :: l' => hasAbsent child || loop l'
           end) children
  end.

Fixpoint rewriteSeverity (s : Severity) (nodes : list promParser.Node) : Severity :=
  match nodes with
  | [] => s
  | promParser.Call f _ _ :: nodes' =>
      if decide (promParser.Name f = "vector") then Bug else rewriteSeverity s nodes'
  | _ :: nodes' => rewriteSeverity s nodes'
  end.

Section ComparisonCheck.

(** [utils.HasOuterBinaryExpr], which is not among the sources: the check
    is stated for any function of its type; [utils.HasOuterBinaryExpr]
    above is the one the specification describes. *)
Variable HasOuterBinaryExpr : parser.PromQLNode → option promParser.BinaryExprT.

Definition problem (ar : parser.AlertingRuleT) (text : string) (sev : Severity)
  : Problem :=
  {| Fragment := parser.Value (parser.Expr ar);
     Lines := parser.Lines (parser.Expr ar);
     Reporter := ComparisonCheckName;
     Text := text;
     Details := EmptyString;
     Severity_ := sev |}.

(** The first sub-rule: an outermost [or]. *)
Definition checkOr (ar : parser.AlertingRuleT) (expr : parser.PromQLNode)
    (problems : list Problem) : list Problem :=
  match HasOuterBinaryExpr expr with
  | Some n =>
      if decide (promParser.Op n = promParser.LOR) then
        if (bool_decide (hasComparision (promParser.LHS n) = None)
            || bool_decide (hasComparision (promParser.RHS n) = None))
           && negb (isAbsent (promParser.LHS n))
           && negb (isAbsent (promParser.RHS n))
        then problems ++
               [problem ar textAlwaysFire
                  (rewriteSeverity Warning [promParser.LHS n; promParser.RHS n])]
        else problems
      else problems
  | None => problems
  end.

(** [ComparisonCheck.Check]; the context, the path and the other entries
    are not used by the function. *)
Definition Check (rule : parser.Rule) : list Problem :=
  let problems := [] in
  match rule with
  | parser.RecordingRule _ => problems
  | parser.AlertingRule ar =>
      match parser.Parsed (parser.Expr ar) with
      | parser.SyntaxError _ => problems
      | parser.Query expr =>
          let problems := checkOr ar expr problems in
          match hasComparision (parser.Node expr) with
          | Some n =>
              if promParser.ReturnBool n
                 && bool_decide (hasComparision (promParser.LHS n) = None)
                 && bool_decide (hasComparision (promParser.RHS n) = None)
              then problems ++ [problem ar textBoolModifier Bug]
              else problems
          | None =>
              if hasAbsent expr then problems
              else problems ++ [problem ar textNoCondition Warning]
          end
      end
  end.

End ComparisonCheck.

End checks.


(* ===================================================================== *)
(** * pint: internal/discovery/discovery.go *)
(* ===================================================================== *)
Module discovery.

(** [ChangeType] is a [uint8]; the constants are numbered by [iota]. *)
Definition ChangeType := Z.
Definition Unknown : ChangeType := 0%Z.
Definition Noop : ChangeType := 1%Z.
Definition Added : ChangeType := 2%Z.
Definition Modified : ChangeType := 3%Z.
Definition Removed : ChangeType := 4%Z.
Definition Moved : ChangeType := 5%Z.

Definition ChangeType_String (c : ChangeType) : string :=
  if decide (c = Unknown) then "unknown"
  else if decide (c = Noop) then "noop"
  else if decide (c = Added) then "added"
  else if decide (c = Modified) then "modified"
  else if decide (c = Removed) then "removed"
  else if decide (c = Moved) then "moved"
  else "---".

Record Path := mkPath {
  Name : string;          (* file path, it can be symlink *)
  SymlinkTarget : string  (* symlink target, or the same as name if not a symlink *)
}.

(** [fmt.Sprintf("%s ~> %s", p.Name, p.SymlinkTarget)] writes the two strings
    around the separator. *)
Definition Path_String (p : Path) : string :=
  if decide (Name p = SymlinkTarget p) then Name p
  else Name p +:+ " ~> " +:+ SymlinkTarget p.

End discovery.

(* ===================================================================== *)
(** * Vocabulary of the properties *)
(* ===================================================================== *)

(** A matcher that [labelsFromSelectors] counts: its type is one of [matches]
    and it is not the matcher of the metric name. *)
Definition countedMatcher (matches : list labels.MatchType) (lm : labels.Matcher) : bool :=
  negb (bool_decide (labels.Name lm = labels.MetricName))
  && utils.slices_Contains matches (labels.Type_ lm).

(** The label names of the counted matchers of the selectors, one per matcher,
    in the order of the source text. *)
Definition matcherNames (matches : list labels.MatchType)
    (selectors : list promParser.VectorSelector) : list string :=
  selectors ≫= λ selector,
    labels.Name <$> filter (λ lm, countedMatcher matches lm) (promParser.LabelMatchers selector).

(** The number of occurrences of [x] in [l]. *)
Definition occurrences (x : string) (l : list string) : nat :=
  length (filter (λ y, y = x) l).

(** The invariant of the label lists of a source: no name twice in a list,
    no name both guaranteed and excluded. *)
Definition wellFormedLabels (included excluded guaranteed : list string) : Prop :=
  NoDup included ∧ NoDup excluded ∧ NoDup guaranteed
  ∧ ∀ name, name ∈ guaranteed → name ∉ excluded.

Definition labelsWellFormed (s : utils.Source) : Prop :=
  wellFormedLabels (utils.IncludedLabels s) (utils.ExcludedLabels s)
    (utils.GuaranteedLabels s).

(** [s'] has the label lists of [s]. *)
Definition sameLabels (s s' : utils.Source) : Prop :=
  utils.IncludedLabels s' = utils.IncludedLabels s
  ∧ utils.ExcludedLabels s' = utils.ExcludedLabels s
  ∧ utils.GuaranteedLabels s' = utils.GuaranteedLabels s.

(** [s'] is [s], its map of reasons apart. *)
Definition sameButReason (s s' : utils.Source) : Prop :=
  s' = utils.setExcludeReason (utils.ExcludeReason s') s.

(** Partial correctness in the monad of the analyzer: every result that [m]
    returns, from any store, satisfies [Q]. *)
Definition returning {A} (m : utils.M A) (Q : A → Prop) : Prop :=
  ∀ st a st', m st = utils.Done a st' → Q a.

(** The functions the specification calls label-preserving transforms: the
    cases of [parseCall] commented "No change to labels", [sort] and
    [sort_desc] apart. *)
Definition labelPreserving : list string :=
  ["abs"; "sgn"; "acos"; "acosh"; "asin"; "asinh"; "atan"; "atanh";
   "cos"; "cosh"; "sin"; "sinh"; "tan"; "tanh";
   "ceil"; "floor"; "round";
   "changes"; "resets";
   "clamp"; "clamp_max"; "clamp_min";
   "avg_over_time"; "count_over_time"; "last_over_time"; "max_over_time";
   "min_over_time"; "present_over_time"; "quantile_over_time";
   "stddev_over_time"; "stdvar_over_time"; "sum_over_time";
   "deg"; "rad"; "ln"; "log10"; "log2"; "sqrt"; "exp";
   "delta"; "idelta"; "increase"; "deriv"; "irate"; "rate";
   "histogram_avg"; "histogram_count"; "histogram_sum"; "histogram_stddev";
   "histogram_stdvar"; "histogram_fraction"; "histogram_quantile";
   "holt_winters"; "predict_linear";
   "timestamp"].

(** [s] is [x] with its kind set to [AggregateSource] and its operation to
    [operation], every other field unchanged. *)
Definition taggedAggregate (operation : string) (x s : utils.Source) : Prop :=
  utils.Type_ s = utils.AggregateSource
  ∧ utils.Operation s = operation
  ∧ utils.Selectors s = utils.Selectors x
  ∧ utils.Call s = utils.Call x
  ∧ utils.ExcludeReason s = utils.ExcludeReason x
  ∧ utils.Returns s = utils.Returns x
  ∧ utils.ReturnedNumbers s = utils.ReturnedNumbers x
  ∧ utils.IncludedLabels s = utils.IncludedLabels x
  ∧ utils.ExcludedLabels s = utils.ExcludedLabels x
  ∧ utils.GuaranteedLabels s = utils.GuaranteedLabels x
  ∧ utils.FixedLabels s = utils.FixedLabels x
  ∧ utils.IsDead s = utils.IsDead x
  ∧ utils.AlwaysReturns s = utils.AlwaysReturns x.

(** [rule.Expr()]: the expression of a rule of either kind. *)
Definition exprOf (rule : parser.Rule) : parser.PromQLExpr :=
  match rule with
  | parser.RecordingRule r => parser.RecordingExpr r
  | parser.AlertingRule a => parser.Expr a
  end.

(** The nodes of an expression in pre-order: the node, then the nodes of its
    children ([promParser.Children]) from left to right. *)
Fixpoint descendants (n : promParser.Node) : list promParser.Node :=
  n :: match n with
       | promParser.AggregateExpr _ e None _ _ _ => descendants e
       | promParser.AggregateExpr _ e (Some p) _ _ _ => descendants e ++ descendants p
       | promParser.BinaryExpr _ l r _ _ => descendants l ++ descendants r
       | promParser.Call _ args _ =>
           (fix children (l : list promParser.Node) :=
              match l with
              | [] => []
              | child :: l' => descendants child ++ children l'
              end) args
       | promParser.MatrixSelector e _ _ => descendants e
       | promParser.SubqueryExpr e _ _ _ => descendants e
       | promParser.ParenExpr e _ => descendants e
       | promParser.UnaryExpr _ e _ => descendants e
       | promParser.StepInvariantExpr e => descendants e
       | promParser.NumberLiteral _ _ | promParser.StringLiteral _ _
       | promParser.VectorSelectorExpr _ => []
       end.

(** A binary expression whose operator is a comparison. *)
Definition isComparison (n : promParser.Node) : bool :=
  match promParser.asBinaryExpr n with
  | Some b => promParser.IsComparisonOperator (promParser.Op b)
  | None => false
  end.

(** The expression contains a comparison. *)
Definition containsComparison (n : promParser.Node) : bool :=
  existsb isComparison (descendants n).

(** A call to [absent] or to [absent_over_time]. *)
Definition isAbsentOrAbsentOverTimeCall (n : promParser.Node) : bool :=
  match n with
  | promParser.Call f _ _ =>
      bool_decide (promParser.Name f = "absent")
      || bool_decide (promParser.Name f = "absent_over_time")
  | _ => false
  end.

(** C5 as the specification states it: a [Bug] is reported as soon as any
    node of the expression is a comparison with the bool modifier whose
    operands contain no comparison. *)
Definition anyBoolComparisonIsReported : Prop :=
  ∀ (HasOuterBinaryExpr : parser.PromQLNode → option promParser.BinaryExprT)
    (ar : parser.AlertingRuleT) (expr : parser.PromQLNode)
    (d : promParser.Node) (b : promParser.BinaryExprT),
    parser.Parsed (parser.Expr ar) = parser.Query expr →
    d ∈ descendants (parser.Node expr) →
    promParser.asBinaryExpr d = Some b →
    promParser.IsComparisonOperator (promParser.Op b) = true →
    promParser.ReturnBool b = true →
    containsComparison (promParser.LHS b) = false →
    containsComparison (promParser.RHS b) = false →
    ∃ p, p ∈ checks.Check HasOuterBinaryExpr (parser.AlertingRule ar)
         ∧ checks.Severity_ p = checks.Bug
         ∧ checks.Text p = checks.textBoolModifier.

(** A positive matcher, Equal or Regex, of a label other than the metric
    name. *)
Definition positiveMatcher (lm : labels.Matcher) : bool :=
  bool_decide (labels.Name lm ≠ labels.MetricName)
  && bool_decide (labels.Type_ lm ∈ [labels.MatchEqual; labels.MatchRegexp]).

(** The label names that a selector uses in positive matchers, one per
    matcher. *)
Definition positiveNames (selector : promParser.VectorSelector) : list string :=
  labels.Name <$> filter (λ lm, positiveMatcher lm) (promParser.LabelMatchers selector).

(** The type that the function declares for its argument [i]: the type of
    its last parameter for the arguments of a variadic function beyond its
    parameters. *)
Definition declaredType (f : promParser.Function) (i : nat) : option promParser.ValueType :=
  promParser.ArgTypes f !! (i `min` pred (length (promParser.ArgTypes f))).

(** The selectors of the arguments of a call, from argument [i] on: those of
    the sources of every argument that the function declares as a vector or
    a matrix, the arguments being walked one after the other. *)
Fixpoint argumentSelectors (walk : promParser.Node → utils.M (list utils.Source))
    (f : promParser.Function) (i : nat) (args : list promParser.Node)
  : utils.M (list promParser.VectorSelector) :=
  match args with
  | [] => mret []
  | e :: args' =>
      match declaredType f i with
      | Some promParser.ValueTypeVector | Some promParser.ValueTypeMatrix =>
          srcs ← walk e;
          rest ← argumentSelectors walk f (S i) args';
          mret ((srcs ≫= utils.Selectors) ++ rest)
      | Some _ => argumentSelectors walk f (S i) args'
      | None => utils.panic utils.IndexOutOfRange
      end
  end.

(** C2 as the specification states it: the guaranteed labels of a call to a
    label-preserving function are the union of the label names of the
    positive matchers of the selectors of its arguments. *)
Definition guaranteedIsUnionOfMatcherNames : Prop :=
  ∀ (math_Mod math_Pow : float → float → float) expr f args pos st s st',
    promParser.Name f ∈ labelPreserving →
    utils.walkNode math_Mod math_Pow expr (promParser.Call f args pos) st
    = utils.Done [s] st' →
    utils.Returns s = promParser.ValueTypeVector
    ∧ ∀ name, name ∈ utils.GuaranteedLabels s
              ↔ name ∈ matcherNames utils.guaranteedLabelsMatches (utils.Selectors s).

(** What [sum by(L) (X)] does to a source [x] of [X], the names that leave
    the guaranteed labels apart. *)
Definition groupedBy (L : list string) (x s : utils.Source) : Prop :=
  utils.FixedLabels s = true
  ∧ (utils.FixedLabels x = false → ∀ name, name ∈ L → name ∈ utils.IncludedLabels s)
  ∧ (utils.FixedLabels x = true → utils.IncludedLabels s = utils.IncludedLabels x)
  ∧ utils.GuaranteedLabels s `sublist_of` utils.GuaranteedLabels x
  ∧ ∀ name, name ∈ utils.GuaranteedLabels x → name ∈ L →
            name ∈ utils.GuaranteedLabels s.

(** C3 as the specification states it. *)
Definition sumByIncludesGrouping : Prop :=
  ∀ (math_Mod math_Pow : float → float → float) expr X param L pos st srcs st',
    L ≠ [] →
    utils.walkNode math_Mod math_Pow expr
      (promParser.AggregateExpr promParser.SUM X param L false pos) st
    = utils.Done srcs st' →
    ∀ s, s ∈ srcs →
      utils.FixedLabels s = true
      ∧ (∀ name, name ∈ L → name ∈ utils.IncludedLabels s)
      ∧ (∀ name, name ∈ utils.GuaranteedLabels s → name ∈ L).

(** The predicate of a comparison operator on two numbers. *)
Definition comparisonHolds (op : promParser.ItemType) (lv rv : float) : bool :=
  match op with
  | promParser.EQLC => (lv =? rv)%float
  | promParser.NEQ => negb (lv =? rv)%float
  | promParser.LTE => (lv <=? rv)%float
  | promParser.LSS => (lv <? rv)%float
  | promParser.GTE => (rv <=? lv)%float
  | promParser.GTR => (rv <? lv)%float
  | _ => true
  end.

(** The map of counts after counting the names [l]. *)
Definition addCounts (nameCount : gmap string nat) (l : list string) : gmap string nat :=
  foldl (λ nc x, <[x := S (default 0 (nc !! x))]> nc) nameCount l.


(** The source of a call before its first loop. *)
Definition callSource (f : promParser.Function) (args : list promParser.Node)
    (pos : posrange.PositionRange) : utils.Source :=
  utils.setCall (Some (promParser.Call f args pos))
    (utils.setOperation (promParser.Name f) (utils.setType utils.FuncSource utils.zeroSource)).


(** [s'] is [s], the flag [IsDead] apart. *)
Definition sameButDead (s s' : utils.Source) : Prop := s' = utils.setIsDead (utils.IsDead s') s.


(** [Expr.Type]: the type the parser gives an expression. *)
Fixpoint typeOf (n : promParser.Node) : promParser.ValueType :=
  match n with
  | promParser.AggregateExpr _ _ _ _ _ _ => promParser.ValueTypeVector
  | promParser.BinaryExpr _ l r _ _ =>
      if decide (typeOf l = promParser.ValueTypeScalar
                 ∧ typeOf r = promParser.ValueTypeScalar)
      then promParser.ValueTypeScalar else promParser.ValueTypeVector
  | promParser.Call f _ _ => promParser.ReturnType f
  | promParser.MatrixSelector _ _ _ => promParser.ValueTypeMatrix
  | promParser.SubqueryExpr _ _ _ _ => promParser.ValueTypeMatrix
  | promParser.NumberLiteral _ _ => promParser.ValueTypeScalar
  | promParser.ParenExpr e _ => typeOf e
  | promParser.StringLiteral _ _ => promParser.ValueTypeString
  | promParser.UnaryExpr _ e _ => typeOf e
  | promParser.StepInvariantExpr e => typeOf e
  | promParser.VectorSelectorExpr _ => promParser.ValueTypeVector
  end.

(** The functions [parseCall] has a case for. *)
Definition knownFunctions : list string :=
  labelPreserving ++
  ["absent"; "absent_over_time";
   "days_in_month"; "day_of_month"; "day_of_week"; "day_of_year"; "hour"; "minute";
   "month"; "year";
   "label_replace"; "label_join"; "pi"; "scalar"; "sort"; "sort_desc"; "time"; "vector"].

(** The aggregation operators [walkAggregation] has a case for. *)
Definition handledAggregators : list promParser.ItemType :=
  [promParser.SUM; promParser.MIN; promParser.MAX; promParser.AVG; promParser.GROUP;
   promParser.STDDEV; promParser.STDVAR; promParser.COUNT; promParser.COUNT_VALUES;
   promParser.QUANTILE; promParser.TOPK; promParser.BOTTOMK].

(** What the analyzer relies on, of what the parser checks: the operands of a
    binary expression are scalars or instant vectors, and it has a vector
    matching exactly when both are vectors; the functions are those of the
    table of the parser that [parseCall] knows, of which [pi], [scalar] and
    [time] return a scalar; the aggregation operators are the ones that are
    parsed without the experimental flag. *)
Fixpoint parserChecked (n : promParser.Node) : Prop :=
  match n with
  | promParser.AggregateExpr op e _ _ _ _ => op ∈ handledAggregators ∧ parserChecked e
  | promParser.BinaryExpr _ l r vm _ =>
      parserChecked l ∧ parserChecked r
      ∧ typeOf l ∈ [promParser.ValueTypeScalar; promParser.ValueTypeVector]
      ∧ typeOf r ∈ [promParser.ValueTypeScalar; promParser.ValueTypeVector]
      ∧ (vm = None ↔ ¬ (typeOf l = promParser.ValueTypeVector
                        ∧ typeOf r = promParser.ValueTypeVector))
  | promParser.Call f _ _ =>
      promParser.Name f ∈ knownFunctions
      ∧ (promParser.ReturnType f = promParser.ValueTypeScalar
         ↔ promParser.Name f ∈ ["pi"; "scalar"; "time"])
  | promParser.MatrixSelector e _ _ => parserChecked e
  | promParser.SubqueryExpr e _ _ _ => parserChecked e
  | promParser.ParenExpr e _ => parserChecked e
  | promParser.UnaryExpr _ e _ => parserChecked e
  | promParser.StepInvariantExpr _ => False
  | promParser.NumberLiteral _ _ | promParser.StringLiteral _ _
  | promParser.VectorSelectorExpr _ => True
  end.

(** A source that a binary expression without vector matching can emit: it
    always returns, or it returns a vector or a matrix. *)
Definition emittable (s : utils.Source) : Prop :=
  utils.AlwaysReturns s = true ∨ utils.isVectorOrMatrix (utils.Returns s) = true.

(** The source of a scalar: it always returns and has no labels. *)
Definition scalarSource (s : utils.Source) : Prop :=
  utils.AlwaysReturns s = true
  ∧ utils.Returns s = promParser.ValueTypeScalar
  ∧ utils.IncludedLabels s = [] ∧ utils.ExcludedLabels s = []
  ∧ utils.GuaranteedLabels s = [].

(** [s'] always returns when [s] does, and returns the type [s] returns. *)
Definition sameFlags (s s' : utils.Source) : Prop :=
  utils.AlwaysReturns s' = utils.AlwaysReturns s ∧ utils.Returns s' = utils.Returns s.

(** What the walk of a checked expression returns: at least one source, each
    of which a binary expression can emit, and for a scalar expression the
    one source of a scalar. *)
Definition walkResult (node : promParser.Node) (srcs : list utils.Source) : Prop :=
  srcs ≠ []
  ∧ Forall emittable srcs
  ∧ (typeOf node = promParser.ValueTypeScalar → ∃ s, srcs = [s] ∧ scalarSource s).

(** ** Vocabulary of the further properties *)

(** The position range lies inside the text: what the slice expression of
    [getQueryFragment] needs. *)
Definition inText (expr : string) (pos : posrange.PositionRange) : Prop :=
  (0 ≤ posrange.Start pos ∧ posrange.Start pos ≤ posrange.End_ pos
   ∧ posrange.End_ pos ≤ Z.of_nat (String.length expr))%Z.

(** The map a reference stands for; a nil map reads as the empty map. *)
Definition reasonsOf (st : utils.Store) (m : option utils.ref)
  : gmap string utils.ExcludedLabel :=
  match m with
  | Some r => default ∅ (utils.reasons st !! r)
  | None => ∅
  end.

(** The aggregation operators that [walkAggregation] hands to
    [parseAggregation] and then only tags. *)
Definition plainAggregators : list promParser.ItemType :=
  [promParser.SUM; promParser.MIN; promParser.MAX; promParser.AVG; promParser.GROUP;
   promParser.STDDEV; promParser.STDVAR; promParser.COUNT; promParser.QUANTILE].

(** The tag [walkAggregation] gives the sources of an aggregation. *)
Definition aggregatorName (op : promParser.ItemType) : string :=
  match op with
  | promParser.SUM => "sum"
  | promParser.MIN => "min"
  | promParser.MAX => "max"
  | promParser.AVG => "avg"
  | promParser.GROUP => "group"
  | promParser.STDDEV => "stddev"
  | promParser.STDVAR => "stdvar"
  | promParser.COUNT => "count"
  | promParser.COUNT_VALUES => "count_values"
  | promParser.QUANTILE => "quantile"
  | promParser.TOPK => "topk"
  | promParser.BOTTOMK => "bottomk"
  | _ => EmptyString
  end.

(** [s] comes from [x]: it has its selectors, its returned numbers and its
    flags [IsDead] and [AlwaysReturns]. *)
Definition sameOrigin (x s : utils.Source) : Prop :=
  utils.Selectors s = utils.Selectors x
  ∧ utils.ReturnedNumbers s = utils.ReturnedNumbers x
  ∧ utils.IsDead s = utils.IsDead x
  ∧ utils.AlwaysReturns s = utils.AlwaysReturns x.

(** What every aggregation does to a source [x] of its operand. *)
Definition aggregated (op : promParser.ItemType) (x s : utils.Source) : Prop :=
  utils.Type_ s = utils.AggregateSource
  ∧ utils.Operation s = aggregatorName op
  ∧ sameOrigin x s
  ∧ (op ∉ [promParser.TOPK; promParser.BOTTOMK] →
     utils.Returns s = promParser.ValueTypeVector ∧ utils.Call s = None).

(** What [without(L)] does to the labels of a source [x]. *)
Definition excludedBy (L : list string) (x s : utils.Source) : Prop :=
  utils.ExcludedLabels s = utils.appendToSlice (utils.ExcludedLabels x) L
  ∧ utils.IncludedLabels s = utils.removeFromSlice (utils.IncludedLabels x) L
  ∧ utils.GuaranteedLabels s = utils.removeFromSlice (utils.GuaranteedLabels x) L
  ∧ utils.FixedLabels s = utils.FixedLabels x
  ∧ (∀ name, name ∈ L →
        name ∈ utils.ExcludedLabels s ∧ (name ∉ utils.IncludedLabels s)
        ∧ (name ∉ utils.GuaranteedLabels s)).

(** What an aggregation with no grouping does to the labels of a source [x]. *)
Definition allLabelsRemoved (x s : utils.Source) : Prop :=
  utils.IncludedLabels s = [] ∧ utils.GuaranteedLabels s = []
  ∧ utils.ExcludedLabels s = utils.ExcludedLabels x
  ∧ utils.FixedLabels s = true.

(** The functions of date and time that take an optional vector. *)
Definition calendarFunctions : list string :=
  ["days_in_month"; "day_of_month"; "day_of_week"; "day_of_year"; "hour"; "minute";
   "month"; "year"].

(** The source has no labels and cannot get any. *)
Definition noLabels (s : utils.Source) : Prop :=
  utils.IncludedLabels s = [] ∧ utils.ExcludedLabels s = []
  ∧ utils.GuaranteedLabels s = [] ∧ utils.FixedLabels s = true.

(** The reason recorded under [key] in the map of reasons of [s]. *)
Definition recordedReason (st : utils.Store) (s : utils.Source) (key : string)
  : option utils.ExcludedLabel :=
  reasonsOf st (utils.ExcludeReason s) !! key.

(** [s] has the kind, the type of result and the call of [x]. *)
Definition sameKind (x s : utils.Source) : Prop :=
  utils.Type_ s = utils.Type_ x ∧ utils.Returns s = utils.Returns x
  ∧ utils.Call s = utils.Call x.

(** The operation of a source that went through a vector matching: its
    own, or the cardinality of the matching when it had none. *)
Definition operationOr (vm : promParser.VectorMatching) (x : utils.Source) : string :=
  if decide (utils.Operation x = EmptyString)
  then promParser.Card_String (promParser.Card vm)
  else utils.Operation x.

(** What a one-to-one matching does to a source [x] of its left operand. *)
Definition matchedOneToOne (vm : promParser.VectorMatching) (x s : utils.Source) : Prop :=
  sameOrigin x s ∧ sameKind x s ∧ utils.Operation s = operationOr vm x
  ∧ if promParser.On vm then
      utils.FixedLabels s = true
      ∧ utils.IncludedLabels s
        = utils.appendToSlice (utils.IncludedLabels x) (promParser.MatchingLabels vm)
      ∧ utils.ExcludedLabels s
        = utils.removeFromSlice (utils.ExcludedLabels x) (promParser.MatchingLabels vm)
      ∧ utils.GuaranteedLabels s = utils.GuaranteedLabels x
      ∧ (∀ name, name ∈ promParser.MatchingLabels vm →
           name ∈ utils.IncludedLabels s ∧ (name ∉ utils.ExcludedLabels s))
    else
      utils.FixedLabels s = utils.FixedLabels x
      ∧ utils.IncludedLabels s
        = utils.removeFromSlice (utils.IncludedLabels x) (promParser.MatchingLabels vm)
      ∧ utils.GuaranteedLabels s
        = utils.removeFromSlice (utils.GuaranteedLabels x) (promParser.MatchingLabels vm)
      ∧ utils.ExcludedLabels s
        = utils.appendToSlice (utils.ExcludedLabels x) (promParser.MatchingLabels vm)
      ∧ (∀ name, name ∈ promParser.MatchingLabels vm →
           name ∈ utils.ExcludedLabels s ∧ (name ∉ utils.IncludedLabels s)
           ∧ (name ∉ utils.GuaranteedLabels s)).

(** The labels [on(...)] adds to the included labels of the sources of a
    matching that is not one-to-one. *)
Definition onLabels (vm : promParser.VectorMatching) : list string :=
  if promParser.On vm then promParser.MatchingLabels vm else [].

(** What [group_left(...)] and [group_right(...)] do to a source [x] of the
    operand on the side of "many". *)
Definition grouped (vm : promParser.VectorMatching) (x s : utils.Source) : Prop :=
  sameOrigin x s ∧ sameKind x s ∧ utils.Operation s = operationOr vm x
  ∧ utils.FixedLabels s = utils.FixedLabels x
  ∧ utils.GuaranteedLabels s = utils.GuaranteedLabels x
  ∧ utils.IncludedLabels s
    = utils.appendToSlice
        (utils.appendToSlice (utils.IncludedLabels x) (promParser.Include vm))
        (onLabels vm)
  ∧ utils.ExcludedLabels s
    = utils.removeFromSlice (utils.ExcludedLabels x) (promParser.Include vm)
  ∧ (∀ name, name ∈ promParser.Include vm →
       name ∈ utils.IncludedLabels s ∧ (name ∉ utils.ExcludedLabels s)).

(** What [and], [or] and [unless] do to a source [x] of their left operand. *)
Definition joined (vm : promParser.VectorMatching) (x s : utils.Source) : Prop :=
  sameOrigin x s ∧ sameKind x s ∧ utils.Operation s = operationOr vm x
  ∧ utils.FixedLabels s = utils.FixedLabels x
  ∧ utils.GuaranteedLabels s = utils.GuaranteedLabels x
  ∧ utils.ExcludedLabels s = utils.ExcludedLabels x
  ∧ utils.IncludedLabels s
    = utils.appendToSlice (utils.IncludedLabels x) (onLabels vm).

(** What [or] does to a source [y] of its right operand, [dead] telling
    whether every source of the left operand always returns. *)
Definition alternative (vm : promParser.VectorMatching) (dead : bool)
    (y s : utils.Source) : Prop :=
  sameButDead (utils.setOperation (operationOr vm y) y) s
  ∧ utils.IsDead s = dead || utils.IsDead y.


(** The source of a number literal whose array of numbers is [nums] and
    whose map of reasons is [reason]. *)
Definition numberSource (nums reason : utils.ref) : utils.Source :=
  {| utils.Selectors := []; utils.Call := None; utils.ExcludeReason := Some reason;
     utils.Operation := EmptyString; utils.Returns := promParser.ValueTypeScalar;
     utils.ReturnedNumbers := Some nums; utils.IncludedLabels := [];
     utils.ExcludedLabels := []; utils.GuaranteedLabels := [];
     utils.Type_ := utils.NumberSource; utils.FixedLabels := true;
     utils.IsDead := false; utils.AlwaysReturns := true |}.

(** The nodes of pint's tree of a query, in pre-order. *)
Fixpoint subtrees (q : parser.PromQLNode) : list parser.PromQLNode :=
  match q with
  | parser.mkPromQLNode _ children =>
      q :: (fix all (l : list parser.PromQLNode) :=
              match l with
              | [] => []
              | child :: l' => subtrees child ++ all l'
              end) children
  end.

(** A call to the function named [vector]. *)
Definition isVectorCall (n : promParser.Node) : bool :=
  match n with
  | promParser.Call f _ _ => bool_decide (promParser.Name f = "vector")
  | _ => false
  end.

#[global] Instance inText_dec expr pos : Decision (inText expr pos).
Proof. unfold inText. apply _. Defined.

(** The type assertions and the index expressions that the analyzer makes
    on a node succeed: the parameter of [count_values] and the second
    argument of [label_replace] and [label_join] are string literals,
    [vector] has an argument, and a function that is given arguments
    declares the type of some. *)
Definition assertionsHold (d : promParser.Node) : bool :=
  match d with
  | promParser.AggregateExpr op _ param _ _ _ =>
      if decide (op = promParser.COUNT_VALUES) then
        match param with
        | Some (promParser.StringLiteral _ _) => true
        | _ => false
        end
      else true
  | promParser.Call f args _ =>
      match args with
      | [] => true
      | _ :: _ => negb (bool_decide (promParser.ArgTypes f = []))
      end
      && (if utils.isCase (promParser.Name f) ["label_replace"; "label_join"] then
            match args !! 1 with
            | Some (promParser.StringLiteral _ _) => true
            | _ => false
            end
          else true)
      && (if utils.isCase (promParser.Name f) ["vector"] then
            match args with [] => false | _ :: _ => true end
          else true)
  | _ => true
  end.

(** An expression that the analyzer walks without a panic: the position of
    every node lies inside the text of the query, and its type assertions
    hold. *)
Definition walkable (expr : string) (node : promParser.Node) : bool :=
  forallb (λ d, bool_decide (inText expr (promParser.PositionRange d))
                && assertionsHold d)
          (descendants node).

(** The references of a source are allocated in the store. *)
Definition validSource (st : utils.Store) (s : utils.Source) : Prop :=
  (∀ r, utils.ReturnedNumbers s = Some r → r < length (utils.numbers st))
  ∧ (∀ r, utils.ExcludeReason s = Some r → r < length (utils.reasons st)).

(** [st'] has the arrays and the maps of [st], the arrays with the lengths
    they have in [st], and maybe more. *)
Definition grows (st st' : utils.Store) : Prop :=
  (length <$> utils.numbers st) `prefix_of` (length <$> utils.numbers st')
  ∧ length (utils.reasons st) ≤ length (utils.reasons st').

(** [m] returns from [st], with a result and a store that satisfy [Q]. *)
Definition succeeds {A} (m : utils.M A) (st : utils.Store)
    (Q : A → utils.Store → Prop) : Prop :=
  ∃ a st', m st = utils.Done a st' ∧ Q a st'.

(** [st'] is [st] with numbers overwritten in place. *)
Definition sameShape (st st' : utils.Store) : Prop :=
  (length <$> utils.numbers st') = (length <$> utils.numbers st) ∧ utils.reasons st' = utils.reasons st.

(** The change types that have a name. *)
Definition changeTypes : list discovery.ChangeType :=
  [discovery.Unknown; discovery.Noop; discovery.Added; discovery.Modified;
   discovery.Removed; discovery.Moved].

(* ===================================================================== *)
(** * Example expressions, as the Prometheus parser builds them *)
(* ===================================================================== *)
Module Examples.

Definition pos (start end_ : Z) : posrange.PositionRange :=
  {| posrange.Start := start; posrange.End_ := end_ |}.

Definition equal (name value : string) : labels.Matcher :=
  {| labels.Type_ := labels.MatchEqual; labels.Name := name; labels.Value := value |}.

(** [name{matchers}]: the parser appends the matcher of the metric name. *)
Definition selector (name : string) (matchers : list labels.Matcher) (start end_ : Z)
  : promParser.VectorSelector :=
  {| promParser.VS_Name := name;
     promParser.LabelMatchers := matchers ++ [equal labels.MetricName name];
     promParser.VS_PosRange := pos start end_ |}.

(** Entries of the table of functions of the parser. *)
Definition function (name : string) (args : list promParser.ValueType)
    (ret : promParser.ValueType) : promParser.Function :=
  {| promParser.Name := name; promParser.ArgTypes := args;
     promParser.Variadic := 0; promParser.ReturnType := ret |}.

Definition f_abs := function "abs" [promParser.ValueTypeVector] promParser.ValueTypeVector.
Definition f_rate := function "rate" [promParser.ValueTypeMatrix] promParser.ValueTypeVector.
Definition f_vector := function "vector" [promParser.ValueTypeScalar] promParser.ValueTypeVector.
Definition f_absent_over_time :=
  function "absent_over_time" [promParser.ValueTypeMatrix] promParser.ValueTypeVector.
Definition f_label_replace :=
  function "label_replace"
    [promParser.ValueTypeVector; promParser.ValueTypeString; promParser.ValueTypeString;
     promParser.ValueTypeString; promParser.ValueTypeString]
    promParser.ValueTypeVector.

(** The vector matching of a set operator without modifiers. *)
Definition manyToMany : promParser.VectorMatching :=
  {| promParser.Card := promParser.CardManyToMany; promParser.MatchingLabels := [];
     promParser.On := false; promParser.Include := [] |}.

Definition five_minutes : Z := 300000000000.

(** Go's [math.Mod] and [math.Pow] are parameters of the analyzer.  No example
    below has a [%] or a [^], so that the functions given here are never
    called. *)
Definition unusedMod (x y : float) : float := nan.
Definition unusedPow (x y : float) : float := nan.

(** [sum without(job) (foo{job='a',instance='b'})] *)
Definition sum_without_text : string := "sum without(job) (foo{job='a',instance='b'})".
Definition sum_without_selector : promParser.VectorSelector :=
  selector "foo" [equal "job" "a"; equal "instance" "b"] 18 43.
Definition sum_without : promParser.Node :=
  promParser.AggregateExpr promParser.SUM
    (promParser.VectorSelectorExpr sum_without_selector)
    None ["job"] true (pos 0 44).
Definition sum_without_source : utils.Source :=
  {| utils.Selectors := [sum_without_selector]; utils.Call := None;
     utils.ExcludeReason := Some 0; utils.Operation := "sum";
     utils.Returns := promParser.ValueTypeVector; utils.ReturnedNumbers := None;
     utils.IncludedLabels := []; utils.ExcludedLabels := ["job"];
     utils.GuaranteedLabels := ["instance"]; utils.Type_ := utils.AggregateSource;
     utils.FixedLabels := false; utils.IsDead := false; utils.AlwaysReturns := false |}.

(** [abs(foo{a='1'} or bar{b='2'})] *)
Definition abs_or_text : string := "abs(foo{a='1'} or bar{b='2'})".
Definition abs_or_foo := selector "foo" [equal "a" "1"] 4 14.
Definition abs_or_bar := selector "bar" [equal "b" "2"] 18 28.
Definition abs_or_args : list promParser.Node :=
  [promParser.BinaryExpr promParser.LOR
     (promParser.VectorSelectorExpr abs_or_foo)
     (promParser.VectorSelectorExpr abs_or_bar)
     (Some manyToMany) false].
Definition abs_or : promParser.Node := promParser.Call f_abs abs_or_args (pos 0 29).
Definition abs_or_source : utils.Source :=
  {| utils.Selectors := [abs_or_foo; abs_or_bar]; utils.Call := Some abs_or;
     utils.ExcludeReason := None; utils.Operation := "abs";
     utils.Returns := promParser.ValueTypeVector; utils.ReturnedNumbers := None;
     utils.IncludedLabels := []; utils.ExcludedLabels := [];
     utils.GuaranteedLabels := []; utils.Type_ := utils.FuncSource;
     utils.FixedLabels := false; utils.IsDead := false; utils.AlwaysReturns := false |}.

(** [rate(foo{job='a'}[5m])] *)
Definition rate_text : string := "rate(foo{job='a'}[5m])".
Definition rate_selector := selector "foo" [equal "job" "a"] 5 17.
Definition rate_args : list promParser.Node :=
  [promParser.MatrixSelector (promParser.VectorSelectorExpr rate_selector) five_minutes 21].
Definition rate_call : promParser.Node := promParser.Call f_rate rate_args (pos 0 22).
Definition rate_source : utils.Source :=
  {| utils.Selectors := [rate_selector]; utils.Call := Some rate_call;
     utils.ExcludeReason := None; utils.Operation := "rate";
     utils.Returns := promParser.ValueTypeVector; utils.ReturnedNumbers := None;
     utils.IncludedLabels := []; utils.ExcludedLabels := [];
     utils.GuaranteedLabels := ["job"]; utils.Type_ := utils.FuncSource;
     utils.FixedLabels := false; utils.IsDead := false; utils.AlwaysReturns := false |}.

(** [sum by(a) (vector(1))] *)
Definition sum_by_vector_text : string := "sum by(a) (vector(1))".
Definition vector_one : promParser.Node :=
  promParser.Call f_vector [promParser.NumberLiteral 1 (pos 18 19)] (pos 11 20).
Definition sum_by_vector : promParser.Node :=
  promParser.AggregateExpr promParser.SUM vector_one None ["a"] false (pos 0 21).
Definition sum_by_vector_source : utils.Source :=
  {| utils.Selectors := []; utils.Call := None;
     utils.ExcludeReason := Some 0; utils.Operation := "sum";
     utils.Returns := promParser.ValueTypeVector; utils.ReturnedNumbers := Some 0;
     utils.IncludedLabels := []; utils.ExcludedLabels := [];
     utils.GuaranteedLabels := []; utils.Type_ := utils.AggregateSource;
     utils.FixedLabels := true; utils.IsDead := false; utils.AlwaysReturns := true |}.

(** [sum by(job) (foo{job='a',instance='b'})] *)
Definition sum_by_text : string := "sum by(job) (foo{job='a',instance='b'})".
Definition sum_by_selector := selector "foo" [equal "job" "a"; equal "instance" "b"] 13 38.
Definition sum_by : promParser.Node :=
  promParser.AggregateExpr promParser.SUM
    (promParser.VectorSelectorExpr sum_by_selector) None ["job"] false (pos 0 39).

(** [sum by(c) (foo{a='1',b='2',d='3'})] *)
Definition sum_by_skip_text : string := "sum by(c) (foo{a='1',b='2',d='3'})".
Definition sum_by_skip : promParser.Node :=
  promParser.AggregateExpr promParser.SUM
    (promParser.VectorSelectorExpr
       (selector "foo" [equal "a" "1"; equal "b" "2"; equal "d" "3"] 11 33))
    None ["c"] false (pos 0 34).

(** [topk(3, foo{job='a'})] *)
Definition topk_text : string := "topk(3, foo{job='a'})".
Definition topk : promParser.Node :=
  promParser.AggregateExpr promParser.TOPK
    (promParser.VectorSelectorExpr (selector "foo" [equal "job" "a"] 8 20))
    (Some (promParser.NumberLiteral 3 (pos 5 6))) [] false (pos 0 21).

(** [1 + (vector(1) or vector(2))] *)
Definition shared_text : string := "1 + (vector(1) or vector(2))".
Definition shared : promParser.Node :=
  promParser.BinaryExpr promParser.ADD
    (promParser.NumberLiteral 1 (pos 0 1))
    (promParser.ParenExpr
       (promParser.BinaryExpr promParser.LOR
          (promParser.Call f_vector [promParser.NumberLiteral 1 (pos 12 13)] (pos 5 14))
          (promParser.Call f_vector [promParser.NumberLiteral 2 (pos 25 26)] (pos 18 27))
          (Some manyToMany) false)
       (pos 4 28))
    None false.

(** [vector(NaN) <= 1] *)
Definition nan_lte_text : string := "vector(NaN) <= 1".
Definition nan_lte : promParser.Node :=
  promParser.BinaryExpr promParser.LTE
    (promParser.Call f_vector [promParser.NumberLiteral nan (pos 7 10)] (pos 0 11))
    (promParser.NumberLiteral 1 (pos 15 16))
    None false.

(** [label_replace(up, ('dst'), 'x', 'src', '(.+)')] *)
Definition label_replace_text : string := "label_replace(up, ('dst'), 'x', 'src', '(.+)')".
Definition label_replace : promParser.Node :=
  promParser.Call f_label_replace
    [promParser.VectorSelectorExpr (selector "up" [] 14 16);
     promParser.ParenExpr (promParser.StringLiteral "dst" (pos 19 24)) (pos 18 25);
     promParser.StringLiteral "x" (pos 27 30);
     promParser.StringLiteral "src" (pos 32 37);
     promParser.StringLiteral "(.+)" (pos 39 45)]
    (pos 0 46).

(** The selector of [rate(foo{job='a',job=~'a|b'}[5m])], and the selectors of
    [abs(foo{a='1',a=~'.+'} or bar)]: selectors that use a label in two
    positive matchers. *)
Definition regexp (name value : string) : labels.Matcher :=
  {| labels.Type_ := labels.MatchRegexp; labels.Name := name; labels.Value := value |}.
Definition twice_job := selector "foo" [equal "job" "a"; regexp "job" "a|b"] 5 28.
Definition twice_a := selector "foo" [equal "a" "1"; regexp "a" ".+"] 4 22.
Definition twice_bar := selector "bar" [] 26 29.

(** Rules.  [tree] builds pint's tree for a node without children, [tree1]
    and [tree2] for a node with one and two children. *)
Definition leaf (n : promParser.Node) : parser.PromQLNode := parser.mkPromQLNode n [].

Definition alert (text : string) (q : parser.PromQLNode) : parser.Rule :=
  parser.AlertingRule
    {| parser.Alert := "example";
       parser.Expr := {| parser.Value := text;
                         parser.Lines := {| parser.First := 3; parser.Last := 3 |};
                         parser.Parsed := parser.Query q |} |}.

(** [absent_over_time(foo[5m]) or bar] *)
Definition absent_or_text : string := "absent_over_time(foo[5m]) or bar".
Definition absent_or_foo : promParser.Node :=
  promParser.VectorSelectorExpr (selector "foo" [] 17 20).
Definition absent_or_matrix : promParser.Node :=
  promParser.MatrixSelector absent_or_foo five_minutes 24.
Definition absent_or_lhs : promParser.Node :=
  promParser.Call f_absent_over_time [absent_or_matrix] (pos 0 25).
Definition absent_or_rhs : promParser.Node :=
  promParser.VectorSelectorExpr (selector "bar" [] 29 32).
Definition absent_or : promParser.Node :=
  promParser.BinaryExpr promParser.LOR absent_or_lhs absent_or_rhs (Some manyToMany) false.
Definition absent_or_query : parser.PromQLNode :=
  parser.mkPromQLNode absent_or
    [parser.mkPromQLNode absent_or_lhs
       [parser.mkPromQLNode absent_or_matrix [leaf absent_or_foo]];
     leaf absent_or_rhs].
Definition absent_or_rule : parser.Rule := alert absent_or_text absent_or_query.

(** [foo > 1 and bar > bool 0] *)
Definition and_bool_text : string := "foo > 1 and bar > bool 0".
Definition and_bool_foo : promParser.Node :=
  promParser.VectorSelectorExpr (selector "foo" [] 0 3).
Definition and_bool_one : promParser.Node := promParser.NumberLiteral 1 (pos 6 7).
Definition and_bool_bar : promParser.Node :=
  promParser.VectorSelectorExpr (selector "bar" [] 12 15).
Definition and_bool_zero : promParser.Node := promParser.NumberLiteral 0 (pos 23 24).
Definition and_bool_lhs : promParser.Node :=
  promParser.BinaryExpr promParser.GTR and_bool_foo and_bool_one None false.
Definition and_bool_rhs : promParser.Node :=
  promParser.BinaryExpr promParser.GTR and_bool_bar and_bool_zero None true.
Definition and_bool : promParser.Node :=
  promParser.BinaryExpr promParser.LAND and_bool_lhs and_bool_rhs (Some manyToMany) false.
Definition and_bool_query : parser.PromQLNode :=
  parser.mkPromQLNode and_bool
    [parser.mkPromQLNode and_bool_lhs [leaf and_bool_foo; leaf and_bool_one];
     parser.mkPromQLNode and_bool_rhs [leaf and_bool_bar; leaf and_bool_zero]].
Definition and_bool_rule : parser.Rule := alert and_bool_text and_bool_query.

(** [(foo unless bar) > bool 0] *)
Definition unless_bool_text : string := "(foo unless bar) > bool 0".
Definition unless_bool_foo : promParser.Node :=
  promParser.VectorSelectorExpr (selector "foo" [] 1 4).
Definition unless_bool_bar : promParser.Node :=
  promParser.VectorSelectorExpr (selector "bar" [] 12 15).
Definition unless_bool_unless : promParser.Node :=
  promParser.BinaryExpr promParser.LUNLESS unless_bool_foo unless_bool_bar
    (Some manyToMany) false.
Definition unless_bool_paren : promParser.Node :=
  promParser.ParenExpr unless_bool_unless (pos 0 16).
Definition unless_bool_zero : promParser.Node := promParser.NumberLiteral 0 (pos 24 25).
Definition unless_bool : promParser.Node :=
  promParser.BinaryExpr promParser.GTR unless_bool_paren unless_bool_zero None true.
Definition unless_bool_query : parser.PromQLNode :=
  parser.mkPromQLNode unless_bool
    [parser.mkPromQLNode unless_bool_paren
       [parser.mkPromQLNode unless_bool_unless
          [leaf unless_bool_foo; leaf unless_bool_bar]];
     leaf unless_bool_zero].
Definition unless_bool_rule : parser.Rule := alert unless_bool_text unless_bool_query.

(** [up == bool 0] *)
Definition eq_bool_text : string := "up == bool 0".
Definition eq_bool_up : promParser.Node :=
  promParser.VectorSelectorExpr (selector "up" [] 0 2).
Definition eq_bool_zero : promParser.Node := promParser.NumberLiteral 0 (pos 11 12).
Definition eq_bool : promParser.Node :=
  promParser.BinaryExpr promParser.EQLC eq_bool_up eq_bool_zero None true.
Definition eq_bool_query : parser.PromQLNode :=
  parser.mkPromQLNode eq_bool [leaf eq_bool_up; leaf eq_bool_zero].
Definition eq_bool_alerting : parser.AlertingRuleT :=
  {| parser.Alert := "example";
     parser.Expr := {| parser.Value := eq_bool_text;
                       parser.Lines := {| parser.First := 3; parser.Last := 3 |};
                       parser.Parsed := parser.Query eq_bool_query |} |}.

(** A recording rule, and an alerting rule whose expression does not parse. *)
Definition recording_rule : parser.Rule :=
  parser.RecordingRule
    {| parser.Record_ := "job:up:sum";
       parser.RecordingExpr :=
         {| parser.Value := "sum by(job) (up)";
            parser.Lines := {| parser.First := 2; parser.Last := 2 |};
            parser.Parsed := parser.Query (leaf eq_bool_up) |} |}.
Definition broken_rule : parser.Rule :=
  parser.AlertingRule
    {| parser.Alert := "example";
       parser.Expr := {| parser.Value := "up ==";
                         parser.Lines := {| parser.First := 3; parser.Last := 3 |};
                         parser.Parsed := parser.SyntaxError "unexpected end of input" |} |}.

(** ** More expressions *)

Definition f_absent := function "absent" [promParser.ValueTypeVector] promParser.ValueTypeVector.
Definition f_hour : promParser.Function :=
  {| promParser.Name := "hour"; promParser.ArgTypes := [promParser.ValueTypeVector];
     promParser.Variadic := 1; promParser.ReturnType := promParser.ValueTypeVector |}.

(** [sum(foo{job='a'})] *)
Definition sum_all_text : string := "sum(foo{job='a'})".
Definition sum_all_selector := selector "foo" [equal "job" "a"] 4 16.
Definition sum_all : promParser.Node :=
  promParser.AggregateExpr promParser.SUM
    (promParser.VectorSelectorExpr sum_all_selector) None [] false (pos 0 17).

(** [count_values('version', build_info)] *)
Definition count_values_text : string := "count_values('version', build_info)".
Definition count_values_selector := selector "build_info" [] 24 34.
Definition count_values_param : promParser.Node :=
  promParser.StringLiteral "version" (pos 13 22).
Definition count_values : promParser.Node :=
  promParser.AggregateExpr promParser.COUNT_VALUES
    (promParser.VectorSelectorExpr count_values_selector)
    (Some count_values_param) [] false (pos 0 35).

(** [absent(foo{job='a'})] *)
Definition absent_text : string := "absent(foo{job='a'})".
Definition absent_args : list promParser.Node :=
  [promParser.VectorSelectorExpr (selector "foo" [equal "job" "a"] 7 19)].
Definition absent : promParser.Node := promParser.Call f_absent absent_args (pos 0 20).

(** [hour()] *)
Definition hour_text : string := "hour()".
Definition hour : promParser.Node := promParser.Call f_hour [] (pos 0 6).

(** [label_replace(up, 'dst', 'x', 'src', '(.+)')] *)
Definition label_replace_plain_text : string :=
  "label_replace(up, 'dst', 'x', 'src', '(.+)')".
Definition label_replace_plain_args : list promParser.Node :=
  [promParser.VectorSelectorExpr (selector "up" [] 14 16);
   promParser.StringLiteral "dst" (pos 18 23);
   promParser.StringLiteral "x" (pos 25 28);
   promParser.StringLiteral "src" (pos 30 35);
   promParser.StringLiteral "(.+)" (pos 37 43)].
Definition label_replace_plain : promParser.Node :=
  promParser.Call f_label_replace label_replace_plain_args (pos 0 44).

(** [foo / on(job) bar] *)
Definition on_job_text : string := "foo / on(job) bar".
Definition on_job_matching : promParser.VectorMatching :=
  {| promParser.Card := promParser.CardOneToOne; promParser.MatchingLabels := ["job"];
     promParser.On := true; promParser.Include := [] |}.
Definition on_job_foo : promParser.Node :=
  promParser.VectorSelectorExpr (selector "foo" [] 0 3).
Definition on_job_bar : promParser.Node :=
  promParser.VectorSelectorExpr (selector "bar" [] 14 17).
Definition on_job : promParser.Node :=
  promParser.BinaryExpr promParser.DIV on_job_foo on_job_bar (Some on_job_matching) false.

(** [foo * on(job) group_left(team) bar] *)
Definition group_left_text : string := "foo * on(job) group_left(team) bar".
Definition group_left_matching : promParser.VectorMatching :=
  {| promParser.Card := promParser.CardManyToOne; promParser.MatchingLabels := ["job"];
     promParser.On := true; promParser.Include := ["team"] |}.
Definition group_left_foo : promParser.Node :=
  promParser.VectorSelectorExpr (selector "foo" [] 0 3).
Definition group_left_bar : promParser.Node :=
  promParser.VectorSelectorExpr (selector "bar" [] 31 34).
Definition group_left : promParser.Node :=
  promParser.BinaryExpr promParser.MUL group_left_foo group_left_bar
    (Some group_left_matching) false.

(** [1 + 2] *)
Definition one_plus_two_text : string := "1 + 2".

(** The alert [up], which has no condition. *)
Definition no_condition_alerting : parser.AlertingRuleT :=
  {| parser.Alert := "example";
     parser.Expr := {| parser.Value := "up";
                       parser.Lines := {| parser.First := 3; parser.Last := 3 |};
                       parser.Parsed := parser.Query (leaf eq_bool_up) |} |}.

End Examples.

(** Reading a field of a source after assignments to its fields. *)
Ltac simpl_fields :=
  cbn [utils.Selectors utils.Call utils.ExcludeReason utils.Operation
       utils.Returns utils.ReturnedNumbers utils.IncludedLabels
       utils.ExcludedLabels utils.GuaranteedLabels utils.Type_
       utils.FixedLabels utils.IsDead utils.AlwaysReturns
       utils.setSelectors utils.setCall utils.setExcludeReason
       utils.setOperation utils.setReturns utils.setReturnedNumbers
       utils.setIncludedLabels utils.setExcludedLabels
       utils.setGuaranteedLabels utils.setType utils.setFixedLabels
       utils.setIsDead utils.setAlwaysReturns utils.zeroSource] in *.

(* ===================================================================== *)
(** * Properties of the slice helpers *)
(* ===================================================================== *)
Section Slices.
Import utils.

Lemma slices_Index_Some sl v i : slices_Index sl v = Some i → sl !! i = Some v.
Proof.
  revert i. induction sl as [|x sl IH]; intros i; simpl; [done|].
  destruct (decide (x = v)) as [->|Hne].
  - by intros [= <-].
  - destruct (slices_Index sl v) as [j|] eqn:Hj; simpl; [|done].
    intros [= <-]. simpl. by apply IH.
Qed.

Lemma slices_Index_None sl v : slices_Index sl v = None ↔ v ∉ sl.
Proof.
  induction sl as [|x sl IH]; simpl.
  - split; [intros _; apply not_elem_of_nil | done].
  - destruct (decide (x = v)) as [->|Hne].
    + split; [done|]. intros []. apply elem_of_cons. by left.
    + rewrite not_elem_of_cons, <- IH.
      destruct (slices_Index sl v); simpl; split; try done.
      by intros [_ ?].
Qed.

Lemma slices_Index_lt sl v i : slices_Index sl v = Some i → i < length sl.
Proof. intros H. eapply lookup_lt_Some, slices_Index_Some, H. Qed.

Lemma slices_Contains_true {A} `{EqDecision A} (sl : list A) v :
  slices_Contains sl v = true ↔ v ∈ sl.
Proof. unfold slices_Contains. apply bool_decide_eq_true. Qed.

Lemma slices_Contains_false {A} `{EqDecision A} (sl : list A) v :
  slices_Contains sl v = false ↔ v ∉ sl.
Proof. unfold slices_Contains. apply bool_decide_eq_false. Qed.

Lemma NoDup_delete_lookup (sl : list string) i v :
  NoDup sl → sl !! i = Some v → v ∉ delete i sl.
Proof.
  revert i. induction sl as [|x sl IH]; intros i Hnd Hi; [done|].
  apply NoDup_cons in Hnd as [Hx Hnd].
  destruct i as [|i]; simpl in *.
  - by injection Hi as ->.
  - apply not_elem_of_cons. split; [|by eapply IH].
    intros ->. apply Hx. by eapply list_elem_of_lookup_2.
Qed.

Lemma elem_of_delete_ne (sl : list string) i v x :
  sl !! i = Some v → x ∈ sl → x ≠ v → x ∈ delete i sl.
Proof.
  revert i. induction sl as [|y sl IH]; intros i Hi Hx Hne; [done|].
  destruct i as [|i]; simpl in *.
  - injection Hi as ->. apply elem_of_cons in Hx as [->|Hx]; done.
  - apply elem_of_cons in Hx as [->|Hx]; [by left|].
    right. by eapply IH.
Qed.

Lemma removeFromSlice_sublist sl s : removeFromSlice sl s `sublist_of` sl.
Proof.
  revert sl. induction s as [|v s IH]; intros sl; simpl; [done|].
  destruct (slices_Index sl v) as [idx|] eqn:Hidx; [|apply IH].
  destruct (decide (length sl = 1)); [apply sublist_nil_l|].
  etrans; [apply IH | apply sublist_delete].
Qed.

Lemma removeFromSlice_NoDup sl s : NoDup sl → NoDup (removeFromSlice sl s).
Proof. intros. eapply sublist_NoDup; [done | apply removeFromSlice_sublist]. Qed.

Lemma removeFromSlice_elem sl s x : x ∈ removeFromSlice sl s → x ∈ sl.
Proof. intros. eapply elem_of_sublist; [done | apply removeFromSlice_sublist]. Qed.

Lemma removeFromSlice_removed sl s x :
  NoDup sl → x ∈ s → x ∉ removeFromSlice sl s.
Proof.
  revert sl. induction s as [|v s IH]; intros sl Hnd Hx; simpl; [by inversion Hx|].
  destruct (slices_Index sl v) as [idx|] eqn:Hidx.
  - destruct (decide (length sl = 1)); [apply not_elem_of_nil|].
    assert (NoDup (delete idx sl)) by (eapply sublist_NoDup; [done|apply sublist_delete]).
    apply elem_of_cons in Hx as [->|Hx]; [|by apply IH].
    intros Hin. apply removeFromSlice_elem in Hin.
    by apply (NoDup_delete_lookup sl idx v Hnd (slices_Index_Some _ _ _ Hidx)).
  - apply elem_of_cons in Hx as [->|Hx]; [|by apply IH].
    intros Hin. apply removeFromSlice_elem in Hin.
    by apply slices_Index_None in Hidx.
Qed.

Lemma removeFromSlice_kept sl s x : x ∈ sl → x ∉ s → x ∈ removeFromSlice sl s.
Proof.
  revert sl. induction s as [|v s IH]; intros sl Hx Hs; simpl; [done|].
  apply not_elem_of_cons in Hs as [Hne Hs].
  destruct (slices_Index sl v) as [idx|] eqn:Hidx; [|by apply IH].
  apply slices_Index_Some in Hidx.
  destruct (decide (length sl = 1)) as [Hlen|].
  - destruct sl as [|y [|??]]; try done.
    destruct idx; [|done]. simpl in Hidx. injection Hidx as ->.
    apply list_elem_of_singleton in Hx. done.
  - apply IH; [|done]. by eapply elem_of_delete_ne.
Qed.

Lemma appendToSlice_elem dst values x :
  x ∈ appendToSlice dst values ↔ x ∈ dst ∨ x ∈ values.
Proof.
  revert dst. induction values as [|v values IH]; intros dst; simpl.
  - split; [by left | intros [?|H]; [done | by inversion H]].
  - destruct (slices_Contains dst v) eqn:Hc; rewrite IH.
    + apply slices_Contains_true in Hc. rewrite elem_of_cons.
      split; [tauto|]. intros [?|[->|?]]; tauto.
    + rewrite elem_of_app, list_elem_of_singleton, elem_of_cons. tauto.
Qed.

Lemma appendToSlice_NoDup dst values : NoDup dst → NoDup (appendToSlice dst values).
Proof.
  revert dst. induction values as [|v values IH]; intros dst Hnd; simpl; [done|].
  destruct (slices_Contains dst v) eqn:Hc; apply IH; [done|].
  apply slices_Contains_false in Hc.
  apply NoDup_app. split_and!; [done | | apply NoDup_singleton].
  intros y Hy ->%list_elem_of_singleton. done.
Qed.

Lemma appendToSlice_prefix dst values : dst `prefix_of` appendToSlice dst values.
Proof.
  revert dst. induction values as [|v values IH]; intros dst; simpl; [done|].
  destruct (slices_Contains dst v); [apply IH|].
  etrans; [|apply IH]. by apply prefix_app_r.
Qed.

(** The loop that deletes in place: one call of [removeFromSlice] on the
    slice [take k arr], seen on the backing array. *)
Lemma removeInPlace_spec arr k v arr' k' :
  k ≤ length arr →
  removeInPlace arr k v = (arr', k') →
  take k' arr' = removeFromSlice (take k arr) [v]
  ∧ k' ≤ length arr' ∧ length arr' = length arr.
Proof.
  intros Hk. unfold removeInPlace. simpl.
  assert (Hlen : length (take k arr) = k) by (rewrite length_take; lia).
  destruct (slices_Index (take k arr) v) as [idx|] eqn:Hidx.
  - pose proof (slices_Index_lt _ _ _ Hidx) as Hlt. rewrite Hlen in Hlt.
    rewrite Hlen. destruct (decide (k = 1)) as [->|Hne].
    + intros [= <- <-]. split_and!; [by rewrite take_0 | lia | done].
    + intros [= <- <-].
      assert (Hd : length (delete idx (take k arr)) = k - 1).
      { rewrite length_delete; [lia|]. apply lookup_lt_is_Some. lia. }
      split_and!.
      * rewrite take_app_length'; done.
      * rewrite length_app, Hd. simpl. lia.
      * rewrite length_app, Hd. simpl. rewrite length_drop. lia.
  - intros [= <- <-]. done.
Qed.

Lemma rangeInPlace_sublist grouping idxs arr k :
  k ≤ length arr → rangeInPlace grouping idxs arr k `sublist_of` take k arr.
Proof.
  revert arr k. induction idxs as [|i idxs IH]; intros arr k Hk; simpl; [done|].
  destruct (negb _); [|by apply IH].
  destruct (removeInPlace arr k _) as [arr' k'] eqn:Hrm.
  apply removeInPlace_spec in Hrm as (Htake & Hk' & _); [|done].
  etrans; [by apply IH|]. rewrite Htake. apply removeFromSlice_sublist.
Qed.

Lemma rangeInPlace_kept grouping idxs arr k x :
  k ≤ length arr → x ∈ take k arr → x ∈ grouping →
  x ∈ rangeInPlace grouping idxs arr k.
Proof.
  revert arr k. induction idxs as [|i idxs IH]; intros arr k Hk Hx Hg; simpl; [done|].
  destruct (negb _) eqn:Hc; [|by apply IH].
  apply negb_true_iff, slices_Contains_false in Hc.
  destruct (removeInPlace arr k _) as [arr' k'] eqn:Hrm.
  apply removeInPlace_spec in Hrm as (Htake & Hk' & _); [|done].
  apply IH; [done| |done]. rewrite Htake.
  apply removeFromSlice_kept; [done|].
  intros ->%list_elem_of_singleton. done.
Qed.

Lemma keepGrouped_sublist grouping gl : keepGrouped grouping gl `sublist_of` gl.
Proof.
  unfold keepGrouped.
  etrans; [by apply rangeInPlace_sublist|]. by rewrite firstn_all.
Qed.

Lemma keepGrouped_kept grouping gl x :
  x ∈ gl → x ∈ grouping → x ∈ keepGrouped grouping gl.
Proof.
  intros. unfold keepGrouped. apply rangeInPlace_kept; [done| |done].
  by rewrite firstn_all.
Qed.

End Slices.

(* ===================================================================== *)
(** * [labelsFromSelectors] *)
(* ===================================================================== *)
Section LabelsFromSelectors.
Import utils.

Lemma filter_all {A} (P : A → Prop) `{∀ x, Decision (P x)} (l : list A) :
  Forall P l → filter P l = l.
Proof.
  induction 1 as [|x l Hx Hl IH]; [done|].
  rewrite filter_cons_True by done. by rewrite IH.
Qed.

Lemma removeFromSlice_singleton sl v :
  NoDup sl → removeFromSlice sl [v] = filter (λ x, x ≠ v) sl.
Proof.
  intros Hnd. simpl.
  destruct (slices_Index sl v) as [idx|] eqn:Hidx.
  - apply slices_Index_Some in Hidx.
    assert (Hdel : delete idx sl = filter (λ x, x ≠ v) sl).
    { clear -Hnd Hidx. revert idx Hidx.
      induction sl as [|y sl IH]; intros idx Hidx; [done|].
      apply NoDup_cons in Hnd as [Hy Hnd].
      destruct idx as [|idx]; simpl in *.
      - injection Hidx as ->. rewrite filter_cons_False by (intros ?; done).
        symmetry. apply filter_all, Forall_forall.
        intros x Hx ->. done.
      - rewrite filter_cons_True.
        + f_equal. by apply IH.
        + intros ->. apply Hy. by eapply list_elem_of_lookup_2. }
    destruct (decide (length sl = 1)) as [Hlen|]; [|done].
    rewrite <- Hdel. destruct sl as [|y [|??]]; try done.
    by destruct idx.
  - apply slices_Index_None in Hidx.
    symmetry. apply filter_all, Forall_forall.
    intros x Hx ->. done.
Qed.

Lemma pruneNames_filter n entries names :
  NoDup names →
  pruneNames n entries names
  = filter (λ x, Forall (λ e, e.1 = x → e.2 = n) entries) names.
Proof.
  revert names. induction entries as [|[name cnt] entries IH]; intros names Hnd.
  - simpl. symmetry. apply filter_all, Forall_forall. intros. constructor.
  - unfold pruneNames in *. cbn [foldl]. destruct (decide (cnt ≠ n)) as [Hne|Heq].
    + rewrite IH by by apply removeFromSlice_NoDup.
      rewrite removeFromSlice_singleton by done.
      rewrite list_filter_filter. apply list_filter_iff.
      intros x. rewrite Forall_cons. simpl. split.
      * intros [? ?]. split; [intros ->; done | done].
      * intros [H1 H2]. split; [done|]. intros ->. by apply Hne, H1.
    + apply dec_stable in Heq as ->. rewrite IH by done.
      apply list_filter_iff. intros x. rewrite Forall_cons. simpl. tauto.
Qed.

(** The order in which the entries of [nameCount] are visited is immaterial. *)
Lemma pruneNames_Permutation n entries entries' names :
  NoDup names → entries ≡ₚ entries' →
  pruneNames n entries names = pruneNames n entries' names.
Proof.
  intros Hnd Hp. rewrite !pruneNames_filter by done.
  apply list_filter_iff. intros x. by rewrite Hp.
Qed.

Lemma appendToSlice_app dst l1 l2 :
  appendToSlice dst (l1 ++ l2) = appendToSlice (appendToSlice dst l1) l2.
Proof.
  revert dst. induction l1 as [|v l1 IH]; intros dst; simpl; [done|].
  destruct (slices_Contains dst v); apply IH.
Qed.

Lemma addCounts_lookup nameCount l x :
  addCounts nameCount l !! x
  = if decide (occurrences x l = 0) then nameCount !! x
    else Some (default 0 (nameCount !! x) + occurrences x l).
Proof.
  revert nameCount. unfold occurrences.
  induction l as [|y l IH]; intros nameCount; simpl; [done|].
  unfold addCounts in *. simpl. rewrite IH.
  destruct (decide (y = x)) as [->|Hne].
  - rewrite filter_cons_True by done. simpl.
    rewrite lookup_insert_eq. simpl.
    destruct (decide (length (filter (λ y, y = x) l) = 0)) as [->|]; f_equal; lia.
  - rewrite filter_cons_False by done.
    rewrite lookup_insert_ne by done. done.
Qed.

Lemma countMatcher_foldl matches names nameCount ms :
  foldl (countMatcher matches) (names, nameCount) ms
  = (appendToSlice names (labels.Name <$> filter (λ lm, countedMatcher matches lm) ms),
     addCounts nameCount (labels.Name <$> filter (λ lm, countedMatcher matches lm) ms)).
Proof.
  revert names nameCount. induction ms as [|lm ms IH]; intros names nameCount; [done|].
  cbn [foldl].
  destruct (countMatcher matches (names, nameCount) lm) as [names' nc'] eqn:Hstep.
  rewrite IH. unfold countMatcher in Hstep.
  assert (Hcm : countedMatcher matches lm
                = negb (bool_decide (labels.Name lm = labels.MetricName))
                  && slices_Contains matches (labels.Type_ lm)) by done.
  destruct (decide (labels.Name lm = labels.MetricName)) as [Heq|Hne].
  - injection Hstep as <- <-. rewrite filter_cons_False; [done|].
    rewrite Hcm, bool_decide_eq_true_2 by done. simpl. auto.
  - rewrite bool_decide_eq_false_2 in Hcm by done. simpl in Hcm.
    destruct (slices_Contains matches (labels.Type_ lm)) eqn:Hc; simpl in Hstep.
    + injection Hstep as <- <-. rewrite filter_cons_True by (by rewrite Hcm).
      rewrite fmap_cons.
      change (labels.Name lm :: ?l) with ([labels.Name lm] ++ l).
      rewrite appendToSlice_app. f_equal.
      unfold addCounts. cbn [foldl app]. f_equal.
      destruct (nameCount !! labels.Name lm) eqn:Hl; [by rewrite Hl|].
      rewrite lookup_insert_eq. simpl. by rewrite insert_insert_eq.
    + injection Hstep as <- <-. rewrite filter_cons_False; [done|].
      rewrite Hcm. auto.
Qed.

Lemma addCounts_app nameCount l1 l2 :
  addCounts nameCount (l1 ++ l2) = addCounts (addCounts nameCount l1) l2.
Proof. apply foldl_app. Qed.

Lemma countSelectors_foldl matches names nameCount selectors :
  foldl (λ acc selector,
           foldl (countMatcher matches) acc (promParser.LabelMatchers selector))
        (names, nameCount) selectors
  = (appendToSlice names (matcherNames matches selectors),
     addCounts nameCount (matcherNames matches selectors)).
Proof.
  revert names nameCount.
  induction selectors as [|sel selectors IH]; intros names nameCount; [done|].
  simpl foldl. rewrite countMatcher_foldl, IH.
  unfold matcherNames. simpl.
  by rewrite appendToSlice_app, addCounts_app.
Qed.

Lemma occurrences_elem x l : occurrences x l ≠ 0 ↔ x ∈ l.
Proof.
  unfold occurrences. rewrite length_zero_iff_nil.
  split.
  - intros H. destruct (filter (λ y, y = x) l) as [|y l'] eqn:Hf; [done|].
    assert (y ∈ filter (λ y, y = x) l) as Hy by (rewrite Hf; left).
    apply list_elem_of_filter in Hy as [-> ?]. done.
  - intros Hx Hnil.
    assert (x ∈ filter (λ y, y = x) l) as Hy by (by apply list_elem_of_filter).
    rewrite Hnil in Hy. by inversion Hy.
Qed.

(** What [labelsFromSelectors] returns: the names of the counted matchers
    that occur as many times as there are selectors. *)
Lemma labelsFromSelectors_elem matches selectors x :
  x ∈ labelsFromSelectors matches selectors
  ↔ x ∈ matcherNames matches selectors
    ∧ occurrences x (matcherNames matches selectors) = length selectors.
Proof.
  unfold labelsFromSelectors. rewrite countSelectors_foldl.
  assert (Hnd : NoDup (appendToSlice [] (matcherNames matches selectors)))
    by apply appendToSlice_NoDup, NoDup_nil_2.
  rewrite pruneNames_filter by done.
  rewrite list_elem_of_filter, appendToSlice_elem.
  rewrite Forall_forall.
  split.
  - intros [Hall [Hx|Hx]]; [by inversion Hx|]. split; [done|].
    specialize (Hall (x, occurrences x (matcherNames matches selectors))).
    apply Hall; [|done].
    apply elem_of_map_to_list. rewrite addCounts_lookup.
    apply occurrences_elem in Hx. rewrite decide_False by done.
    by rewrite lookup_empty.
  - intros [Hx Hocc]. split; [|by right].
    intros [k c] Hin. simpl. intros ->.
    apply elem_of_map_to_list in Hin. rewrite addCounts_lookup in Hin.
    apply occurrences_elem in Hx. rewrite decide_False in Hin by done.
    rewrite lookup_empty in Hin. simpl in Hin. congruence.
Qed.

Lemma labelsFromSelectors_NoDup matches selectors :
  NoDup (labelsFromSelectors matches selectors).
Proof.
  unfold labelsFromSelectors. rewrite countSelectors_foldl.
  assert (Hnd : NoDup (appendToSlice [] (matcherNames matches selectors)))
    by apply appendToSlice_NoDup, NoDup_nil_2.
  rewrite pruneNames_filter by done. by apply NoDup_filter.
Qed.

End LabelsFromSelectors.

#[global] Arguments utils.removeFromSlice : simpl never.
#[global] Arguments utils.appendToSlice : simpl never.
#[global] Arguments utils.keepGrouped : simpl never.
#[global] Arguments utils.labelsFromSelectors : simpl never.

(* ===================================================================== *)
(** * Reasoning in the monad of the analyzer *)
(* ===================================================================== *)
Section Returning.
Import utils.

(** The two steps of a bind that returns. *)
Lemma bind_Done {A B} (m : M A) (f : A → M B) st b st' :
  (m ≫= f) st = Done b st' → ∃ a st1, m st = Done a st1 ∧ f a st1 = Done b st'.
Proof.
  unfold mbind, M_bind. destruct (m st) as [a st1|p]; [|done].
  intros H. by exists a, st1.
Qed.

Lemma returning_ret {A} (a : A) (Q : A → Prop) : Q a → returning (mret a) Q.
Proof. intros HQ st a' st' [= <- _]. done. Qed.

Lemma returning_panic {A} p (Q : A → Prop) : returning (panic p) Q.
Proof. intros st a st'. done. Qed.

Lemma returning_bind {A B} (m : M A) (f : A → M B) (P : A → Prop) (Q : B → Prop) :
  returning m P → (∀ a, P a → returning (f a) Q) → returning (m ≫= f) Q.
Proof.
  intros Hm Hf st b st'. unfold mbind, M_bind.
  destruct (m st) as [a st1|p] eqn:Hst; [|done].
  intros Hb. eapply Hf; [eapply Hm|]; done.
Qed.

Lemma returning_fmap {A B} (m : M A) (f : A → B) (P : A → Prop) (Q : B → Prop) :
  returning m P → (∀ a, P a → Q (f a)) → returning (f <$> m) Q.
Proof.
  intros Hm Hf st b st'. unfold fmap, M_fmap.
  destruct (m st) as [a st1|p] eqn:Hst; [|done].
  intros [= <- _]. eapply Hf, Hm. done.
Qed.

Lemma returning_mono {A} (m : M A) (P Q : A → Prop) :
  returning m P → (∀ a, P a → Q a) → returning m Q.
Proof. intros Hm HPQ st a st' H. eapply HPQ, Hm, H. Qed.

Lemma returning_True {A} (m : M A) : returning m (λ _, True).
Proof. done. Qed.

Lemma returning_from_option {A B} (f : A → M B) (d : M B) (o : option A) Q :
  (∀ a, o = Some a → returning (f a) Q) → (o = None → returning d Q) →
  returning (from_option f d o) Q.
Proof. destruct o; simpl; auto. Qed.

(** A loop keeps an invariant [I] of its accumulator, when every element it
    ranges over satisfies [P]. *)
Lemma returning_forRange {A S} (xs : list A) (body : S → A → M S)
    (P : A → Prop) (I : S → Prop) (acc : S) :
  Forall P xs → I acc →
  (∀ acc x, P x → I acc → returning (body acc x) I) →
  returning (forRange xs body acc) I.
Proof.
  intros Hxs Hacc Hbody. revert acc Hacc.
  induction Hxs as [|x xs Hx Hxs IH]; intros acc Hacc; simpl.
  - by apply returning_ret.
  - eapply returning_bind; [by apply Hbody|]. intros acc' Hacc'. by apply IH.
Qed.

(** The sources a loop over sources emits are related, one by one, to the
    sources it ranges over. *)
Lemma returning_forEachSource body srcs (P : Source → Prop) (R : Source → Source → Prop) :
  Forall P srcs →
  (∀ s, P s → returning (body s) (R s)) →
  returning (forEachSource body srcs) (Forall2 R srcs).
Proof.
  intros Hsrcs Hbody. unfold forEachSource.
  assert (Hgen : ∀ done out rest, Forall P rest → Forall2 R done out →
            returning (forRange rest (λ src s, s' ← body s; mret (src ++ [s'])) out)
                      (Forall2 R (done ++ rest))).
  { intros done out rest Hrest. revert done out.
    induction Hrest as [|x rest Hx Hrest IH]; intros done out Hdone; simpl.
    - apply returning_ret. by rewrite app_nil_r.
    - eapply returning_bind.
      + eapply returning_bind; [by apply Hbody|].
        intros s' Hs'. apply returning_ret.
        instantiate (1 := Forall2 R (done ++ [x])).
        apply Forall2_app; [done | by constructor].
      + intros out' Hout'. simpl.
        replace (done ++ x :: rest) with ((done ++ [x]) ++ rest)
          by by rewrite <- app_assoc.
        by apply IH. }
  apply (Hgen [] [] srcs); [done | constructor].
Qed.

Lemma returning_forEachSource_Forall body srcs (P Q : Source → Prop) :
  Forall P srcs →
  (∀ s, P s → returning (body s) Q) →
  returning (forEachSource body srcs) (Forall Q).
Proof.
  intros Hsrcs Hbody.
  eapply returning_mono.
  - apply (returning_forEachSource body srcs P (λ _ s', Q s')); [done|].
    intros s Hs. by apply Hbody.
  - intros out Hout. clear -Hout. induction Hout; constructor; done.
Qed.

(** The operations on the store. *)
Lemma returning_getQueryFragment expr pos : returning (getQueryFragment expr pos) (λ _, True).
Proof. done. Qed.

Lemma sameButReason_refl s : sameButReason s s.
Proof. by destruct s. Qed.

Lemma sameButReason_trans s1 s2 s3 :
  sameButReason s1 s2 → sameButReason s2 s3 → sameButReason s1 s3.
Proof. unfold sameButReason. intros H1 H2. rewrite H2 at 1. rewrite H1. done. Qed.

Lemma sameButReason_set m s : sameButReason s (setExcludeReason m s).
Proof. done. Qed.

Lemma sameButReason_sameLabels s s' : sameButReason s s' → sameLabels s s'.
Proof. intros ->. done. Qed.

Lemma returning_setReason expr key reason pos s :
  returning (setReason expr key reason pos s) (sameButReason s).
Proof.
  unfold setReason.
  eapply returning_bind; [apply returning_True|]. intros fragment _.
  eapply returning_bind; [apply returning_True|]. intros m _.
  apply returning_ret, sameButReason_set.
Qed.

Lemma returning_setReasons expr (names : list string) reason pos s :
  returning (forRange names (λ s name, setReason expr name reason pos s) s)
            (sameButReason s).
Proof.
  apply (returning_forRange _ _ (λ _, True)).
  - by apply Forall_forall.
  - apply sameButReason_refl.
  - intros acc x _ Hacc.
    eapply returning_mono; [apply returning_setReason|].
    intros s' Hs'. by eapply sameButReason_trans.
Qed.

End Returning.

(* ===================================================================== *)
(** * The invariant of the label lists *)
(* ===================================================================== *)
Section Invariant.
Import utils.

Lemma wellFormedLabels_nil il gl : NoDup il → NoDup gl → wellFormedLabels il [] gl.
Proof.
  intros. split_and!; [done | apply NoDup_nil_2 | done |].
  intros name _. apply not_elem_of_nil.
Qed.

(** Shrinking the excluded and the guaranteed labels keeps the invariant. *)
Lemma wellFormedLabels_shrink il el gl il' el' gl' :
  wellFormedLabels il el gl → NoDup il' →
  el' `sublist_of` el → gl' `sublist_of` gl →
  wellFormedLabels il' el' gl'.
Proof.
  intros (_ & Hel & Hgl & Hdisj) Hil' Hsel Hsgl. split_and!; [done | | |].
  - exact (sublist_NoDup _ _ Hel Hsel).
  - exact (sublist_NoDup _ _ Hgl Hsgl).
  - intros name Hg He.
    eapply Hdisj; [exact (elem_of_sublist _ _ _ Hg Hsgl) | exact (elem_of_sublist _ _ _ He Hsel)].
Qed.

(** [without(...)] and [ignoring(...)]: the names are excluded and leave the
    guaranteed labels. *)
Lemma wellFormedLabels_exclude il el gl il' names :
  wellFormedLabels il el gl → NoDup il' →
  wellFormedLabels il' (appendToSlice el names) (removeFromSlice gl names).
Proof.
  intros (_ & Hel & Hgl & Hdisj) Hil'. split_and!; [done | | |].
  - by apply appendToSlice_NoDup.
  - by apply removeFromSlice_NoDup.
  - intros name Hg He. apply appendToSlice_elem in He as [He|He].
    + exact (Hdisj name (removeFromSlice_elem _ _ _ Hg) He).
    + exact (removeFromSlice_removed _ _ _ Hgl He Hg).
Qed.

(** [count_values]: the label of the parameter is guaranteed and leaves the
    excluded labels. *)
Lemma wellFormedLabels_guarantee il el gl il' names :
  wellFormedLabels il el gl → NoDup il' →
  wellFormedLabels il' (removeFromSlice el names) (appendToSlice gl names).
Proof.
  intros (_ & Hel & Hgl & Hdisj) Hil'. split_and!; [done | | |].
  - by apply removeFromSlice_NoDup.
  - by apply appendToSlice_NoDup.
  - intros name Hg He. apply appendToSlice_elem in Hg as [Hg|Hg].
    + exact (Hdisj name Hg (removeFromSlice_elem _ _ _ He)).
    + exact (removeFromSlice_removed _ _ _ Hel Hg He).
Qed.

Lemma labelsWellFormed_same s s' :
  sameLabels s s' → labelsWellFormed s → labelsWellFormed s'.
Proof. unfold labelsWellFormed. by intros (-> & -> & ->). Qed.

Ltac same_labels H :=
  eapply labelsWellFormed_same; [exact H|]; unfold labelsWellFormed; simpl_fields.

Lemma labelsWellFormed_included s : labelsWellFormed s → NoDup (IncludedLabels s).
Proof. by intros (? & _). Qed.

(** The loop of [parseAggregation] that removes the names of [by(...)] from
    the excluded labels. *)
Lemma removeExcluded_spec (names : list string) s :
  ∃ el, el `sublist_of` ExcludedLabels s
        ∧ foldl (λ s name, setExcludedLabels (removeFromSlice (ExcludedLabels s) [name]) s)
                s names
          = setExcludedLabels el s.
Proof.
  revert s. induction names as [|name names IH]; intros s.
  - exists (ExcludedLabels s). split; [done | by destruct s].
  - cbn [foldl].
    destruct (IH (setExcludedLabels (removeFromSlice (ExcludedLabels s) [name]) s))
      as (el & Hel & ->).
    exists el. split; [|done].
    etrans; [exact Hel|]. apply removeFromSlice_sublist.
Qed.

Lemma aggregateSource_wellFormed expr grouping without pos s :
  labelsWellFormed s →
  returning (aggregateSource expr grouping without pos s) labelsWellFormed.
Proof.
  intros Hs. unfold aggregateSource.
  eapply returning_bind with (P := labelsWellFormed); [|intros s' Hs'; by apply returning_ret].
  destruct without.
  - eapply returning_mono; [apply returning_setReasons|].
    intros s' Hs'%sameButReason_sameLabels.
    same_labels Hs'.
    eapply wellFormedLabels_exclude; [exact Hs|].
    by apply removeFromSlice_NoDup, labelsWellFormed_included.
  - eapply returning_bind with (P := labelsWellFormed);
      [|intros s' Hs'; by apply returning_ret].
    destruct (decide (length grouping = 0)).
    + eapply returning_mono; [apply returning_setReason|].
      intros s' Hs'%sameButReason_sameLabels.
      same_labels Hs'.
      destruct Hs as (_ & Hel & _). split_and!; try apply NoDup_nil_2; try done.
      intros name Hn. by inversion Hn.
    + eapply returning_bind with (P := labelsWellFormed).
      * destruct (FixedLabels s); simpl; [by apply returning_ret|].
        eapply returning_mono; [apply returning_setReason|].
        intros s' Hs'%sameButReason_sameLabels.
        eapply labelsWellFormed_same; [exact Hs'|].
        destruct (removeExcluded_spec grouping
                    (setIncludedLabels (appendToSlice (IncludedLabels s) grouping) s))
          as (el & Hel & ->).
        unfold labelsWellFormed. simpl_fields.
        eapply wellFormedLabels_shrink; [exact Hs | | exact Hel | done].
        by apply appendToSlice_NoDup, labelsWellFormed_included.
      * intros s' Hs'. apply returning_ret.
        unfold labelsWellFormed. simpl_fields.
        eapply wellFormedLabels_shrink; [exact Hs' | | done | apply keepGrouped_sublist].
        by apply labelsWellFormed_included.
Qed.

Lemma stringLiteralVal_bind {B} n (k : string → M B) (Q : B → Prop) :
  (∀ val pos, n = Some (promParser.StringLiteral val pos) → returning (k val) Q) →
  returning (stringLiteralVal n ≫= k) Q.
Proof.
  intros HQ.
  eapply returning_bind with
    (P := λ val, ∃ pos, n = Some (promParser.StringLiteral val pos)).
  - destruct n as [[]|]; simpl; try apply returning_panic.
    apply returning_ret. by eexists.
  - intros val [pos Hn]. by eapply HQ.
Qed.

Lemma walkAggregation_wellFormed walkNode expr op e param grouping without pos :
  returning (walkNode e) (Forall labelsWellFormed) →
  returning (walkAggregation walkNode expr op e param grouping without pos)
            (Forall labelsWellFormed).
Proof.
  intros IH.
  assert (Hparsed : returning (parseAggregation walkNode expr e grouping without pos)
                              (Forall labelsWellFormed)).
  { unfold parseAggregation. eapply returning_bind; [exact IH|].
    intros inner Hinner.
    eapply returning_forEachSource_Forall; [exact Hinner|].
    intros s Hs. by apply aggregateSource_wellFormed. }
  assert (Htag : ∀ name, returning (tagOperation name <$> parseAggregation walkNode expr e
                                      grouping without pos) (Forall labelsWellFormed)).
  { intros name. eapply returning_fmap; [exact Hparsed|].
    intros srcs Hsrcs. unfold tagOperation. by apply Forall_fmap. }
  assert (Htop : ∀ name, returning
            (srcs ← walkNode e;
             mret ((λ s, setOperation name (setType AggregateSource s)) <$> srcs))
            (Forall labelsWellFormed)).
  { intros name. eapply returning_bind; [exact IH|].
    intros srcs Hsrcs. apply returning_ret. by apply Forall_fmap. }
  unfold walkAggregation.
  destruct op; try apply Htag; try apply Htop; try (by apply returning_ret).
  eapply returning_bind; [exact Hparsed|]. intros srcs Hsrcs.
  eapply returning_forEachSource_Forall; [exact Hsrcs|].
  intros s Hs.
  apply stringLiteralVal_bind; intros v1 p1 E1.
  apply stringLiteralVal_bind; intros v2 p2 E2.
  apply stringLiteralVal_bind; intros v3 p3 E3.
  apply stringLiteralVal_bind; intros v4 p4 E4.
  eapply returning_bind; [apply returning_True|]. intros _ _.
  apply returning_ret.
  rewrite E1 in E2, E3. injection E2 as <- _. injection E3 as <- _.
  unfold labelsWellFormed. simpl_fields.
  eapply wellFormedLabels_guarantee; [exact Hs|].
  by apply appendToSlice_NoDup, labelsWellFormed_included.
Qed.

End Invariant.

Ltac same_labels H :=
  eapply labelsWellFormed_same; [exact H|]; unfold labelsWellFormed; simpl_fields.

(* ===================================================================== *)
(** * Function calls *)
(* ===================================================================== *)
Section Calls.
Import utils.

Lemma appendSelectors_spec s srcs :
  ∃ sels, appendSelectors s srcs = setSelectors sels s.
Proof.
  unfold appendSelectors. revert s.
  induction srcs as [|es srcs IH]; intros s.
  - exists (Selectors s). by destruct s.
  - cbn [foldl]. destruct (IH (setSelectors (Selectors s ++ Selectors es) s)) as [sels ->].
    by exists sels.
Qed.

(** The first loop of [parseCall] only touches the selectors of the source. *)
Lemma gatherSelectors_spec walkNode f i args s :
  returning (gatherSelectors walkNode f i args s) (λ s', ∃ sels, s' = setSelectors sels s).
Proof.
  revert i s. induction args as [|e args IH]; intros i s; simpl.
  - apply returning_ret. exists (Selectors s). by destruct s.
  - eapply returning_bind; [apply returning_True|]. intros vt _.
    eapply returning_bind with (P := λ s', ∃ sels, s' = setSelectors sels s).
    + assert (Hs : ∃ sels, s = setSelectors sels s)
        by (exists (Selectors s); by destruct s).
      destruct vt; try by apply returning_ret.
      all: eapply returning_bind; [apply returning_True|]; intros srcs _;
        apply returning_ret, appendSelectors_spec.
    + intros s' [sels ->].
      eapply returning_mono; [apply IH|].
      intros s'' [sels' ->]. by exists sels'.
Qed.

Lemma absentLabels_spec (names : list string) s :
  foldl (λ s name,
           let s := setIncludedLabels (appendToSlice (IncludedLabels s) [name]) s in
           setGuaranteedLabels (appendToSlice (GuaranteedLabels s) [name]) s)
        s names
  = setGuaranteedLabels (appendToSlice (GuaranteedLabels s) names)
      (setIncludedLabels (appendToSlice (IncludedLabels s) names) s).
Proof.
  revert s. induction names as [|name names IH]; intros s.
  - by destruct s.
  - cbn [foldl]. rewrite IH. simpl_fields.
    change (name :: names) with ([name] ++ names).
    by rewrite !appendToSlice_app.
Qed.

Ltac fresh_labels :=
  unfold labelsWellFormed, noChangeToLabels; simpl_fields;
  apply wellFormedLabels_nil;
  repeat first [apply NoDup_nil_2 | apply appendToSlice_NoDup].

Lemma parseCall_wellFormed walkNode expr f args pos :
  returning (parseCall walkNode expr f args pos) labelsWellFormed.
Proof.
  unfold parseCall.
  eapply returning_bind; [apply gatherSelectors_spec|].
  intros s [sels ->].
  repeat match goal with
         | |- returning (if isCase ?a ?l then _ else _) _ => destruct (isCase a l)
         end;
    try (apply returning_ret; fresh_labels).
  - (* absent, absent_over_time *)
    eapply returning_mono; [apply returning_setReason|].
    intros s' Hs'%sameButReason_sameLabels. rewrite absentLabels_spec in Hs'.
    same_labels Hs'. fresh_labels.
  - (* days_in_month, ... *)
    destruct (decide (length args = 0)); [|apply returning_ret; fresh_labels].
    eapply returning_mono; [apply returning_setReason|].
    intros s' Hs'%sameButReason_sameLabels. same_labels Hs'. fresh_labels.
  - (* label_replace, label_join *)
    eapply returning_bind; [apply returning_True|]. intros arg _.
    apply stringLiteralVal_bind. intros dst p _.
    apply returning_ret. fresh_labels.
  - (* pi *)
    eapply returning_mono; [apply returning_setReason|].
    intros s' Hs'%sameButReason_sameLabels. same_labels Hs'. fresh_labels.
  - (* scalar *)
    eapply returning_mono; [apply returning_setReason|].
    intros s' Hs'%sameButReason_sameLabels. same_labels Hs'. fresh_labels.
  - (* time *)
    eapply returning_mono; [apply returning_setReason|].
    intros s' Hs'%sameButReason_sameLabels. same_labels Hs'. fresh_labels.
  - (* vector *)
    eapply returning_bind; [apply returning_True|]. intros arg _.
    eapply returning_bind with (P := λ s', labelsWellFormed s').
    + destruct arg; try (apply returning_ret; fresh_labels).
      eapply returning_bind; [apply returning_True|]. intros nums _.
      apply returning_ret. fresh_labels.
    + intros s1 Hs1.
      eapply returning_mono; [apply returning_setReason|].
      intros s' Hs'%sameButReason_sameLabels. by same_labels Hs'.
Qed.

End Calls.

(* ===================================================================== *)
(** * Binary expressions and the whole walk *)
(* ===================================================================== *)
Section Walk.
Import utils.
Variables math_Mod math_Pow : float → float → float.

Abbreviation walkNode := (utils.walkNode math_Mod math_Pow).
Abbreviation LabelsSource := (utils.LabelsSource math_Mod math_Pow).
Abbreviation parseBinOps := (utils.parseBinOps math_Mod math_Pow).
Abbreviation pairSources := (utils.pairSources math_Mod math_Pow).
Abbreviation foldReturnedNumbers := (utils.foldReturnedNumbers math_Mod math_Pow).
Abbreviation calculateStaticReturn := (utils.calculateStaticReturn math_Mod math_Pow).

Lemma sameButDead_refl s : sameButDead s s.
Proof. by destruct s. Qed.

Lemma sameButDead_trans s1 s2 s3 :
  sameButDead s1 s2 → sameButDead s2 s3 → sameButDead s1 s3.
Proof. unfold sameButDead. intros H1 H2. rewrite H2 at 1. by rewrite H1. Qed.

Lemma sameButDead_sameLabels s s' : sameButDead s s' → sameLabels s s'.
Proof. by intros ->. Qed.

(** Folding the constants of two sources writes the array of the left one
    and its flag [IsDead], nothing else of the source. *)
Lemma foldReturnedNumbers_sameButDead op ls rs :
  returning (foldReturnedNumbers op ls rs) (sameButDead ls).
Proof.
  unfold utils.foldReturnedNumbers.
  eapply returning_bind; [apply returning_True|]. intros lnums _.
  apply (returning_forRange _ _ (λ _, True)); [by apply Forall_forall | apply sameButDead_refl |].
  intros ls1 i _ Hls1.
  eapply returning_bind; [apply returning_True|]. intros lv _.
  eapply returning_bind; [apply returning_True|]. intros rnums _.
  apply (returning_forRange _ _ (λ _, True)); [by apply Forall_forall | done |].
  intros ls2 j _ Hls2.
  eapply returning_bind; [apply returning_True|]. intros rv _.
  destruct (calculateStaticReturn lv rv op (IsDead ls2)) as [v isDead].
  eapply returning_bind; [apply returning_True|]. intros _ _.
  apply returning_ret.
  eapply sameButDead_trans; [exact Hls2|]. done.
Qed.

Lemma Forall_snoc {A} (P : A → Prop) (l : list A) (x : A) :
  Forall P l → P x → Forall P (l ++ [x]).
Proof. intros. apply Forall_app. split; [done|]. by apply Forall_singleton. Qed.

Lemma pairSources_wellFormed op ls src rs :
  labelsWellFormed ls → Forall labelsWellFormed src → labelsWellFormed rs →
  returning (pairSources op (ls, src) rs)
            (λ acc, labelsWellFormed acc.1 ∧ Forall labelsWellFormed acc.2).
Proof.
  intros Hls Hsrc Hrs. unfold utils.pairSources.
  destruct (AlwaysReturns ls && AlwaysReturns rs).
  - eapply returning_bind; [apply foldReturnedNumbers_sameButDead|].
    intros ls' Hls'%sameButDead_sameLabels.
    assert (labelsWellFormed ls') by by eapply labelsWellFormed_same.
    apply returning_ret. simpl. split; [done|]. by apply Forall_snoc.
  - destruct (isVectorOrMatrix (Returns ls)).
    + apply returning_ret. simpl. split; [done|]. by apply Forall_snoc.
    + destruct (isVectorOrMatrix (Returns rs)); apply returning_ret; simpl; [|done].
      split; [done|]. by apply Forall_snoc.
Qed.

Lemma defaultOperation_sameLabels vm s : sameLabels s (defaultOperation vm s).
Proof. unfold defaultOperation. by destruct (decide _). Qed.

Lemma defaultOperation_wellFormed vm s :
  labelsWellFormed s → labelsWellFormed (defaultOperation vm s).
Proof. apply labelsWellFormed_same, defaultOperation_sameLabels. Qed.

Lemma oneToOneSource_wellFormed expr vm pos s :
  labelsWellFormed s → returning (oneToOneSource expr vm pos s) labelsWellFormed.
Proof.
  intros Hs. unfold oneToOneSource.
  eapply returning_bind with (P := labelsWellFormed);
    [|intros s' Hs'; by apply returning_ret, defaultOperation_wellFormed].
  destruct (promParser.On vm).
  - eapply returning_bind; [apply returning_True|]. intros _ _.
    eapply returning_mono; [apply returning_setReason|].
    intros s' Hs'%sameButReason_sameLabels. same_labels Hs'.
    eapply wellFormedLabels_shrink;
      [exact Hs | | apply removeFromSlice_sublist | done].
    by apply appendToSlice_NoDup, labelsWellFormed_included.
  - eapply returning_mono; [apply returning_setReasons|].
    intros s' Hs'%sameButReason_sameLabels. same_labels Hs'.
    eapply wellFormedLabels_exclude; [exact Hs|].
    by apply removeFromSlice_NoDup, labelsWellFormed_included.
Qed.

Lemma groupSource_wellFormed vm s :
  labelsWellFormed s → returning (groupSource vm s) labelsWellFormed.
Proof.
  intros Hs. unfold groupSource.
  eapply returning_bind with
    (P := λ s', labelsWellFormed s' ∧ ExcludedLabels s' = ExcludedLabels s
                ∧ GuaranteedLabels s' = GuaranteedLabels s).
  - assert (Hinc : labelsWellFormed
              (setIncludedLabels
                 (appendToSlice (IncludedLabels s) (promParser.Include vm)) s)).
    { unfold labelsWellFormed. simpl_fields.
      eapply wellFormedLabels_shrink; [exact Hs | | done | done].
      by apply appendToSlice_NoDup, labelsWellFormed_included. }
    destruct (promParser.On vm); [|by apply returning_ret].
    eapply returning_bind; [apply returning_True|]. intros _ _.
    apply returning_ret. split; [|done].
    unfold labelsWellFormed. simpl_fields.
    eapply wellFormedLabels_shrink; [exact Hs | | done | done].
    by apply appendToSlice_NoDup, appendToSlice_NoDup, labelsWellFormed_included.
  - intros s' (Hs' & Hel & Hgl).
    eapply returning_bind; [apply returning_True|]. intros _ _.
    apply returning_ret, defaultOperation_wellFormed.
    unfold labelsWellFormed. simpl_fields.
    eapply wellFormedLabels_shrink;
      [exact Hs' | by apply labelsWellFormed_included
       | apply removeFromSlice_sublist | done].
Qed.

Lemma manyToManyLeft_wellFormed vm b src s :
  Forall labelsWellFormed src → labelsWellFormed s →
  returning (manyToManyLeft vm (b, src) s) (λ acc, Forall labelsWellFormed acc.2).
Proof.
  intros Hsrc Hs. unfold manyToManyLeft.
  eapply returning_bind with (P := labelsWellFormed).
  - destruct (promParser.On vm); [|by apply returning_ret].
    eapply returning_bind; [apply returning_True|]. intros _ _.
    apply returning_ret. unfold labelsWellFormed. simpl_fields.
    eapply wellFormedLabels_shrink; [exact Hs | | done | done].
    by apply appendToSlice_NoDup, labelsWellFormed_included.
  - intros s' Hs'. apply returning_ret. simpl.
    apply Forall_snoc; [done|]. by apply defaultOperation_wellFormed.
Qed.

Lemma manyToManyRight_wellFormed vm b s :
  labelsWellFormed s → labelsWellFormed (manyToManyRight vm b s).
Proof.
  intros Hs. unfold manyToManyRight.
  destruct (negb b); [|by apply defaultOperation_wellFormed].
  by apply (defaultOperation_wellFormed vm) in Hs.
Qed.

Lemma parseBinOps_wellFormed (walk : promParser.Node → M (list Source))
    expr op LHS RHS vm :
  returning (walk LHS) (Forall labelsWellFormed) →
  returning (walk RHS) (Forall labelsWellFormed) →
  returning (parseBinOps walk expr op LHS RHS vm) (Forall labelsWellFormed).
Proof.
  intros HL HR. unfold utils.parseBinOps.
  destruct vm as [vm|].
  - destruct (promParser.Card vm).
    + eapply returning_bind; [exact HL|]. intros srcs Hsrcs.
      eapply returning_forEachSource_Forall; [exact Hsrcs|].
      intros s Hs. by apply oneToOneSource_wellFormed.
    + eapply returning_bind; [exact HL|]. intros srcs Hsrcs.
      eapply returning_forEachSource_Forall; [exact Hsrcs|].
      intros s Hs. by apply groupSource_wellFormed.
    + eapply returning_bind; [exact HR|]. intros srcs Hsrcs.
      eapply returning_forEachSource_Forall; [exact Hsrcs|].
      intros s Hs. by apply groupSource_wellFormed.
    + eapply returning_bind; [exact HL|]. intros lhs Hlhs.
      eapply returning_bind with (P := λ acc, Forall labelsWellFormed acc.2).
      * apply (returning_forRange _ _ labelsWellFormed); [done | constructor |].
        intros [b src] s Hs Hsrc. by apply manyToManyLeft_wellFormed.
      * intros [lhsCanBeEmpty src] Hsrc. simpl in Hsrc.
        destruct (decide (op = promParser.LOR)); [|by apply returning_ret].
        eapply returning_bind; [exact HR|]. intros rhs Hrhs.
        apply returning_ret, Forall_app. split; [done|].
        apply Forall_fmap. eapply Forall_impl; [exact Hrhs|].
        intros s Hs. by apply manyToManyRight_wellFormed.
  - eapply returning_bind; [exact HL|]. intros lhs Hlhs.
    eapply returning_bind; [exact HR|]. intros rhs Hrhs.
    apply (returning_forRange _ _ labelsWellFormed); [done | constructor |].
    intros src ls Hls Hsrc.
    eapply returning_fmap with
      (P := λ acc, labelsWellFormed acc.1 ∧ Forall labelsWellFormed acc.2);
      [|by intros [??] [??]].
    apply (returning_forRange _ _ labelsWellFormed); [done | done |].
    intros [ls' src'] rs Hrs [Hls' Hsrc']. by apply pairSources_wellFormed.
Qed.

(** Every source that the walk emits has well-formed label lists. *)
Lemma walkNode_wellFormed expr node :
  returning (walkNode expr node) (Forall labelsWellFormed).
Proof.
  induction node as [op e param grouping without pos IHe _|op l r vm rb IHl IHr
                    |f args pos _|e r ep IH|e r s ep IH|v pos|e pos IH|v pos
                    |op e sp IH|e _|vs] using promParser.Node_ind;
    cbn [utils.walkNode]; try done.
  - by apply walkAggregation_wellFormed.
  - by apply parseBinOps_wellFormed.
  - eapply returning_bind; [apply parseCall_wellFormed|].
    intros s Hs. apply returning_ret. by apply Forall_singleton.
  - eapply returning_bind; [apply returning_True|]. intros nums _.
    eapply returning_bind with (P := labelsWellFormed);
      [|intros s Hs; apply returning_ret; by apply Forall_singleton].
    eapply returning_mono; [apply returning_setReason|].
    intros s' Hs'%sameButReason_sameLabels. same_labels Hs'.
    apply wellFormedLabels_nil; apply NoDup_nil_2.
  - eapply returning_bind with (P := labelsWellFormed);
      [|intros s Hs; apply returning_ret; by apply Forall_singleton].
    eapply returning_mono; [apply returning_setReason|].
    intros s' Hs'%sameButReason_sameLabels. same_labels Hs'.
    apply wellFormedLabels_nil; apply NoDup_nil_2.
  - by apply returning_ret.
  - apply returning_ret, Forall_singleton.
    unfold labelsWellFormed. simpl_fields.
    apply wellFormedLabels_nil; [apply NoDup_nil_2|].
    apply appendToSlice_NoDup, NoDup_nil_2.
Qed.

End Walk.

(* ===================================================================== *)
(** * The label lists of the sources of an expression *)
(* ===================================================================== *)
Section LabelLists.
Import utils.
Variables math_Mod math_Pow : float → float → float.

Abbreviation LabelsSource := (utils.LabelsSource math_Mod math_Pow).
Abbreviation walkNode := (utils.walkNode math_Mod math_Pow).

(** C1. For every PromQL expression, every source that [LabelsSource] emits
    has disjoint guaranteed and excluded labels: no label name is in both
    lists of the same source, whatever the kinds of the nodes of the
    expression. *)
Theorem LabelsSource_guaranteed_excluded_disjoint expr node st srcs st' :
  LabelsSource expr node st = Done srcs st' →
  ∀ s, s ∈ srcs →
  ∀ name, name ∈ GuaranteedLabels s → name ∉ ExcludedLabels s.
Proof.
  intros Hwalk s Hs.
  pose proof (walkNode_wellFormed math_Mod math_Pow expr node st srcs st' Hwalk) as Hall.
  rewrite Forall_forall in Hall.
  by destruct (Hall s Hs) as (_ & _ & _ & Hdisj).
Qed.

(** C10. For every PromQL expression, every source that [LabelsSource] emits
    has duplicate-free label lists: no label name occurs twice within the
    included, within the excluded or within the guaranteed labels of the
    same source. *)
Theorem LabelsSource_labels_NoDup expr node st srcs st' :
  LabelsSource expr node st = Done srcs st' →
  ∀ s, s ∈ srcs →
  NoDup (IncludedLabels s) ∧ NoDup (ExcludedLabels s) ∧ NoDup (GuaranteedLabels s).
Proof.
  intros Hwalk s Hs.
  pose proof (walkNode_wellFormed math_Mod math_Pow expr node st srcs st' Hwalk) as Hall.
  rewrite Forall_forall in Hall.
  by destruct (Hall s Hs) as (? & ? & ? & _).
Qed.

Lemma taggedAggregate_set operation x :
  taggedAggregate operation x (setOperation operation (setType AggregateSource x)).
Proof. by repeat split. Qed.

Lemma tagged_walk expr operation X (node : promParser.Node) st :
  walkNode expr node
  = (srcs ← walkNode expr X;
     mret ((λ s, setOperation operation (setType AggregateSource s)) <$> srcs)) →
  match walkNode expr X st with
  | Done inner st' =>
      ∃ srcs, walkNode expr node st = Done srcs st'
              ∧ Forall2 (taggedAggregate operation) inner srcs
  | Panics p => walkNode expr node st = Panics p
  end.
Proof.
  intros ->. unfold mbind, M_bind.
  destruct (utils.walkNode math_Mod math_Pow expr X st) as [inner st'|p]; [|done].
  eexists. split; [done|].
  induction inner as [|x inner IH]; constructor; [apply taggedAggregate_set | done].
Qed.

(** C7. For every expression [X], the sources emitted for [topk(k, X)] and
    [bottomk(k, X)] are the sources of [X], in the same store, with only the
    kind changed to [AggregateSource] and the operation set to "topk" or
    "bottomk": the label lists, [FixedLabels], the selectors and all other
    fields are unchanged; when the walk of [X] panics, so does the walk of
    the aggregation. *)
Theorem walkNode_topk_bottomk expr X param grouping without pos st :
  match walkNode expr X st with
  | Done inner st' =>
      (∃ srcs,
         walkNode expr (promParser.AggregateExpr promParser.TOPK X param grouping
                          without pos) st = Done srcs st'
         ∧ Forall2 (taggedAggregate "topk") inner srcs)
      ∧ (∃ srcs,
           walkNode expr (promParser.AggregateExpr promParser.BOTTOMK X param
                            grouping without pos) st = Done srcs st'
           ∧ Forall2 (taggedAggregate "bottomk") inner srcs)
  | Panics p =>
      walkNode expr (promParser.AggregateExpr promParser.TOPK X param grouping
                       without pos) st = Panics p
      ∧ walkNode expr (promParser.AggregateExpr promParser.BOTTOMK X param grouping
                         without pos) st = Panics p
  end.
Proof.
  pose proof (tagged_walk expr "topk" X
                (promParser.AggregateExpr promParser.TOPK X param grouping without pos)
                st eq_refl) as Htop.
  pose proof (tagged_walk expr "bottomk" X
                (promParser.AggregateExpr promParser.BOTTOMK X param grouping without pos)
                st eq_refl) as Hbottom.
  destruct (utils.walkNode math_Mod math_Pow expr X st); done.
Qed.

End LabelLists.

(** The sources of [sum without(job) (foo{job='a',instance='b'})]. *)
Lemma LabelsSource_guaranteed_excluded_disjoint_witness :
  ∃ st',
    utils.LabelsSource Examples.unusedMod Examples.unusedPow
      Examples.sum_without_text Examples.sum_without utils.emptyStore
    = utils.Done [Examples.sum_without_source] st'
    ∧ "instance" ∈ utils.GuaranteedLabels Examples.sum_without_source
    ∧ "instance" ∉ utils.ExcludedLabels Examples.sum_without_source.
Proof.
  eexists. split; [vm_compute; reflexivity|].
  assert (Hin : "instance" ∈ utils.GuaranteedLabels Examples.sum_without_source)
    by (cbn; left).
  split; [exact Hin|].
  eapply (LabelsSource_guaranteed_excluded_disjoint
            Examples.unusedMod Examples.unusedPow
            Examples.sum_without_text Examples.sum_without utils.emptyStore
            [Examples.sum_without_source]).
  - vm_compute. reflexivity.
  - apply list_elem_of_singleton. reflexivity.
  - exact Hin.
Defined.

Lemma LabelsSource_labels_NoDup_witness :
  ∃ st',
    utils.LabelsSource Examples.unusedMod Examples.unusedPow
      Examples.sum_without_text Examples.sum_without utils.emptyStore
    = utils.Done [Examples.sum_without_source] st'
    ∧ NoDup (utils.IncludedLabels Examples.sum_without_source)
    ∧ NoDup (utils.ExcludedLabels Examples.sum_without_source)
    ∧ NoDup (utils.GuaranteedLabels Examples.sum_without_source).
Proof.
  eexists. split; [vm_compute; reflexivity|].
  eapply (LabelsSource_labels_NoDup
            Examples.unusedMod Examples.unusedPow
            Examples.sum_without_text Examples.sum_without utils.emptyStore
            [Examples.sum_without_source]).
  - vm_compute. reflexivity.
  - apply list_elem_of_singleton. reflexivity.
Defined.

(* ===================================================================== *)
(** * The alerts/comparison check *)
(* ===================================================================== *)
Section ComparisonCheckProperties.
Import checks.
Variable HasOuterBinaryExpr : parser.PromQLNode → option promParser.BinaryExprT.

Abbreviation Check := (checks.Check HasOuterBinaryExpr).

Lemma firstNonNil_app {A B} (f : A → option B) l1 l2 :
  firstNonNil f (l1 ++ l2)
  = match firstNonNil f l1 with
    | Some node => Some node
    | None => firstNonNil f l2
    end.
Proof.
  induction l1 as [|x l1 IH]; simpl; [done|]. by destruct (f x).
Qed.

Lemma firstNonNil_None {A B} (f : A → option B) l :
  firstNonNil f l = None ↔ ∀ x, x ∈ l → f x = None.
Proof.
  induction l as [|x l IH]; simpl.
  - split; [|done]. intros _ y Hy. by inversion Hy.
  - destruct (f x) eqn:Hx.
    + split; [done|]. intros H. specialize (H x). rewrite Hx in H.
      apply H. by left.
    + rewrite IH. split.
      * intros H y [->|Hy]%elem_of_cons; auto.
      * intros H y Hy. apply H. by right.
Qed.

(** The equation of the source: the test on the node, then the children in
    order. *)
Lemma hasComparision_Children n :
  hasComparision n
  = match comparisonOrUnless n with
    | Some node => Some node
    | None => firstNonNil hasComparision (promParser.Children n)
    end.
Proof.
  destruct n as [op e [p|] grouping without pos|op l r vm rb|f args pos| | | | | | | |];
    cbn [hasComparision promParser.Children firstNonNil];
    try (repeat case_match; done).
  destruct (comparisonOrUnless _); [done|].
  induction args as [|child args IH]; [done|].
  cbn [firstNonNil]. by destruct (hasComparision child).
Qed.

(** [hasComparision] returns the first node, in pre-order, that is a binary
    expression with a comparison operator or with [unless]. *)
Lemma hasComparision_descendants n :
  hasComparision n = firstNonNil comparisonOrUnless (descendants n).
Proof.
  induction n as [op e param grouping without pos IHe IHp|op l r vm rb IHl IHr
                 |f args pos IHargs|e r ep IH|e r s ep IH|v pos|e pos IH|v pos
                 |op e sp IH|e IH|vs] using promParser.Node_ind;
    rewrite hasComparision_Children;
    cbn [descendants firstNonNil promParser.Children];
    match goal with |- context [comparisonOrUnless ?x] => destruct (comparisonOrUnless x) end;
    try done.
  - destruct param as [p|]; simpl in IHp; cbn [firstNonNil].
    + rewrite firstNonNil_app, <- IHe, <- IHp. by repeat case_match.
    + rewrite <- IHe. by case_match.
  - rewrite firstNonNil_app, <- IHl, <- IHr. cbn [firstNonNil]. by repeat case_match.
  - induction IHargs as [|child args Hchild _ IH]; [done|].
    cbn [firstNonNil]. rewrite firstNonNil_app, <- Hchild, IH. done.
  - rewrite <- IH. cbn [firstNonNil]. by case_match.
  - rewrite <- IH. cbn [firstNonNil]. by case_match.
  - rewrite <- IH. cbn [firstNonNil]. by case_match.
  - rewrite <- IH. cbn [firstNonNil]. by case_match.
  - rewrite <- IH. cbn [firstNonNil]. by case_match.
Qed.

Lemma existsb_app_bool {A} (f : A → bool) l1 l2 :
  existsb f (l1 ++ l2) = existsb f l1 || existsb f l2.
Proof. apply existsb_app. Qed.

(** [isAbsent] holds when a node of the expression is a call to the function
    named [absent]. *)
Lemma isAbsent_descendants n :
  isAbsent n = existsb isAbsentCall (descendants n).
Proof.
  induction n as [op e param grouping without pos IHe IHp|op l r vm rb IHl IHr
                 |f args pos IHargs|e r ep IH|e r s ep IH|v pos|e pos IH|v pos
                 |op e sp IH|e IH|vs] using promParser.Node_ind;
    cbn [isAbsent descendants existsb];
    match goal with |- context [isAbsentCall ?x] => destruct (isAbsentCall x) end;
    try done; cbn [orb].
  - destruct param as [p|]; simpl in IHp.
    + by rewrite existsb_app_bool, <- IHe, <- IHp.
    + done.
  - by rewrite existsb_app_bool, <- IHl, <- IHr.
  - induction IHargs as [|child args Hchild _ IH]; [done|].
    by rewrite existsb_app_bool, <- Hchild, IH.
Qed.

(** When the check reports the first sub-rule. *)
Lemma checkOr_spec ar expr n :
  HasOuterBinaryExpr expr = Some n → promParser.Op n = promParser.LOR →
  checkOr HasOuterBinaryExpr ar expr []
  = if (bool_decide (hasComparision (promParser.LHS n) = None)
        || bool_decide (hasComparision (promParser.RHS n) = None))
       && negb (isAbsent (promParser.LHS n)) && negb (isAbsent (promParser.RHS n))
    then [problem ar textAlwaysFire
            (rewriteSeverity Warning [promParser.LHS n; promParser.RHS n])]
    else [].
Proof.
  intros Hn Hop. unfold checkOr. rewrite Hn. by rewrite decide_True.
Qed.

(** C9. For every rule whose expression carries a syntax error, and for
    every rule that is not an alerting rule, the alerts/comparison check
    returns an empty list of problems. *)
Theorem Check_recording_or_syntax_error rule :
  (∃ r, rule = parser.RecordingRule r)
  ∨ (∃ err, parser.Parsed (exprOf rule) = parser.SyntaxError err) →
  Check rule = [].
Proof.
  intros [[r ->]|[err Herr]]; [done|].
  destruct rule as [r|ar]; [done|]. simpl in Herr.
  unfold checks.Check. by rewrite Herr.
Qed.

(** C5, amended. For every alerting rule whose expression parses, if the
    first node of the expression, in pre-order, that is a binary expression
    with a comparison operator or with [unless] has the bool modifier, and
    neither of its operands contains a binary expression with a comparison
    operator or with [unless], then the check emits a problem of severity
    [Bug] whose text says that the bool modifier makes the alert always
    fire. *)
Theorem Check_bool_modifier ar expr n :
  parser.Parsed (parser.Expr ar) = parser.Query expr →
  firstNonNil comparisonOrUnless (descendants (parser.Node expr)) = Some n →
  promParser.ReturnBool n = true →
  (∀ d, d ∈ descendants (promParser.LHS n) → comparisonOrUnless d = None) →
  (∀ d, d ∈ descendants (promParser.RHS n) → comparisonOrUnless d = None) →
  problem ar textBoolModifier Bug ∈ Check (parser.AlertingRule ar).
Proof.
  intros Hparsed Hfirst Hbool Hl Hr.
  rewrite <- hasComparision_descendants in Hfirst.
  apply firstNonNil_None in Hl, Hr.
  rewrite <- hasComparision_descendants in Hl, Hr.
  unfold checks.Check. rewrite Hparsed, Hfirst, Hbool, Hl, Hr. simpl.
  apply elem_of_app. right. by left.
Qed.

End ComparisonCheckProperties.

(** A recording rule, and an alerting rule whose expression has a syntax
    error. *)
Lemma Check_recording_or_syntax_error_witness :
  ((∃ r, Examples.broken_rule = parser.RecordingRule r)
   ∨ (∃ err, parser.Parsed (exprOf Examples.broken_rule) = parser.SyntaxError err))
  ∧ checks.Check utils.HasOuterBinaryExpr Examples.broken_rule = []
  ∧ checks.Check utils.HasOuterBinaryExpr Examples.recording_rule = [].
Proof.
  assert (H : (∃ r, Examples.broken_rule = parser.RecordingRule r)
              ∨ (∃ err, parser.Parsed (exprOf Examples.broken_rule) = parser.SyntaxError err))
    by (right; eexists; reflexivity).
  split; [exact H|]. split.
  - exact (Check_recording_or_syntax_error utils.HasOuterBinaryExpr
             Examples.broken_rule H).
  - apply (Check_recording_or_syntax_error utils.HasOuterBinaryExpr
             Examples.recording_rule).
    left. eexists. reflexivity.
Defined.

(** C5 fails as stated: in the alert [foo > 1 and bar > bool 0] the node
    [bar > bool 0] is a comparison with the bool modifier whose operands
    contain no comparison, and the check reports nothing: the first
    comparison it meets, [foo > 1], has no bool modifier. *)
Lemma anyBoolComparisonIsReported_fails : ¬ anyBoolComparisonIsReported.
Proof.
  intros Hclaim.
  destruct (Hclaim utils.HasOuterBinaryExpr
              {| parser.Alert := "example";
                 parser.Expr :=
                   {| parser.Value := Examples.and_bool_text;
                      parser.Lines := {| parser.First := 3; parser.Last := 3 |};
                      parser.Parsed := parser.Query Examples.and_bool_query |} |}
              Examples.and_bool_query Examples.and_bool_rhs
              {| promParser.Op := promParser.GTR;
                 promParser.LHS := Examples.and_bool_bar;
                 promParser.RHS := Examples.and_bool_zero;
                 promParser.VectorMatching_of := None;
                 promParser.ReturnBool := true |})
    as (p & Hp & _); try reflexivity.
  - cbn. do 4 right. left.
  - vm_compute in Hp. inversion Hp.
Qed.

(** An operand that contains [unless] and no comparison also silences the
    check: in the alert [(foo unless bar) > bool 0] the outermost comparison
    has the bool modifier and its operands contain no comparison, and the
    check reports nothing. *)
Example Check_unless_operand :
  isComparison Examples.unless_bool = true
  ∧ containsComparison Examples.unless_bool_paren = false
  ∧ containsComparison Examples.unless_bool_zero = false
  ∧ checks.Check utils.HasOuterBinaryExpr Examples.unless_bool_rule = [].
Proof. repeat split; vm_compute; reflexivity. Qed.

(** The alert [up == bool 0]. *)
Lemma Check_bool_modifier_witness :
  checks.problem Examples.eq_bool_alerting checks.textBoolModifier checks.Bug
  ∈ checks.Check utils.HasOuterBinaryExpr (parser.AlertingRule Examples.eq_bool_alerting).
Proof.
  apply (Check_bool_modifier utils.HasOuterBinaryExpr Examples.eq_bool_alerting
           Examples.eq_bool_query
           {| promParser.Op := promParser.EQLC;
              promParser.LHS := Examples.eq_bool_up;
              promParser.RHS := Examples.eq_bool_zero;
              promParser.VectorMatching_of := None;
              promParser.ReturnBool := true |}).
  - reflexivity.
  - reflexivity.
  - reflexivity.
  - intros d Hd. cbn in Hd. apply list_elem_of_singleton in Hd as ->. reflexivity.
  - intros d Hd. cbn in Hd. apply list_elem_of_singleton in Hd as ->. reflexivity.
Defined.

(** C4, the defect. In the alert [absent_over_time(foo[5m]) or bar] the left
    side of [or] is a call to [absent_over_time]; [isAbsent] only looks for
    calls to [absent], does not hold of either side, and the check reports
    that the alert will always fire (and then, [hasAbsent] relying on
    [isAbsent] as well, that the query has no condition). *)
Theorem Check_absent_over_time_or :
  isAbsentOrAbsentOverTimeCall Examples.absent_or_lhs = true
  ∧ checks.isAbsent Examples.absent_or_lhs = false
  ∧ checks.isAbsent Examples.absent_or_rhs = false
  ∧ checks.Check utils.HasOuterBinaryExpr Examples.absent_or_rule
    = [ {| checks.Fragment := Examples.absent_or_text;
           checks.Lines := {| parser.First := 3; parser.Last := 3 |};
           checks.Reporter := "alerts/comparison";
           checks.Text := checks.textAlwaysFire;
           checks.Details := EmptyString;
           checks.Severity_ := checks.Warning |};
        {| checks.Fragment := Examples.absent_or_text;
           checks.Lines := {| parser.First := 3; parser.Last := 3 |};
           checks.Reporter := "alerts/comparison";
           checks.Text := checks.textNoCondition;
           checks.Details := EmptyString;
           checks.Severity_ := checks.Warning |} ].
Proof. repeat split; vm_compute; reflexivity. Qed.

(* ===================================================================== *)
(** * Calls to label-preserving functions *)
(* ===================================================================== *)
Section LabelPreserving.
Import utils.
Variables math_Mod math_Pow : float → float → float.

Abbreviation walkNode := (utils.walkNode math_Mod math_Pow).

Ltac run_cases :=
  repeat match goal with
         | |- returning (if isCase ?a ?l then _ else _) _ =>
             let b := eval vm_compute in (isCase a l) in
             change (isCase a l) with b; cbv iota
         end.

Lemma parseCall_labelPreserving walk expr f args pos :
  promParser.Name f ∈ labelPreserving →
  returning (parseCall walk expr f args pos)
            (λ s, ∃ sels, s = noChangeToLabels (setSelectors sels (callSource f args pos))).
Proof.
  intros Hin. unfold parseCall.
  eapply returning_bind; [apply gatherSelectors_spec|].
  intros s [sels ->]. unfold callSource.
  unfold labelPreserving in Hin.
  repeat (apply elem_of_cons in Hin as [Hin|Hin];
          [rewrite Hin; run_cases; apply returning_ret; by eexists|]).
  by apply elem_of_nil in Hin.
Qed.

Lemma argType_Done f i st vt st' :
  argType f i st = Done vt st' → st' = st ∧ declaredType f i = Some vt.
Proof.
  unfold argType, declaredType.
  destruct (decide (length (promParser.ArgTypes f) ≤ i)) as [Hle|Hgt].
  - destruct (length (promParser.ArgTypes f)) as [|last] eqn:Hlen; [done|].
    rewrite Nat.min_r by (simpl; lia). simpl.
    destruct (promParser.ArgTypes f !! last) as [vt'|]; [|done].
    by intros [= <- <-].
  - rewrite Nat.min_l by lia.
    destruct (promParser.ArgTypes f !! i) as [vt'|]; [|done].
    by intros [= <- <-].
Qed.

Lemma appendSelectors_app s srcs :
  appendSelectors s srcs = setSelectors (Selectors s ++ (srcs ≫= Selectors)) s.
Proof.
  unfold appendSelectors. revert s. induction srcs as [|es srcs IH]; intros s.
  - cbn. rewrite app_nil_r. by destruct s.
  - cbn [foldl]. rewrite IH. cbn. by rewrite <- app_assoc.
Qed.

(** The first loop of [parseCall] appends the selectors of the arguments. *)
Lemma gatherSelectors_argumentSelectors walk f i args s st s' st' :
  gatherSelectors walk f i args s st = Done s' st' →
  ∃ sels, argumentSelectors walk f i args st = Done sels st'
          ∧ s' = setSelectors (Selectors s ++ sels) s.
Proof.
  revert i s st. induction args as [|e args IH]; intros i s st Hrun.
  - injection Hrun as <- <-. exists []. split; [done|].
    rewrite app_nil_r. by destruct s.
  - cbn [gatherSelectors argumentSelectors] in *.
    apply bind_Done in Hrun as (vt & st0 & Hvt & Hrun).
    apply argType_Done in Hvt as [-> ->].
    apply bind_Done in Hrun as (s1 & st1 & Hs1 & Hrun).
    apply IH in Hrun as (rest & Hrest & ->).
    assert (Hwalked : ∀ srcs, walk e st = Done srcs st1 →
              s1 = appendSelectors s srcs →
              ∃ sels,
                (srcs ← walk e;
                 rest ← argumentSelectors walk f (S i) args;
                 mret ((srcs ≫= Selectors) ++ rest)) st = Done sels st'
                ∧ setSelectors (Selectors s1 ++ rest) s1
                  = setSelectors (Selectors s ++ sels) s).
    { intros srcs Hwalk ->. exists ((srcs ≫= Selectors) ++ rest). split.
      - unfold mbind at 1, M_bind at 1. rewrite Hwalk.
        unfold mbind, M_bind. by rewrite Hrest.
      - rewrite appendSelectors_app. cbn. by rewrite <- app_assoc. }
    destruct vt;
      try (injection Hs1 as <- <-; by exists rest);
      apply bind_Done in Hs1 as (srcs & st2 & Hwalk & [= <- <-]);
      by apply Hwalked with srcs.
Qed.

Ltac run_cases_in H :=
  repeat match type of H with
         | context [isCase ?a ?l] =>
             let b := eval vm_compute in (isCase a l) in
             change (isCase a l) with b in H; cbv iota in H
         end.

(** A call to a label-preserving function: the first loop, and then the
    body commented "No change to labels". *)
Lemma parseCall_labelPreserving_Done walk expr f args pos st s st' :
  promParser.Name f ∈ labelPreserving →
  parseCall walk expr f args pos st = Done s st' →
  ∃ sels, argumentSelectors walk f 0 args st = Done sels st'
          ∧ s = noChangeToLabels (setSelectors sels (callSource f args pos)).
Proof.
  intros Hin Hrun. unfold parseCall in Hrun. cbv zeta in Hrun.
  apply bind_Done in Hrun as (s0 & st0 & Hgather & Hrun).
  apply gatherSelectors_argumentSelectors in Hgather as (sels & Hsels & Hs0).
  assert (Hret : (mret (noChangeToLabels s0) : M Source) st0 = Done s st').
  { unfold labelPreserving in Hin.
    repeat (apply elem_of_cons in Hin as [Hin|Hin];
            [rewrite Hin in Hrun; run_cases_in Hrun; exact Hrun|]).
    by apply elem_of_nil in Hin. }
  injection Hret as <- <-. exists sels. split; [done|]. by rewrite Hs0.
Qed.

Lemma occurrences_app x l1 l2 :
  occurrences x (l1 ++ l2) = occurrences x l1 + occurrences x l2.
Proof. unfold occurrences. by rewrite filter_app, length_app. Qed.

Lemma countedMatcher_positive lm :
  countedMatcher guaranteedLabelsMatches lm = positiveMatcher lm.
Proof.
  unfold countedMatcher, positiveMatcher, slices_Contains, guaranteedLabelsMatches.
  by rewrite bool_decide_not.
Qed.

Lemma matcherNames_cons selector selectors :
  matcherNames guaranteedLabelsMatches (selector :: selectors)
  = positiveNames selector ++ matcherNames guaranteedLabelsMatches selectors.
Proof.
  unfold matcherNames, positiveNames. cbn [mbind list_bind]. f_equal. f_equal.
  apply list_filter_iff. intros lm. by rewrite countedMatcher_positive.
Qed.

(** When no selector uses the name twice, the name is counted once for
    every selector that uses it. *)
Lemma occurrences_matcherNames name selectors :
  (∀ selector, selector ∈ selectors → occurrences name (positiveNames selector) ≤ 1) →
  occurrences name (matcherNames guaranteedLabelsMatches selectors) ≤ length selectors
  ∧ (occurrences name (matcherNames guaranteedLabelsMatches selectors) = length selectors
     ↔ ∀ selector, selector ∈ selectors → name ∈ positiveNames selector).
Proof.
  induction selectors as [|selector selectors IH]; intros Honce.
  - split; [done|]. split; [|done]. intros _ selector H. by apply elem_of_nil in H.
  - rewrite matcherNames_cons, occurrences_app. cbn [length].
    destruct IH as [Hle Hiff]; [intros sel Hsel; apply Honce; by right|].
    pose proof (Honce selector ltac:(left)) as Hsel.
    pose proof (occurrences_elem name (positiveNames selector)) as Helem.
    split; [lia|]. split.
    + intros Heq sel [->|Hin]%elem_of_cons.
      * apply Helem. lia.
      * apply Hiff; [lia|done].
    + intros Hall.
      assert (occurrences name (positiveNames selector) ≠ 0)
        by (apply Helem, Hall; left).
      assert (occurrences name (matcherNames guaranteedLabelsMatches selectors)
              = length selectors)
        by (apply Hiff; intros sel Hin; apply Hall; by right).
      lia.
Qed.

(** C2, amended. For every call to a label-preserving transform function the
    walk emits one source; it returns a vector; its selectors are the
    selectors of the sources of the arguments that the function declares as
    a vector or a matrix; and, of the label names that none of these
    selectors uses in two positive (Equal or Regex) matchers, its guaranteed
    labels are those, [__name__] apart, that every selector uses in a
    positive matcher, and none when there is no selector: the names common
    to the selectors, not their union. *)
Theorem walkNode_labelPreserving_call expr f args pos st srcs st' :
  promParser.Name f ∈ labelPreserving →
  walkNode expr (promParser.Call f args pos) st = Done srcs st' →
  ∃ s, srcs = [s]
       ∧ Returns s = promParser.ValueTypeVector
       ∧ argumentSelectors (walkNode expr) f 0 args st = Done (Selectors s) st'
       ∧ NoDup (GuaranteedLabels s)
       ∧ ∀ name,
           (∀ selector, selector ∈ Selectors s →
                        occurrences name (positiveNames selector) ≤ 1) →
           name ∈ GuaranteedLabels s
           ↔ Selectors s ≠ []
             ∧ ∀ selector, selector ∈ Selectors s → name ∈ positiveNames selector.
Proof.
  intros Hin Hrun. cbn [utils.walkNode] in Hrun.
  apply bind_Done in Hrun as (s & st1 & Hcall & [= <- <-]).
  apply parseCall_labelPreserving_Done in Hcall as (sels & Hsels & ->); [|done].
  eexists. split; [done|]. unfold noChangeToLabels. simpl_fields.
  split; [done|]. split; [done|].
  split; [apply appendToSlice_NoDup, NoDup_nil_2|].
  intros name Honce. rewrite appendToSlice_elem, labelsFromSelectors_elem.
  destruct (occurrences_matcherNames name sels Honce) as [_ Hiff].
  split.
  - intros [H|[Hname Hcount]]; [by inversion H|].
    split; [|by apply Hiff].
    intros ->. by apply elem_of_nil in Hname.
  - intros [Hne Hall]. right.
    assert (Hcount := proj2 Hiff Hall). split; [|done].
    apply occurrences_elem. rewrite Hcount. by destruct sels.
Qed.

End LabelPreserving.

(** [rate(foo{job='a'}[5m])] *)
Lemma walkNode_labelPreserving_call_witness :
  ∃ st',
    utils.walkNode Examples.unusedMod Examples.unusedPow Examples.rate_text
      Examples.rate_call utils.emptyStore
    = utils.Done [Examples.rate_source] st'
    ∧ ∃ s, [Examples.rate_source] = [s]
           ∧ utils.Returns s = promParser.ValueTypeVector
           ∧ argumentSelectors
               (utils.walkNode Examples.unusedMod Examples.unusedPow Examples.rate_text)
               Examples.f_rate 0 Examples.rate_args utils.emptyStore
             = utils.Done (utils.Selectors s) st'
           ∧ NoDup (utils.GuaranteedLabels s)
           ∧ ∀ name,
               (∀ selector, selector ∈ utils.Selectors s →
                            occurrences name (positiveNames selector) ≤ 1) →
               name ∈ utils.GuaranteedLabels s
               ↔ utils.Selectors s ≠ []
                 ∧ ∀ selector, selector ∈ utils.Selectors s →
                               name ∈ positiveNames selector.
Proof.
  eexists. split; [vm_compute; reflexivity|].
  eapply (walkNode_labelPreserving_call Examples.unusedMod Examples.unusedPow
            Examples.rate_text Examples.f_rate Examples.rate_args (Examples.pos 0 22)
            utils.emptyStore).
  - refine (bool_decide_unpack _ _). vm_compute. exact I.
  - vm_compute. reflexivity.
Defined.

(** C2 fails as stated: the source of [abs(foo{a='1'} or bar{b='2'})] has the
    selectors [foo{a='1'}] and [bar{b='2'}] and no guaranteed label, while
    [a] is the label of a positive matcher of the first one. *)
Lemma guaranteedIsUnionOfMatcherNames_fails : ¬ guaranteedIsUnionOfMatcherNames.
Proof.
  intros Hclaim.
  destruct (Hclaim Examples.unusedMod Examples.unusedPow Examples.abs_or_text
              Examples.f_abs Examples.abs_or_args (Examples.pos 0 29)
              utils.emptyStore Examples.abs_or_source utils.emptyStore)
    as [_ Hunion].
  - refine (bool_decide_unpack _ _). vm_compute. exact I.
  - vm_compute. reflexivity.
  - assert (Ha : "a" ∈ utils.GuaranteedLabels Examples.abs_or_source).
    { apply Hunion. cbn. left. }
    cbn in Ha. by apply elem_of_nil in Ha.
Qed.

(** What the amended C2 leaves out: [labelsFromSelectors] counts the
    matchers of a name, not the selectors that use it.  A name that one
    selector uses in two positive matchers is not guaranteed for that
    selector alone, and is guaranteed for two selectors of which the other
    does not use it. *)
Example labelsFromSelectors_counts_matchers :
  utils.labelsFromSelectors utils.guaranteedLabelsMatches [Examples.twice_job] = []
  ∧ utils.labelsFromSelectors utils.guaranteedLabelsMatches
      [Examples.twice_a; Examples.twice_bar] = ["a"].
Proof. split; vm_compute; reflexivity. Qed.

(* ===================================================================== *)
(** * Aggregations with [by(...)] *)
(* ===================================================================== *)
Section SumBy.
Import utils.
Variables math_Mod math_Pow : float → float → float.

Abbreviation walkNode := (utils.walkNode math_Mod math_Pow).

Lemma aggregateSource_by expr L pos x :
  L ≠ [] → returning (aggregateSource expr L false pos x) (groupedBy L x).
Proof.
  intros HL. unfold aggregateSource.
  eapply returning_bind with (P := groupedBy L x).
  2:{ intros s Hs. by apply returning_ret. }
  eapply returning_bind with
    (P := λ s, GuaranteedLabels s `sublist_of` GuaranteedLabels x
               ∧ (∀ name, name ∈ GuaranteedLabels x → name ∈ L →
                          name ∈ GuaranteedLabels s)
               ∧ (FixedLabels x = false → ∀ name, name ∈ L → name ∈ IncludedLabels s)
               ∧ (FixedLabels x = true → IncludedLabels s = IncludedLabels x)).
  2:{ intros s (? & ? & ? & ?). apply returning_ret. by repeat split. }
  rewrite decide_False by (by destruct L).
  eapply returning_bind with
    (P := λ s, GuaranteedLabels s = GuaranteedLabels x
               ∧ (FixedLabels x = false → ∀ name, name ∈ L → name ∈ IncludedLabels s)
               ∧ (FixedLabels x = true → IncludedLabels s = IncludedLabels x)).
  - destruct (FixedLabels x) eqn:Hfixed; cbn [negb].
    + by apply returning_ret.
    + eapply returning_mono; [apply returning_setReason|].
      intros s Hs%sameButReason_sameLabels.
      destruct (removeExcluded_spec L
                  (setIncludedLabels (appendToSlice (IncludedLabels x) L) x))
        as (el & _ & Heq).
      rewrite Heq in Hs. destruct Hs as (Hil & _ & Hgl). simpl_fields.
      split; [done|]. split; [|done].
      intros _ name Hname. rewrite Hil. apply appendToSlice_elem. by right.
  - intros s (Hgl & Hil1 & Hil2). apply returning_ret. simpl_fields.
    rewrite Hgl. split; [apply keepGrouped_sublist|].
    split; [|done]. intros name. apply keepGrouped_kept.
Qed.

Lemma groupedBy_tagOperation L inner out operation :
  Forall2 (groupedBy L) inner out →
  Forall2 (groupedBy L) inner (tagOperation operation out).
Proof.
  unfold tagOperation. induction 1; constructor; done.
Qed.

(** C3, amended. For every expression [X] and non-empty list of labels [L],
    the sources emitted for [sum by(L) (X)] are, one for one and in order,
    made from the sources of [X]; each has [FixedLabels] set; its included
    labels contain [L] when the source of [X] was not already fixed, and are
    the included labels of that source when it was; its guaranteed labels
    are drawn, in order, from the guaranteed labels of that source and keep
    every one of them that is in [L]. *)
Theorem walkNode_sum_by expr X param L pos st srcs st' :
  L ≠ [] →
  walkNode expr (promParser.AggregateExpr promParser.SUM X param L false pos) st
  = Done srcs st' →
  ∃ inner st1,
    walkNode expr X st = Done inner st1
    ∧ Forall2 (groupedBy L) inner srcs.
Proof.
  intros HL. cbn [utils.walkNode]. unfold walkAggregation, parseAggregation.
  unfold fmap, M_fmap, mbind, M_bind.
  destruct (utils.walkNode math_Mod math_Pow expr X st) as [inner st1|p] eqn:HX; [|done].
  destruct (forEachSource (aggregateSource expr L false pos) inner st1)
    as [out st2|p] eqn:Hout; [|done].
  intros [= <- <-]. exists inner, st1. split; [done|].
  apply groupedBy_tagOperation.
  eapply (returning_forEachSource _ inner (λ _, True) (groupedBy L));
    [by apply Forall_forall | | exact Hout].
  intros s _. by apply aggregateSource_by.
Qed.

End SumBy.

(** [sum by(job) (foo{job='a',instance='b'})] *)
Lemma walkNode_sum_by_witness :
  ["job"] ≠ []
  ∧ ∃ srcs st',
      utils.walkNode Examples.unusedMod Examples.unusedPow Examples.sum_by_text
        Examples.sum_by utils.emptyStore = utils.Done srcs st'
      ∧ ∃ inner st1,
          utils.walkNode Examples.unusedMod Examples.unusedPow Examples.sum_by_text
            (promParser.VectorSelectorExpr Examples.sum_by_selector) utils.emptyStore
          = utils.Done inner st1
          ∧ Forall2 (groupedBy ["job"]) inner srcs.
Proof.
  split; [discriminate|]. eexists _, _. split; [vm_compute; reflexivity|].
  eapply (walkNode_sum_by Examples.unusedMod Examples.unusedPow Examples.sum_by_text
            (promParser.VectorSelectorExpr Examples.sum_by_selector) None ["job"]
            (Examples.pos 0 39) utils.emptyStore).
  - discriminate.
  - vm_compute. reflexivity.
Defined.

(** C3 fails as stated: the source of [vector(1)] has fixed labels, and
    [sum by(a) (vector(1))] leaves its included labels empty. *)
Lemma sumByIncludesGrouping_fails : ¬ sumByIncludesGrouping.
Proof.
  intros Hclaim.
  destruct (Hclaim Examples.unusedMod Examples.unusedPow Examples.sum_by_vector_text
              Examples.vector_one None ["a"] (Examples.pos 0 21) utils.emptyStore
              [Examples.sum_by_vector_source]
              {| utils.numbers := [[1%float]];
                 utils.reasons :=
                   [ {[ EmptyString :=
                          {| utils.Reason := utils.reasonVector "vector";
                             utils.Fragment := "vector(1)" |} ]} ] |}
              ltac:(discriminate) ltac:(vm_compute; reflexivity)
              Examples.sum_by_vector_source ltac:(left))
    as (_ & Hincluded & _).
  specialize (Hincluded "a" ltac:(left)).
  cbn in Hincluded. by apply elem_of_nil in Hincluded.
Qed.

(** The loop over the guaranteed labels skips the element that follows one
    it deletes: of the guaranteed labels [a], [b], [d] of
    [sum by(c) (foo{a='1',b='2',d='3'})], none of which is in [by(c)], [b]
    stays. *)
Example keepGrouped_skips :
  utils.keepGrouped ["c"] ["a"; "b"; "d"] = ["b"]
  ∧ ∃ s st',
      utils.walkNode Examples.unusedMod Examples.unusedPow Examples.sum_by_skip_text
        Examples.sum_by_skip utils.emptyStore = utils.Done [s] st'
      ∧ utils.GuaranteedLabels s = ["b"].
Proof. split; [vm_compute; reflexivity|]. eexists _, _. vm_compute. done. Qed.

(* ===================================================================== *)
(** * Constant folding of comparisons *)
(* ===================================================================== *)
Section StaticReturn.
Import utils.
Variables math_Mod math_Pow : float → float → float.

Abbreviation calculateStaticReturn := (utils.calculateStaticReturn math_Mod math_Pow).
Abbreviation LabelsSource := (utils.LabelsSource math_Mod math_Pow).

Lemma SFcompare_antisym x y :
  SFcompare y x = CompOpp <$> SFcompare x y.
Proof.
  destruct x as [[]|[]| |[] mx ex], y as [[]|[]| |[] my ey]; try reflexivity;
    cbn [SFcompare fmap option_fmap option_map];
    rewrite (Z.compare_antisym ex ey);
    destruct (ex ?= ey)%Z; cbn [CompOpp]; try reflexivity;
    rewrite !Pos.compare_cont_spec; cbn [Pos.switch_Eq];
    rewrite (Pos.compare_antisym mx my); by destruct (mx ?= my)%positive.
Qed.

Lemma is_nan_false_compare x y :
  is_nan x = false → is_nan y = false →
  ∃ c, SFcompare (Prim2SF x) (Prim2SF y) = Some c.
Proof.
  unfold is_nan. rewrite !negb_false_iff, !FloatAxioms.eqb_spec. unfold SFeqb.
  destruct (Prim2SF x), (Prim2SF y); simpl; try done; eauto.
Qed.

(** Away from NaN, [>] is the negation of [<=] and [>=] that of [<]. *)
Lemma ltb_negb_leb x y :
  is_nan x = false → is_nan y = false → (y <? x)%float = negb (x <=? y)%float.
Proof.
  intros Hx Hy. destruct (is_nan_false_compare x y Hx Hy) as [c Hc].
  rewrite ltb_spec, leb_spec. unfold SFltb, SFleb.
  rewrite SFcompare_antisym, Hc. by destruct c.
Qed.

Lemma leb_negb_ltb x y :
  is_nan x = false → is_nan y = false → (y <=? x)%float = negb (x <? y)%float.
Proof.
  intros Hx Hy. destruct (is_nan_false_compare x y Hx Hy) as [c Hc].
  rewrite ltb_spec, leb_spec. unfold SFltb, SFleb.
  rewrite SFcompare_antisym, Hc. by destruct c.
Qed.

(** What the code does for a comparison of two numbers, neither of them NaN:
    the left value is kept; the source is dead when the predicate is false,
    and [isDead] is unchanged when it is true. *)
Lemma calculateStaticReturn_comparison lv rv op isDead :
  promParser.IsComparisonOperator op = true →
  is_nan lv = false → is_nan rv = false →
  calculateStaticReturn lv rv op isDead
  = (lv, if comparisonHolds op lv rv then isDead else true).
Proof.
  intros Hop Hl Hr.
  destruct op; try discriminate; cbn [utils.calculateStaticReturn comparisonHolds].
  - by destruct (lv =? rv)%float.
  - by destruct (lv =? rv)%float.
  - rewrite (ltb_negb_leb lv rv) by done. by destruct (lv <=? rv)%float.
  - rewrite (leb_negb_ltb lv rv) by done. by destruct (lv <? rv)%float.
  - rewrite (ltb_negb_leb rv lv) by done. by destruct (rv <=? lv)%float.
  - rewrite (leb_negb_ltb rv lv) by done. by destruct (rv <? lv)%float.
Qed.

(** For [==] and [!=] the same holds of every pair of numbers. *)
Lemma calculateStaticReturn_equality lv rv op isDead :
  op = promParser.EQLC ∨ op = promParser.NEQ →
  calculateStaticReturn lv rv op isDead
  = (lv, if comparisonHolds op lv rv then isDead else true).
Proof.
  intros [-> | ->]; cbn [utils.calculateStaticReturn comparisonHolds];
    by destruct (lv =? rv)%float.
Qed.

(** C6, the defect. [vector(NaN) <= 1] compares two constants for which the
    predicate [NaN <= 1] is false; the code tests [NaN > 1], which is false
    as well, and the source it emits is not dead.  The left value is kept. *)
Theorem LabelsSource_nan_comparison_not_dead :
  comparisonHolds promParser.LTE nan 1 = false
  ∧ calculateStaticReturn nan 1 promParser.LTE false = (nan, false)
  ∧ ∃ s st',
      LabelsSource Examples.nan_lte_text Examples.nan_lte emptyStore = Done [s] st'
      ∧ AlwaysReturns s = true
      ∧ IsDead s = false
      ∧ readNumbers (ReturnedNumbers s) st' = Done [nan] st'.
Proof.
  split; [reflexivity|]. split; [reflexivity|].
  eexists _, _. vm_compute. done.
Qed.

(** The copies of a source share their numbers: the left source of
    [1 + (vector(1) or vector(2))] is emitted once for [vector(1)] and once
    for [vector(2)], both times with the same array, which holds
    [(1 + 1) + 2] in the end. *)
Example LabelsSource_shared_numbers :
  ∃ s1 s2 st',
    LabelsSource Examples.shared_text Examples.shared emptyStore = Done [s1; s2] st'
    ∧ ReturnedNumbers s1 = ReturnedNumbers s2
    ∧ readNumbers (ReturnedNumbers s1) st' = Done [4%float] st'.
Proof. eexists _, _, _. vm_compute. done. Qed.

(** C8, the defect. The parser accepts a string literal in parentheses where
    a function takes a string; for
    [label_replace(up, ('dst'), 'x', 'src', '(.+)')] the second argument is
    a [ParenExpr], its assertion to a string literal fails, and the walk
    panics: no list of sources is returned. *)
Theorem LabelsSource_label_replace_panics st :
  LabelsSource Examples.label_replace_text Examples.label_replace st
  = Panics InterfaceConversion.
Proof. reflexivity. Qed.

End StaticReturn.

(* ===================================================================== *)
(** * The walk of a checked expression emits a source, unless it panics *)
(* ===================================================================== *)
Section NonEmpty.
Import utils.
Variables math_Mod math_Pow : float → float → float.

Abbreviation walkNode := (utils.walkNode math_Mod math_Pow).
Abbreviation parseBinOps := (utils.parseBinOps math_Mod math_Pow).
Abbreviation pairSources := (utils.pairSources math_Mod math_Pow).

Lemma sameFlags_refl s : sameFlags s s.
Proof. done. Qed.

Lemma sameFlags_trans s1 s2 s3 : sameFlags s1 s2 → sameFlags s2 s3 → sameFlags s1 s3.
Proof. intros [H1 H2] [H3 H4]. split; congruence. Qed.

Lemma sameButReason_sameFlags s s' : sameButReason s s' → sameFlags s s'.
Proof. by intros ->. Qed.

Lemma sameButDead_sameFlags s s' : sameButDead s s' → sameFlags s s'.
Proof. by intros ->. Qed.

Lemma emittable_sameFlags s s' : sameFlags s s' → emittable s → emittable s'.
Proof. unfold emittable. by intros [-> ->]. Qed.

Lemma scalarSource_emittable s : scalarSource s → emittable s.
Proof. intros [? _]. by left. Qed.

Lemma scalarSource_sameButDead s s' : sameButDead s s' → scalarSource s → scalarSource s'.
Proof. by intros ->. Qed.

Lemma defaultOperation_sameFlags vm s : sameFlags s (defaultOperation vm s).
Proof. unfold defaultOperation. by destruct (decide _). Qed.

(** The last iteration of a loop over a non-empty list establishes what
    every iteration establishes. *)
Lemma returning_forRange_last {A S} (xs : list A) (body : S → A → M S)
    (P : A → Prop) (I Q : S → Prop) (acc : S) :
  xs ≠ [] → Forall P xs → I acc →
  (∀ acc x, P x → I acc → returning (body acc x) (λ acc', I acc' ∧ Q acc')) →
  returning (forRange xs body acc) (λ acc', I acc' ∧ Q acc').
Proof.
  intros Hne Hxs Hacc Hbody. revert acc Hacc.
  induction Hxs as [|x xs Hx Hxs IH]; intros acc Hacc; [done|].
  simpl. eapply returning_bind; [by apply Hbody|]. intros acc' [Hacc' HQ].
  destruct xs as [|y xs].
  - simpl. by apply returning_ret.
  - by apply IH.
Qed.

Lemma Forall2_nonempty {A B} (R : A → B → Prop) l k :
  Forall2 R l k → l ≠ [] → k ≠ [].
Proof. by destruct 1. Qed.

Lemma Forall2_Forall_r {A B} (R : A → B → Prop) (P : A → Prop) (Q : B → Prop) l k :
  Forall2 R l k → Forall P l → (∀ x y, P x → R x y → Q y) → Forall Q k.
Proof.
  intros HR HP HQ. induction HR as [|x y l k Hxy _ IH]; [constructor|].
  apply Forall_cons in HP as [Hx HP]. constructor; eauto.
Qed.

(** A loop that makes one source from each source keeps the list non-empty
    and the sources emittable, when its body keeps the flags. *)
Lemma forEachSource_emittable body srcs :
  srcs ≠ [] → Forall emittable srcs →
  (∀ s, emittable s → returning (body s) (sameFlags s)) →
  returning (forEachSource body srcs) (λ out, out ≠ [] ∧ Forall emittable out).
Proof.
  intros Hne Hsrcs Hbody.
  eapply returning_mono.
  - apply (returning_forEachSource body srcs emittable sameFlags); done.
  - intros out Hout. split; [by eapply Forall2_nonempty|].
    eapply Forall2_Forall_r; [exact Hout | exact Hsrcs |].
    intros x y Hx Hxy. by eapply emittable_sameFlags.
Qed.

Lemma aggregateSource_vector expr grouping without pos s :
  returning (aggregateSource expr grouping without pos s)
            (λ s', Returns s' = promParser.ValueTypeVector).
Proof.
  unfold aggregateSource.
  eapply returning_bind; [apply returning_True|]. intros s' _.
  by apply returning_ret.
Qed.

Lemma deleteReasons_True names s : returning (deleteReasons names s) (λ _, True).
Proof. done. Qed.

Lemma oneToOneSource_sameFlags expr vm pos s :
  returning (oneToOneSource expr vm pos s) (sameFlags s).
Proof.
  unfold oneToOneSource.
  eapply returning_bind with (P := sameFlags s).
  - destruct (promParser.On vm).
    + eapply returning_bind; [apply returning_True|]. intros _ _.
      eapply returning_mono; [apply returning_setReason|].
      by intros s' ->.
    + eapply returning_mono; [apply returning_setReasons|].
      by intros s' ->.
  - intros s' Hs'. apply returning_ret.
    eapply sameFlags_trans; [exact Hs' | apply defaultOperation_sameFlags].
Qed.

Lemma groupSource_sameFlags vm s : returning (groupSource vm s) (sameFlags s).
Proof.
  unfold groupSource.
  eapply returning_bind with (P := sameFlags s).
  - destruct (promParser.On vm); [|by apply returning_ret].
    eapply returning_bind; [apply returning_True|]. intros _ _.
    by apply returning_ret.
  - intros s' Hs'.
    eapply returning_bind; [apply returning_True|]. intros _ _.
    apply returning_ret.
    eapply sameFlags_trans; [|apply defaultOperation_sameFlags].
    destruct Hs' as [? ?]. by split.
Qed.

Lemma manyToManyLeft_emittable vm b src s :
  Forall emittable src → emittable s →
  returning (manyToManyLeft vm (b, src) s)
            (λ acc, Forall emittable acc.2 ∧ acc.2 ≠ []).
Proof.
  intros Hsrc Hs. unfold manyToManyLeft.
  eapply returning_bind with (P := sameFlags s).
  - destruct (promParser.On vm); [|by apply returning_ret].
    eapply returning_bind; [apply returning_True|]. intros _ _.
    by apply returning_ret.
  - intros s' Hs'. apply returning_ret. simpl. split.
    + apply Forall_snoc; [done|].
      eapply emittable_sameFlags; [apply defaultOperation_sameFlags|].
      by eapply emittable_sameFlags.
    + by destruct src.
Qed.

Lemma manyToManyRight_sameFlags vm b s : sameFlags s (manyToManyRight vm b s).
Proof.
  unfold manyToManyRight.
  destruct (negb b); [|apply defaultOperation_sameFlags].
  destruct (defaultOperation_sameFlags vm s) as [? ?]. by split.
Qed.

Ltac not_scalar_name H :=
  exfalso; repeat (apply elem_of_cons in H as [H|H]; [discriminate H|]);
  by apply elem_of_nil in H.

Ltac run_cases :=
  repeat match goal with
         | |- returning (if isCase ?a ?l then _ else _) _ =>
             let b := eval vm_compute in (isCase a l) in
             change (isCase a l) with b; cbv iota
         end.

Ltac vector_source :=
  split; [by right | let H := fresh in intros H; not_scalar_name H].

Ltac scalar_source :=
  eapply returning_mono; [apply returning_setReason|];
  let s' := fresh "s'" in
  intros s' ->; split; [by left | intros _; by repeat split].

(** A call to a function that [parseCall] knows. *)
Lemma parseCall_emittable walk expr f args pos :
  promParser.Name f ∈ knownFunctions →
  returning (parseCall walk expr f args pos)
            (λ s, emittable s
                  ∧ (promParser.Name f ∈ ["pi"; "scalar"; "time"] → scalarSource s)).
Proof.
  intros [Hin|Hin]%elem_of_app.
  - eapply returning_mono; [by apply parseCall_labelPreserving|].
    intros s [sels ->]. split; [by right|]. intros Hscalar. exfalso.
    revert Hin. apply (proj1 (bool_decide_eq_false _)).
    repeat (apply elem_of_cons in Hscalar as [->|Hscalar]; [by vm_compute|]).
    by apply elem_of_nil in Hscalar.
  - unfold parseCall.
    eapply returning_bind; [apply gatherSelectors_spec|].
    intros s [sels ->].
    repeat (apply elem_of_cons in Hin as [Hin|Hin]; [rewrite Hin; run_cases|]);
      try (by apply elem_of_nil in Hin);
      try scalar_source;
      try (apply returning_ret; vector_source).
    + eapply returning_mono; [apply returning_setReason|].
      intros s' Hs'. rewrite absentLabels_spec in Hs'. rewrite Hs'. vector_source.
    + eapply returning_mono; [apply returning_setReason|].
      intros s' Hs'. rewrite absentLabels_spec in Hs'. rewrite Hs'. vector_source.
    + destruct (decide (length args = 0)); [|apply returning_ret; vector_source].
      eapply returning_mono; [apply returning_setReason|]. intros s' ->. vector_source.
    + destruct (decide (length args = 0)); [|apply returning_ret; vector_source].
      eapply returning_mono; [apply returning_setReason|]. intros s' ->. vector_source.
    + destruct (decide (length args = 0)); [|apply returning_ret; vector_source].
      eapply returning_mono; [apply returning_setReason|]. intros s' ->. vector_source.
    + destruct (decide (length args = 0)); [|apply returning_ret; vector_source].
      eapply returning_mono; [apply returning_setReason|]. intros s' ->. vector_source.
    + destruct (decide (length args = 0)); [|apply returning_ret; vector_source].
      eapply returning_mono; [apply returning_setReason|]. intros s' ->. vector_source.
    + destruct (decide (length args = 0)); [|apply returning_ret; vector_source].
      eapply returning_mono; [apply returning_setReason|]. intros s' ->. vector_source.
    + destruct (decide (length args = 0)); [|apply returning_ret; vector_source].
      eapply returning_mono; [apply returning_setReason|]. intros s' ->. vector_source.
    + destruct (decide (length args = 0)); [|apply returning_ret; vector_source].
      eapply returning_mono; [apply returning_setReason|]. intros s' ->. vector_source.
    + eapply returning_bind; [apply returning_True|]. intros arg _.
      apply stringLiteralVal_bind. intros dst p _.
      apply returning_ret. vector_source.
    + eapply returning_bind; [apply returning_True|]. intros arg _.
      apply stringLiteralVal_bind. intros dst p _.
      apply returning_ret. vector_source.
    + eapply returning_bind; [apply returning_True|]. intros arg _.
      eapply returning_bind with
        (P := λ s', AlwaysReturns s' = true ∧ Returns s' = promParser.ValueTypeVector).
      * destruct arg; try (by apply returning_ret).
        eapply returning_bind; [apply returning_True|]. intros nums _.
        by apply returning_ret.
      * intros s1 [Har Hret].
        eapply returning_mono; [apply returning_setReason|].
        intros s' ->. simpl_fields. split; [by left|].
        intros H. not_scalar_name H.
Qed.

(** A pair whose right source always returns: the left source is emitted,
    its flag [IsDead] apart. *)
Lemma pairSources_right_always op ls src rs :
  emittable ls → AlwaysReturns rs = true →
  returning (pairSources op (ls, src) rs)
            (λ acc, ∃ ls', acc.2 = src ++ [ls'] ∧ sameButDead ls ls').
Proof.
  intros Hls Hrs. unfold utils.pairSources. rewrite Hrs, andb_true_r.
  destruct (AlwaysReturns ls) eqn:Har.
  - eapply returning_bind; [apply foldReturnedNumbers_sameButDead|].
    intros ls' Hls'. apply returning_ret. by exists ls'.
  - destruct Hls as [Hls|Hls]; [congruence|]. rewrite Hls.
    apply returning_ret. exists ls. split; [done | apply sameButDead_refl].
Qed.

(** A pair whose left source is the source of a scalar: a source is emitted,
    and the left source stays the source of a scalar. *)
Lemma pairSources_left_scalar op ls src rs :
  scalarSource ls → Forall emittable src → emittable rs →
  returning (pairSources op (ls, src) rs)
            (λ acc, (scalarSource acc.1 ∧ Forall emittable acc.2) ∧ acc.2 ≠ []).
Proof.
  intros Hls Hsrc Hrs. unfold utils.pairSources.
  pose proof Hls as (Har & Hret & _). rewrite Har. cbn [andb].
  destruct (AlwaysReturns rs) eqn:Harr.
  - eapply returning_bind; [apply foldReturnedNumbers_sameButDead|].
    intros ls' Hls'.
    assert (scalarSource ls')
      by (eapply scalarSource_sameButDead; [exact Hls' | exact Hls]).
    apply returning_ret. simpl. split; [|by destruct src].
    split; [done|]. apply Forall_snoc; [done | by apply scalarSource_emittable].
  - rewrite Hret. cbn [isVectorOrMatrix bool_decide orb].
    change (isVectorOrMatrix promParser.ValueTypeScalar) with false. cbv iota.
    destruct Hrs as [Hrs|Hrs]; [congruence|]. rewrite Hrs.
    apply returning_ret. simpl. split; [|by destruct src].
    split; [exact Hls|]. apply Forall_snoc; [done | by right].
Qed.

Lemma walkResult_vector node srcs :
  typeOf node ≠ promParser.ValueTypeScalar →
  srcs ≠ [] → Forall emittable srcs → walkResult node srcs.
Proof. intros Hty Hne Hall. by repeat split. Qed.

Lemma parseBinOps_result (walk : promParser.Node → M (list Source))
    expr op l r vm rb :
  parserChecked (promParser.BinaryExpr op l r vm rb) →
  returning (walk l) (walkResult l) →
  returning (walk r) (walkResult r) →
  returning (parseBinOps walk expr op l r vm)
            (walkResult (promParser.BinaryExpr op l r vm rb)).
Proof.
  intros (_ & _ & Hl & Hr & Hvm) IHl IHr. unfold utils.parseBinOps.
  destruct vm as [vm|].
  - (* both sides are vectors *)
    assert (Hty : typeOf (promParser.BinaryExpr op l r (Some vm) rb)
                  ≠ promParser.ValueTypeScalar).
    { cbn [typeOf]. destruct (decide _) as [[Hls _]|_]; [|done].
      exfalso. destruct (decide (typeOf l = promParser.ValueTypeVector
                                 ∧ typeOf r = promParser.ValueTypeVector))
        as [[Hlv _]|Hn]; [congruence|].
      by apply Hvm in Hn. }
    destruct (promParser.Card vm).
    + eapply returning_bind; [exact IHl|]. intros srcs (Hne & Hall & _).
      eapply returning_mono.
      * apply forEachSource_emittable; [done | done |].
        intros s _. apply oneToOneSource_sameFlags.
      * intros out [? ?]. by apply walkResult_vector.
    + eapply returning_bind; [exact IHl|]. intros srcs (Hne & Hall & _).
      eapply returning_mono.
      * apply forEachSource_emittable; [done | done |].
        intros s _. apply groupSource_sameFlags.
      * intros out [? ?]. by apply walkResult_vector.
    + eapply returning_bind; [exact IHr|]. intros srcs (Hne & Hall & _).
      eapply returning_mono.
      * apply forEachSource_emittable; [done | done |].
        intros s _. apply groupSource_sameFlags.
      * intros out [? ?]. by apply walkResult_vector.
    + eapply returning_bind; [exact IHl|]. intros lhs (Hne & Hall & _).
      eapply returning_bind.
      * apply (returning_forRange_last lhs _ emittable
                 (λ acc, Forall emittable acc.2) (λ acc, acc.2 ≠ []));
          [done | done | constructor |].
        intros [b src] s Hs Hsrc. by apply manyToManyLeft_emittable.
      * intros [lhsCanBeEmpty src] [Hsrc Hsrcne]. simpl in Hsrc, Hsrcne.
        destruct (decide (op = promParser.LOR)).
        -- eapply returning_bind; [exact IHr|]. intros rhs (_ & Hrhs & _).
           apply returning_ret, walkResult_vector; [done | by destruct src |].
           apply Forall_app. split; [done|].
           apply Forall_fmap. eapply Forall_impl; [exact Hrhs|].
           intros s Hs. eapply emittable_sameFlags; [|exact Hs].
           apply manyToManyRight_sameFlags.
        -- apply returning_ret. by apply walkResult_vector.
  - (* one side is a scalar *)
    assert (Hscalar : typeOf r = promParser.ValueTypeScalar
                      ∨ (typeOf l = promParser.ValueTypeScalar
                         ∧ typeOf r = promParser.ValueTypeVector)).
    { destruct (decide (typeOf r = promParser.ValueTypeScalar)); [by left|right].
      apply elem_of_cons in Hr as [?|Hr]; [done|].
      apply list_elem_of_singleton in Hr.
      apply elem_of_cons in Hl as [?|Hl]; [done|].
      apply list_elem_of_singleton in Hl.
      exfalso. by apply (proj1 Hvm eq_refl). }
    eapply returning_bind; [exact IHl|]. intros lhs (Hlne & Hlall & Hlsc).
    eapply returning_bind; [exact IHr|]. intros rhs (Hrne & Hrall & Hrsc).
    destruct Hscalar as [Hrs|[Hls Hrv]].
    + destruct (Hrsc Hrs) as (rs & -> & Hrsrc).
      assert (Hstep : ∀ src ls, emittable ls →
                returning (snd <$> forRange [rs] (pairSources op) (ls, src))
                          (λ src', ∃ ls', src' = src ++ [ls'] ∧ sameButDead ls ls')).
      { intros src ls Hls. eapply returning_fmap; [|intros acc Hacc; exact Hacc].
        cbn [forRange].
        eapply returning_bind;
          [apply pairSources_right_always; [done | by destruct Hrsrc]|].
        intros acc Hacc. by apply returning_ret. }
      destruct (decide (typeOf l = promParser.ValueTypeScalar)) as [Hls|Hlv].
      * destruct (Hlsc Hls) as (ls & -> & Hlsrc). cbn [forRange].
        eapply returning_bind; [by apply Hstep, scalarSource_emittable|].
        intros src (ls' & -> & Hls'). apply returning_ret.
        assert (scalarSource ls') by by eapply scalarSource_sameButDead.
        split; [done|]. split; [by apply Forall_singleton, scalarSource_emittable|].
        intros _. by exists ls'.
      * eapply returning_mono.
        -- apply (returning_forRange_last lhs _ emittable
                    (Forall emittable) (λ src, src ≠ [])); [done | done | constructor |].
           intros src ls Hls Hsrc.
           eapply returning_mono; [by apply Hstep|].
           intros src' (ls' & -> & Hls'). split; [|by destruct src].
           apply Forall_snoc; [done|].
           eapply emittable_sameFlags; [by apply sameButDead_sameFlags | done].
        -- intros src [Hsrc Hne]. apply walkResult_vector; [|done|done].
           cbn [typeOf]. destruct (decide _) as [[? _]|_]; done.
    + destruct (Hlsc Hls) as (ls & -> & Hlsrc). cbn [forRange].
      eapply returning_bind with (P := λ src, Forall emittable src ∧ src ≠ []).
      * eapply returning_fmap.
        -- apply (returning_forRange_last rhs _ emittable
                    (λ acc, scalarSource acc.1 ∧ Forall emittable acc.2)
                    (λ acc, acc.2 ≠ [])); [done | done | by split |].
           intros [ls' src] rs Hrs [Hls' Hsrc]. by apply pairSources_left_scalar.
        -- by intros [ls' src] [[_ ?] ?].
      * intros src [Hsrc Hne]. apply returning_ret, walkResult_vector; [|done|done].
        cbn [typeOf]. destruct (decide _) as [[_ Hrs]|_]; [congruence | done].
Qed.

Lemma aggregated_emittable (inner out : list Source) :
  Forall2 (λ _ s', Returns s' = promParser.ValueTypeVector) inner out →
  inner ≠ [] → out ≠ [] ∧ Forall emittable out.
Proof.
  intros Hout Hne. split; [by eapply Forall2_nonempty|].
  clear Hne. induction Hout as [|x y inner out Hy _ IH]; constructor; [|done].
  right. by rewrite Hy.
Qed.

Lemma parseAggregation_emittable walk expr e grouping without pos :
  returning (walk e) (walkResult e) →
  returning (parseAggregation walk expr e grouping without pos)
            (λ out, out ≠ [] ∧ Forall emittable out).
Proof.
  intros IH. unfold parseAggregation.
  eapply returning_bind; [exact IH|]. intros inner (Hne & _ & _).
  eapply returning_mono;
    [apply (returning_forEachSource _ inner (λ _, True)
              (λ _ s', Returns s' = promParser.ValueTypeVector));
     [by apply Forall_forall | intros; apply aggregateSource_vector]|].
  intros out Hout. by eapply aggregated_emittable.
Qed.

Ltac aggregate_case IH :=
  eapply returning_fmap;
  [ by apply parseAggregation_emittable
  | intros out [? ?]; apply walkResult_vector;
    [done | unfold tagOperation; by destruct out | unfold tagOperation;
     by apply Forall_fmap]
  ].

(** Unless it panics, the walk of a checked expression returns a list that
    is not empty; the source of a scalar expression is alone, always returns
    and has no labels. *)
Lemma walkNode_result expr node :
  parserChecked node → returning (walkNode expr node) (walkResult node).
Proof.
  induction node as [op e param grouping without pos IHe _|op l r vm rb IHl IHr
                    |f args pos _|e r ep IH|e r s ep IH|v pos|e pos IH|v pos
                    |op e sp IH|e _|vs] using promParser.Node_ind;
    intros Hchecked; cbn [utils.walkNode].
  - destruct Hchecked as [Hop Hche]. specialize (IHe Hche).
    unfold walkAggregation, handledAggregators in *.
    repeat (apply elem_of_cons in Hop as [->|Hop]; [try aggregate_case IHe|]);
      try (by apply elem_of_nil in Hop).
    + (* count_values *)
      eapply returning_bind with (P := λ out, out ≠ [] ∧ Forall emittable out).
      * by apply parseAggregation_emittable.
      * intros srcs [Hne Hall].
        eapply returning_mono.
        -- apply forEachSource_emittable; [done | done |].
           intros s _.
           apply stringLiteralVal_bind; intros v1 p1 _.
           apply stringLiteralVal_bind; intros v2 p2 _.
           apply stringLiteralVal_bind; intros v3 p3 _.
           apply stringLiteralVal_bind; intros v4 p4 _.
           eapply returning_bind; [apply returning_True|]. intros _ _.
           by apply returning_ret.
        -- intros out [? ?]. by apply walkResult_vector.
    + (* topk *)
      eapply returning_bind; [exact IHe|]. intros srcs (Hne & Hall & _).
      apply returning_ret, walkResult_vector; [done | by destruct srcs |].
      apply Forall_fmap. eapply Forall_impl; [exact Hall|]. by intros s Hs.
    + (* bottomk *)
      eapply returning_bind; [exact IHe|]. intros srcs (Hne & Hall & _).
      apply returning_ret, walkResult_vector; [done | by destruct srcs |].
      apply Forall_fmap. eapply Forall_impl; [exact Hall|]. by intros s Hs.
  - pose proof Hchecked as (Hcl & Hcr & _).
    eapply parseBinOps_result; [exact Hchecked | by apply IHl | by apply IHr].
  - destruct Hchecked as [Hknown Hscalar].
    eapply returning_bind; [by apply parseCall_emittable|].
    intros s [Hs Hsc]. apply returning_ret.
    split; [done|]. split; [by apply Forall_singleton|].
    cbn [typeOf]. intros Hty. exists s. split; [done|]. by apply Hsc, Hscalar.
  - eapply returning_mono; [by apply IH|].
    intros srcs (? & ? & _). by apply walkResult_vector.
  - eapply returning_mono; [by apply IH|].
    intros srcs (? & ? & _). by apply walkResult_vector.
  - eapply returning_bind; [apply returning_True|]. intros nums _.
    eapply returning_bind with (P := scalarSource).
    + eapply returning_mono; [apply returning_setReason|].
      intros s' ->. by repeat split.
    + intros s Hs. apply returning_ret.
      split; [done|]. split; [by apply Forall_singleton, scalarSource_emittable|].
      intros _. by exists s.
  - by apply IH.
  - eapply returning_bind with (P := emittable).
    + eapply returning_mono; [apply returning_setReason|].
      intros s' ->. by left.
    + intros s Hs. apply returning_ret, walkResult_vector;
        [done | done | by apply Forall_singleton].
  - by apply IH.
  - done.
  - apply returning_ret, walkResult_vector; [done | done |].
    apply Forall_singleton. by right.
Qed.

End NonEmpty.

(** [1 + (vector(1) or vector(2))] is a checked expression, and its walk
    returns. *)
Example walkNode_result_shared :
  parserChecked Examples.shared
  ∧ ∃ srcs st',
      utils.walkNode Examples.unusedMod Examples.unusedPow Examples.shared_text
        Examples.shared utils.emptyStore = utils.Done srcs st'
      ∧ walkResult Examples.shared srcs.
Proof.
  assert (Hchecked : parserChecked Examples.shared).
  { cbn [parserChecked typeOf Examples.shared Examples.f_vector Examples.function
         promParser.Name promParser.ReturnType].
    repeat split;
      try (refine (bool_decide_unpack _ _); vm_compute; exact I);
      try discriminate; try (intros _; discriminate);
      try (by intros [? ?]); try (intros H; exfalso; revert H;
        refine (proj1 (bool_decide_eq_false _) _); vm_compute; reflexivity).
    all: intros H; exfalso; apply H; by vm_compute. }
  split; [exact Hchecked|].
  eexists _, _. split; [vm_compute; reflexivity|].
  eapply (walkNode_result Examples.unusedMod Examples.unusedPow Examples.shared_text
            Examples.shared Hchecked utils.emptyStore).
  vm_compute. reflexivity.
Qed.

(* ===================================================================== *)
(** * More on the slice helpers *)
(* ===================================================================== *)
Section SliceHelpers.
Import utils.

Lemma removeFromSlice_unfold sl v s :
  removeFromSlice sl (v :: s)
  = match slices_Index sl v with
    | Some idx =>
        if decide (length sl = 1) then [] else removeFromSlice (delete idx sl) s
    | None => removeFromSlice sl s
    end.
Proof. reflexivity. Qed.

Lemma removeFromSlice_nil s : removeFromSlice [] s = [].
Proof. induction s as [|v s IH]; [done|]. by rewrite removeFromSlice_unfold. Qed.

Lemma removeFromSlice_cons sl v s :
  removeFromSlice sl (v :: s) = removeFromSlice (removeFromSlice sl [v]) s.
Proof.
  rewrite (removeFromSlice_unfold sl v s), (removeFromSlice_unfold sl v []).
  destruct (slices_Index sl v) as [idx|]; [|done].
  destruct (decide (length sl = 1)); [|done].
  by rewrite removeFromSlice_nil.
Qed.

Lemma appendToSlice_unfold dst v values :
  appendToSlice dst (v :: values)
  = if slices_Contains dst v then appendToSlice dst values
    else appendToSlice (dst ++ [v]) values.
Proof. reflexivity. Qed.

Lemma removeFromSlice_filter sl s :
  NoDup sl → removeFromSlice sl s = filter (λ x, x ∉ s) sl.
Proof.
  revert sl. induction s as [|v s IH]; intros sl Hnd.
  - symmetry. apply filter_all, Forall_forall. intros x _. apply not_elem_of_nil.
  - rewrite removeFromSlice_cons, removeFromSlice_singleton by done.
    rewrite IH by (by apply NoDup_filter).
    rewrite list_filter_filter. apply list_filter_iff.
    intros x. rewrite not_elem_of_cons. tauto.
Qed.

Lemma appendToSlice_extra dst values :
  ∃ extra, appendToSlice dst values = dst ++ extra ∧ ∀ x, x ∈ extra → x ∈ values.
Proof.
  revert dst. induction values as [|v values IH]; intros dst.
  - exists []. split; [by rewrite app_nil_r|]. intros x Hx. by apply elem_of_nil in Hx.
  - rewrite appendToSlice_unfold. destruct (slices_Contains dst v).
    + destruct (IH dst) as (extra & -> & Hextra). exists extra. split; [done|].
      intros x Hx. right. by apply Hextra.
    + destruct (IH (dst ++ [v])) as (extra & -> & Hextra). exists (v :: extra).
      split; [by rewrite <- app_assoc|].
      intros x [->|Hx]%elem_of_cons; [left|right; by apply Hextra].
Qed.

Lemma appendToSlice_absorb dst values :
  (∀ x, x ∈ values → x ∈ dst) → appendToSlice dst values = dst.
Proof.
  induction values as [|v values IH]; intros Hin; [done|].
  rewrite appendToSlice_unfold.
  rewrite (proj2 (slices_Contains_true dst v)) by (apply Hin; left).
  apply IH. intros x Hx. apply Hin. by right.
Qed.

(** X1. [removeFromSlice] returns a sublist of the slice; of a slice without
    duplicates it returns the elements that are not among the values, in
    their order; of an empty slice it returns an empty slice. *)
Theorem removeFromSlice_spec sl s :
  removeFromSlice sl s `sublist_of` sl
  ∧ (NoDup sl → removeFromSlice sl s = filter (λ x, x ∉ s) sl)
  ∧ (sl = [] → removeFromSlice sl s = []).
Proof.
  split; [apply removeFromSlice_sublist|].
  split; [apply removeFromSlice_filter|].
  intros ->. apply removeFromSlice_nil.
Qed.

(** X2. [appendToSlice] keeps the slice as a prefix of its result; the
    elements of the result are those of the slice and the values; a slice
    without duplicates gets none; and appending the same values once more
    changes nothing. *)
Theorem appendToSlice_spec dst values :
  dst `prefix_of` appendToSlice dst values
  ∧ (∀ x, x ∈ appendToSlice dst values ↔ x ∈ dst ∨ x ∈ values)
  ∧ (NoDup dst → NoDup (appendToSlice dst values))
  ∧ appendToSlice (appendToSlice dst values) values = appendToSlice dst values.
Proof.
  split; [apply appendToSlice_prefix|].
  split; [intros x; apply appendToSlice_elem|].
  split; [apply appendToSlice_NoDup|].
  apply appendToSlice_absorb. intros x Hx. apply appendToSlice_elem. by right.
Qed.

(** X3. Round trip: when the slice has no duplicates and holds none of the
    values, removing the values that were just appended gives the slice
    back. *)
Theorem removeFromSlice_appendToSlice dst values :
  NoDup dst → (∀ x, x ∈ values → x ∉ dst) →
  removeFromSlice (appendToSlice dst values) values = dst.
Proof.
  intros Hnd Hdisjoint.
  rewrite removeFromSlice_filter by (by apply appendToSlice_NoDup).
  destruct (appendToSlice_extra dst values) as (extra & -> & Hextra).
  rewrite filter_app.
  rewrite (filter_all _ dst).
  2:{ apply Forall_forall. intros x Hx Hv. by apply (Hdisjoint x). }
  assert (Hnil : filter (λ x, x ∉ values) extra = []).
  { clear -Hextra. induction extra as [|y extra IH]; [done|].
    rewrite filter_cons_False by (intros Hy; apply Hy, Hextra; left).
    apply IH. intros x Hx. apply Hextra. by right. }
  by rewrite Hnil, app_nil_r.
Qed.

End SliceHelpers.

(** The slice [a, b], to which [c, d, c] is appended and then removed. *)
Lemma removeFromSlice_appendToSlice_witness :
  utils.removeFromSlice (utils.appendToSlice ["a"; "b"] ["c"; "d"; "c"]) ["c"; "d"; "c"]
  = ["a"; "b"].
Proof.
  apply (removeFromSlice_appendToSlice ["a"; "b"] ["c"; "d"; "c"]).
  - refine (bool_decide_unpack _ _). vm_compute. exact I.
  - intros x Hx Hdst.
    assert (Hx' : x ∈ ["a"; "b"] ∧ x ∈ ["c"; "d"; "c"]) by done.
    revert Hx'. clear. rewrite !elem_of_cons, !elem_of_nil.
    intros [[->|[->|[]]] [H|[H|[H|[]]]]]; discriminate H.
Defined.

(* ===================================================================== *)
(** * More on [labelsFromSelectors] *)
(* ===================================================================== *)
Section LabelsFromSelectorsMore.
Import utils.

Lemma filter_iff_in {A} (P Q : A → Prop) `{∀ x, Decision (P x)} `{∀ x, Decision (Q x)}
    (l : list A) :
  (∀ x, x ∈ l → P x ↔ Q x) → filter P l = filter Q l.
Proof.
  induction l as [|y l IH]; intros Hiff; [done|].
  assert (IH' : filter P l = filter Q l).
  { apply IH. intros x Hx. apply Hiff. by right. }
  destruct (decide (P y)) as [HP|HP].
  - rewrite !filter_cons_True; [by rewrite IH'|apply Hiff; [left|done]|done].
  - rewrite !filter_cons_False; [done| |done].
    intros HQ. apply HP, Hiff; [left|done].
Qed.

(** X4. [labelsFromSelectors] returns, once each and in the order of their
    first use, the names of the counted matchers (those of a type among
    [matches], the matcher of [__name__] apart) that occur in as many
    counted matchers, over all the selectors, as there are selectors. *)
Theorem labelsFromSelectors_spec matches selectors :
  labelsFromSelectors matches selectors
  = filter (λ x, occurrences x (matcherNames matches selectors) = length selectors)
           (appendToSlice [] (matcherNames matches selectors)).
Proof.
  unfold labelsFromSelectors. rewrite countSelectors_foldl.
  assert (Hnd : NoDup (appendToSlice [] (matcherNames matches selectors)))
    by apply appendToSlice_NoDup, NoDup_nil_2.
  rewrite pruneNames_filter by done.
  apply filter_iff_in. intros x Hx.
  apply appendToSlice_elem in Hx as [Hx|Hx]; [by apply elem_of_nil in Hx|].
  apply occurrences_elem in Hx.
  rewrite Forall_forall. split.
  - intros Hall.
    apply (Hall (x, occurrences x (matcherNames matches selectors))); [|done].
    apply elem_of_map_to_list. rewrite addCounts_lookup, decide_False by done.
    by rewrite lookup_empty.
  - intros Hocc [k c] Hin. simpl. intros ->.
    apply elem_of_map_to_list in Hin.
    rewrite addCounts_lookup, decide_False, lookup_empty in Hin by done.
    simpl in Hin. congruence.
Qed.

(** X5. The result of [labelsFromSelectors] does not depend on the order in
    which Go ranges over the map of counters: pruning the names with the
    entries of the map taken in any order gives the same list. *)
Theorem labelsFromSelectors_any_order matches selectors entries :
  entries ≡ₚ map_to_list (addCounts ∅ (matcherNames matches selectors)) →
  pruneNames (length selectors) entries
    (appendToSlice [] (matcherNames matches selectors))
  = labelsFromSelectors matches selectors.
Proof.
  intros Hperm. unfold labelsFromSelectors. rewrite countSelectors_foldl.
  apply pruneNames_Permutation; [|done].
  apply appendToSlice_NoDup, NoDup_nil_2.
Qed.

(** X6. Every name that [labelsFromSelectors] returns is the name, other
    than [__name__], of a matcher of one of the selectors whose type is
    among [matches]. *)
Theorem labelsFromSelectors_sound matches selectors x :
  x ∈ labelsFromSelectors matches selectors →
  x ≠ labels.MetricName
  ∧ ∃ selector lm,
      selector ∈ selectors ∧ lm ∈ promParser.LabelMatchers selector
      ∧ labels.Name lm = x ∧ labels.Type_ lm ∈ matches.
Proof.
  intros [Hx _]%labelsFromSelectors_elem.
  unfold matcherNames in Hx.
  apply list_elem_of_bind in Hx as (selector & Hx & Hsel).
  apply list_elem_of_fmap in Hx as (lm & -> & Hlm).
  apply list_elem_of_filter in Hlm as [Hcounted Hlm].
  unfold countedMatcher in Hcounted.
  apply Is_true_true, andb_true_iff in Hcounted as [Hname Htype].
  apply negb_true_iff, bool_decide_eq_false in Hname.
  apply slices_Contains_true in Htype.
  split; [done|]. by exists selector, lm.
Qed.

End LabelsFromSelectorsMore.

(** The entries of the counters of [foo{job='a',instance='b'}], backwards. *)
Lemma labelsFromSelectors_any_order_witness :
  utils.pruneNames 1
    (reverse (map_to_list
       (addCounts ∅ (matcherNames utils.guaranteedLabelsMatches
                       [Examples.sum_without_selector]))))
    (utils.appendToSlice []
       (matcherNames utils.guaranteedLabelsMatches [Examples.sum_without_selector]))
  = utils.labelsFromSelectors utils.guaranteedLabelsMatches [Examples.sum_without_selector].
Proof.
  apply (labelsFromSelectors_any_order utils.guaranteedLabelsMatches
           [Examples.sum_without_selector]).
  apply reverse_Permutation.
Defined.

(** The label [job] of [foo{job='a'}]. *)
Lemma labelsFromSelectors_sound_witness :
  "job" ∈ utils.labelsFromSelectors utils.guaranteedLabelsMatches [Examples.rate_selector]
  ∧ "job" ≠ labels.MetricName
  ∧ ∃ selector lm,
      selector ∈ [Examples.rate_selector] ∧ lm ∈ promParser.LabelMatchers selector
      ∧ labels.Name lm = "job" ∧ labels.Type_ lm ∈ utils.guaranteedLabelsMatches.
Proof.
  assert (H : "job" ∈ utils.labelsFromSelectors utils.guaranteedLabelsMatches
                        [Examples.rate_selector])
    by (refine (bool_decide_unpack _ _); vm_compute; exact I).
  split; [exact H|].
  exact (labelsFromSelectors_sound utils.guaranteedLabelsMatches
           [Examples.rate_selector] "job" H).
Defined.

(* ===================================================================== *)
(** * Fragments of the query *)
(* ===================================================================== *)
Section Fragments.
Import utils.

Lemma substring_length n m s :
  n + m ≤ String.length s → String.length (substring n m s) = m.
Proof.
  revert n m. induction s as [|c s IH]; intros n m Hlen; simpl in *.
  - assert (n = 0) as -> by lia. assert (m = 0) as -> by lia. done.
  - destruct n as [|n].
    + destruct m as [|m]; [done|]. simpl. f_equal. apply (IH 0 m). lia.
    + apply IH. lia.
Qed.

Lemma append_nil_l (s : string) : String.append EmptyString s = s.
Proof. reflexivity. Qed.

Lemma append_cons c (s t : string) :
  String.append (String c s) t = String c (String.append s t).
Proof. reflexivity. Qed.

Lemma substring_split n m s :
  n + m ≤ String.length s →
  ∃ before after,
    s = String.append before (String.append (substring n m s) after)
    ∧ String.length before = n.
Proof.
  revert n m. induction s as [|c s IH]; intros n m Hlen; simpl in *.
  - assert (n = 0) as -> by lia. assert (m = 0) as -> by lia.
    by exists EmptyString, EmptyString.
  - destruct n as [|n].
    + destruct m as [|m].
      * by exists EmptyString, (String c s).
      * destruct (IH 0 m) as (before & after & Heq & Hbefore); [lia|].
        destruct before; [|done]. rewrite append_nil_l in Heq.
        exists EmptyString, after. split; [|done].
        rewrite append_nil_l, append_cons. by f_equal.
    + destruct (IH n m) as (before & after & Heq & Hbefore); [lia|].
      exists (String c before), after. split; [|by simpl; f_equal].
      rewrite append_cons. by f_equal.
Qed.

(** X7. [getQueryFragment] panics exactly when the positions do not lie
    inside the text ([0 <= Start <= End <= len expr]); otherwise it leaves
    the store alone and returns the part of the text that [Start]
    characters precede and that has [End - Start] characters. *)
Theorem getQueryFragment_spec expr pos st :
  match getQueryFragment expr pos st with
  | Done fragment st' =>
      st' = st ∧ inText expr pos
      ∧ Z.of_nat (String.length fragment)
        = (posrange.End_ pos - posrange.Start pos)%Z
      ∧ ∃ before after,
          expr = String.append before (String.append fragment after)
          ∧ Z.of_nat (String.length before) = posrange.Start pos
  | Panics p => p = SliceBoundsOutOfRange ∧ ¬ inText expr pos
  end.
Proof.
  unfold getQueryFragment, inText.
  destruct (decide _) as [Hin|Hout]; [|done].
  cbn. split; [done|]. split; [done|].
  assert (Hlen : Z.to_nat (posrange.Start pos)
                 + Z.to_nat (posrange.End_ pos - posrange.Start pos)
                 ≤ String.length expr) by lia.
  split; [rewrite substring_length by done; lia|].
  destruct (substring_split _ _ _ Hlen) as (before & after & Heq & Hbefore).
  exists before, after. split; [done|lia].
Qed.

End Fragments.

(* ===================================================================== *)
(** * Runs that return *)
(* ===================================================================== *)
Section Outcomes.
Import utils.

Lemma fmap_Done {A B} (m : M A) (f : A → B) st b st' :
  (f <$> m) st = Done b st' → ∃ a, m st = Done a st' ∧ b = f a.
Proof.
  unfold fmap, M_fmap. destruct (m st) as [a st1|p]; [|done].
  intros [= <- <-]. by exists a.
Qed.

Lemma sameOrigin_refl x : sameOrigin x x.
Proof. done. Qed.

Lemma sameOrigin_trans x y z : sameOrigin x y → sameOrigin y z → sameOrigin x z.
Proof. intros (?&?&?&?) (?&?&?&?). unfold sameOrigin. split_and!; congruence. Qed.

Lemma sameButReason_sameOrigin s s' : sameButReason s s' → sameOrigin s s'.
Proof. intros ->. done. Qed.

End Outcomes.

(* ===================================================================== *)
(** * Aggregations *)
(* ===================================================================== *)
Section Aggregations.
Import utils.
Variables math_Mod math_Pow : float → float → float.

Abbreviation walkNode := (utils.walkNode math_Mod math_Pow).

Lemma aggregateSource_frame expr grouping without pos x :
  returning (aggregateSource expr grouping without pos x)
    (λ s, Type_ s = AggregateSource ∧ Returns s = promParser.ValueTypeVector
          ∧ Call s = None ∧ sameOrigin x s ∧ Operation s = Operation x).
Proof.
  unfold aggregateSource.
  eapply returning_bind with (P := λ s, sameOrigin x s ∧ Operation s = Operation x).
  2:{ intros s [Hs Hop]. apply returning_ret. by simpl_fields. }
  destruct without.
  - eapply returning_mono; [apply returning_setReasons|].
    intros s ->. done.
  - eapply returning_bind with (P := λ s, sameOrigin x s ∧ Operation s = Operation x).
    2:{ intros s [Hs Hop]. apply returning_ret. by simpl_fields. }
    destruct (decide (length grouping = 0)).
    + eapply returning_mono; [apply returning_setReason|]. intros s ->. done.
    + eapply returning_bind with (P := λ s, sameOrigin x s ∧ Operation s = Operation x).
      2:{ intros s [Hs Hop]. apply returning_ret. by simpl_fields. }
      destruct (FixedLabels x); cbn [negb]; [by apply returning_ret|].
      eapply returning_mono; [apply returning_setReason|]. intros s ->.
      destruct (removeExcluded_spec grouping
                  (setIncludedLabels (appendToSlice (IncludedLabels x) grouping) x))
        as (el & _ & ->).
      done.
Qed.

Lemma aggregateSource_without expr L pos x :
  labelsWellFormed x →
  returning (aggregateSource expr L true pos x) (excludedBy L x).
Proof.
  intros (Hil & Hel & Hgl & _). unfold aggregateSource.
  eapply returning_bind with (P := excludedBy L x).
  2:{ intros s Hs. apply returning_ret. exact Hs. }
  eapply returning_mono; [apply returning_setReasons|].
  intros s ->. unfold excludedBy. simpl_fields. split_and!; try done.
  intros name Hname. split_and!.
  - apply appendToSlice_elem. by right.
  - by apply removeFromSlice_removed.
  - by apply removeFromSlice_removed.
Qed.

Lemma aggregateSource_no_grouping expr pos x :
  returning (aggregateSource expr [] false pos x) (allLabelsRemoved x).
Proof.
  unfold aggregateSource.
  eapply returning_bind with (P := allLabelsRemoved x).
  2:{ intros s Hs. apply returning_ret. exact Hs. }
  eapply returning_bind with
    (P := λ s, IncludedLabels s = [] ∧ GuaranteedLabels s = []
               ∧ ExcludedLabels s = ExcludedLabels x).
  2:{ intros s (?&?&?). apply returning_ret. by unfold allLabelsRemoved. }
  rewrite decide_True by done.
  eapply returning_mono; [apply returning_setReason|]. intros s ->. done.
Qed.

Lemma parseAggregation_related expr X grouping without pos st out st'
    (R : Source → Source → Prop) :
  (∀ x, labelsWellFormed x →
        returning (aggregateSource expr grouping without pos x) (R x)) →
  parseAggregation (walkNode expr) expr X grouping without pos st = Done out st' →
  ∃ inner st1, walkNode expr X st = Done inner st1 ∧ Forall2 R inner out.
Proof.
  intros Hbody Hrun. unfold parseAggregation in Hrun.
  apply bind_Done in Hrun as (inner & st1 & Hinner & Hrun).
  exists inner, st1. split; [done|].
  eapply (returning_forEachSource _ inner labelsWellFormed R); [| |exact Hrun].
  - eapply walkNode_wellFormed, Hinner.
  - done.
Qed.

Lemma walkNode_plain expr op X param grouping without pos :
  op ∈ plainAggregators →
  walkNode expr (promParser.AggregateExpr op X param grouping without pos)
  = (tagOperation (aggregatorName op)
       <$> parseAggregation (walkNode expr) expr X grouping without pos).
Proof.
  intros Hop. unfold plainAggregators in Hop.
  cbn [utils.walkNode]. unfold walkAggregation.
  repeat (apply elem_of_cons in Hop as [->|Hop]; [reflexivity|]).
  by apply elem_of_nil in Hop.
Qed.

(** The sources of an aggregation that [parseAggregation] handles and
    [walkAggregation] only tags, made one for one from the sources of its
    operand. *)
Lemma walkNode_plain_aggregation expr op X param grouping without pos st srcs st'
    (R0 R : Source → Source → Prop) :
  op ∈ plainAggregators →
  (∀ x, labelsWellFormed x →
        returning (aggregateSource expr grouping without pos x) (R0 x)) →
  (∀ x s, R0 x s → R x (setOperation (aggregatorName op) s)) →
  walkNode expr (promParser.AggregateExpr op X param grouping without pos) st
  = Done srcs st' →
  ∃ inner st1, walkNode expr X st = Done inner st1 ∧ Forall2 R inner srcs.
Proof.
  intros Hop Hbody Htag Hrun.
  rewrite walkNode_plain in Hrun by done.
  apply fmap_Done in Hrun as (out & Hrun & ->).
  destruct (parseAggregation_related _ _ _ _ _ _ _ _ R0 Hbody Hrun)
    as (inner & st1 & Hinner & Hout).
  exists inner, st1. split; [done|].
  unfold tagOperation. clear -Hout Htag.
  induction Hout; constructor; [by apply Htag|done].
Qed.

Lemma Forall2_compose {A B C} (R : A → B → Prop) (S : B → C → Prop)
    (T : A → C → Prop) l1 l2 l3 :
  (∀ a b c, R a b → S b c → T a c) →
  Forall2 R l1 l2 → Forall2 S l2 l3 → Forall2 T l1 l3.
Proof.
  intros HT H12. revert l3. induction H12 as [|a b l1 l2 Hab _ IH]; intros l3 H23.
  - inversion H23. constructor.
  - inversion H23 as [|? c ? l3' Hbc H23']; subst. constructor; [by eapply HT|by apply IH].
Qed.

(** The body of the loop of [walkAggregation] for [count_values]. *)
Lemma countValues_body param x :
  returning
    (let s := setOperation "count_values" x in
     val ← stringLiteralVal param;
     let s := setGuaranteedLabels (appendToSlice (GuaranteedLabels s) [val]) s in
     val ← stringLiteralVal param;
     let s := setIncludedLabels (appendToSlice (IncludedLabels s) [val]) s in
     val ← stringLiteralVal param;
     let s := setExcludedLabels (removeFromSlice (ExcludedLabels s) [val]) s in
     val ← stringLiteralVal param;
     _ ← deleteInMap (ExcludeReason s) val;
     mret s)
    (λ s, ∃ val vpos,
       param = Some (promParser.StringLiteral val vpos)
       ∧ s = setExcludedLabels (removeFromSlice (ExcludedLabels x) [val])
               (setIncludedLabels (appendToSlice (IncludedLabels x) [val])
                  (setGuaranteedLabels (appendToSlice (GuaranteedLabels x) [val])
                     (setOperation "count_values" x)))).
Proof.
  cbv zeta.
  apply stringLiteralVal_bind; intros v1 p1 E1.
  apply stringLiteralVal_bind; intros v2 p2 E2.
  apply stringLiteralVal_bind; intros v3 p3 E3.
  apply stringLiteralVal_bind; intros v4 p4 E4.
  eapply returning_bind; [apply returning_True|]. intros _ _.
  apply returning_ret.
  rewrite E1 in E2, E3. injection E2 as <- _. injection E3 as <- _.
  by exists v1, p1.
Qed.

Ltac decide_handled :=
  match goal with
  | |- context [bool_decide (?op ∈ handledAggregators)] =>
      let b := eval vm_compute in (bool_decide (op ∈ handledAggregators)) in
      change (bool_decide (op ∈ handledAggregators)) with b; cbv iota
  end.

(** X8. Unless it panics, an aggregation whose operator [walkAggregation] has
    a case for emits one source for each source of its operand, in order:
    an aggregate tagged with the name of the operator, with the selectors,
    the returned numbers and the flags [IsDead] and [AlwaysReturns] of that
    source, and, [topk] and [bottomk] apart, returning a vector and without
    a call.  For any other operator ([limitk], [limit_ratio]) it emits
    nothing and does not walk the operand. *)
Theorem walkNode_aggregation expr op X param grouping without pos st srcs st' :
  walkNode expr (promParser.AggregateExpr op X param grouping without pos) st
  = Done srcs st' →
  if bool_decide (op ∈ handledAggregators)
  then ∃ inner st1,
         walkNode expr X st = Done inner st1 ∧ Forall2 (aggregated op) inner srcs
  else srcs = [] ∧ st' = st.
Proof.
  intros Hrun.
  destruct (decide (op ∈ plainAggregators)) as [Hplain|Hother].
  - rewrite bool_decide_eq_true_2.
    2:{ unfold plainAggregators in Hplain. unfold handledAggregators.
        repeat (apply elem_of_cons in Hplain as [->|Hplain];
                [refine (bool_decide_unpack _ _); vm_compute; exact I|]).
        by apply elem_of_nil in Hplain. }
    eapply (walkNode_plain_aggregation _ _ _ _ _ _ _ _ _ _ _ (aggregated op)
              Hplain (λ x _, aggregateSource_frame expr grouping without pos x));
      [|exact Hrun].
    intros x s (Htype & Hreturns & Hcall & Horigin & _).
    unfold aggregated. by simpl_fields.
  - destruct op; try (exfalso; apply Hother; refine (bool_decide_unpack _ _);
                      vm_compute; exact I);
      cbn [utils.walkNode] in Hrun; unfold walkAggregation in Hrun;
      decide_handled; try (by injection Hrun as <- <-).
    + (* bottomk *)
      apply bind_Done in Hrun as (inner & st1 & Hinner & [= <- <-]).
      exists inner, st1. split; [done|].
      apply Forall2_fmap_r, Forall_Forall2_diag, Forall_forall. intros x _.
      unfold aggregated. simpl_fields. split_and!; try done.
      intros Hno. exfalso. apply Hno. right. left.
    + (* count_values *)
      apply bind_Done in Hrun as (mid & st1 & Hmid & Hrun).
      destruct (parseAggregation_related _ _ _ _ _ _ _ _ _
                  (λ x _, aggregateSource_frame expr grouping without pos x) Hmid)
        as (inner & st0 & Hinner & Hout).
      exists inner, st0. split; [done|].
      eapply Forall2_compose; [|exact Hout|].
      2:{ eapply (returning_forEachSource _ mid (λ _, True)); [| |exact Hrun].
          - by apply Forall_forall.
          - intros x _. exact (countValues_body param x). }
      intros x m s (Htype & Hreturns & Hcall & Horigin & _) (val & vpos & _ & ->).
      unfold aggregated. by simpl_fields.
    + (* topk *)
      apply bind_Done in Hrun as (inner & st1 & Hinner & [= <- <-]).
      exists inner, st1. split; [done|].
      apply Forall2_fmap_r, Forall_Forall2_diag, Forall_forall. intros x _.
      unfold aggregated. simpl_fields. split_and!; try done.
      intros Hno. exfalso. apply Hno. left.
Qed.

(** X9. Unless it panics, [op without(L) (X)], for the operators that
    [parseAggregation] handles and [walkAggregation] only tags, emits one
    source for each source of [X]: [L] is appended to its excluded labels
    and removed from its included and its guaranteed labels, so that every
    name of [L] is excluded and neither included nor guaranteed;
    [FixedLabels] is kept. *)
Theorem walkNode_without expr op X param L pos st srcs st' :
  op ∈ plainAggregators →
  walkNode expr (promParser.AggregateExpr op X param L true pos) st = Done srcs st' →
  ∃ inner st1, walkNode expr X st = Done inner st1 ∧ Forall2 (excludedBy L) inner srcs.
Proof.
  intros Hop Hrun.
  eapply (walkNode_plain_aggregation _ _ _ _ _ _ _ _ _ _ (excludedBy L) (excludedBy L)
            Hop); [| |exact Hrun].
  - intros x Hx. by apply aggregateSource_without.
  - intros x s Hs. exact Hs.
Qed.

(** X10. Unless it panics, an aggregation with neither [by] nor [without], for
    the operators that [walkAggregation] only tags, emits one source for
    each source of its operand, with no included and no guaranteed label,
    the excluded labels of that source, and [FixedLabels] set. *)
Theorem walkNode_no_grouping expr op X param pos st srcs st' :
  op ∈ plainAggregators →
  walkNode expr (promParser.AggregateExpr op X param [] false pos) st = Done srcs st' →
  ∃ inner st1,
    walkNode expr X st = Done inner st1 ∧ Forall2 allLabelsRemoved inner srcs.
Proof.
  intros Hop Hrun.
  eapply (walkNode_plain_aggregation _ _ _ _ _ _ _ _ _ _ allLabelsRemoved
            allLabelsRemoved Hop); [| |exact Hrun].
  - intros x _. apply aggregateSource_no_grouping.
  - intros x s Hs. exact Hs.
Qed.

(** X11. When the walk of a [count_values] aggregation returns sources, the
    parameter of the aggregation is a string literal, and in every source
    the label it names is guaranteed, included and not excluded. *)
Theorem walkNode_count_values expr X param grouping without pos st srcs st' :
  walkNode expr
    (promParser.AggregateExpr promParser.COUNT_VALUES X param grouping without pos) st
  = Done srcs st' →
  srcs = []
  ∨ ∃ val vpos,
      param = Some (promParser.StringLiteral val vpos)
      ∧ Forall (λ s, Operation s = "count_values"
                     ∧ val ∈ GuaranteedLabels s ∧ val ∈ IncludedLabels s
                     ∧ val ∉ ExcludedLabels s) srcs.
Proof.
  intros Hrun. cbn [utils.walkNode] in Hrun. unfold walkAggregation in Hrun.
  apply bind_Done in Hrun as (mid & st1 & Hmid & Hrun).
  assert (Hwf : Forall labelsWellFormed mid).
  { destruct (parseAggregation_related _ _ _ _ _ _ _ _ (λ _, labelsWellFormed)
                (aggregateSource_wellFormed expr grouping without pos) Hmid)
      as (inner & st0 & _ & Hout).
    clear -Hout. induction Hout; constructor; done. }
  assert (Hall : Forall (λ s, ∃ val vpos,
                   param = Some (promParser.StringLiteral val vpos)
                   ∧ Operation s = "count_values"
                   ∧ val ∈ GuaranteedLabels s ∧ val ∈ IncludedLabels s
                   ∧ val ∉ ExcludedLabels s) srcs).
  { eapply (returning_forEachSource_Forall _ mid labelsWellFormed); [exact Hwf| |exact Hrun].
    intros x (_ & Hel & _). eapply returning_mono; [exact (countValues_body param x)|].
    intros s (val & vpos & Hparam & ->). exists val, vpos. simpl_fields.
    split_and!; try done.
    - apply appendToSlice_elem. right. left.
    - apply appendToSlice_elem. right. left.
    - apply removeFromSlice_removed; [done|left]. }
  destruct srcs as [|s srcs]; [by left|right].
  pose proof (Forall_inv Hall) as (val & vpos & Hparam & _).
  exists val, vpos. split; [done|].
  eapply Forall_impl; [exact Hall|].
  intros s' (val' & vpos' & Hparam' & Hs'). simpl in Hs'.
  rewrite Hparam in Hparam'. by injection Hparam' as <- <-.
Qed.

End Aggregations.

(** [sum without(job) (foo{job='a',instance='b'})] *)
Lemma walkNode_aggregation_witness :
  ∃ srcs st',
    utils.walkNode Examples.unusedMod Examples.unusedPow Examples.sum_without_text
      Examples.sum_without utils.emptyStore = utils.Done srcs st'
    ∧ ∃ inner st1,
        utils.walkNode Examples.unusedMod Examples.unusedPow Examples.sum_without_text
          (promParser.VectorSelectorExpr Examples.sum_without_selector) utils.emptyStore
        = utils.Done inner st1
        ∧ Forall2 (aggregated promParser.SUM) inner srcs.
Proof.
  eexists _, _. split; [vm_compute; reflexivity|].
  refine (walkNode_aggregation Examples.unusedMod Examples.unusedPow
            Examples.sum_without_text promParser.SUM
            (promParser.VectorSelectorExpr Examples.sum_without_selector)
            None ["job"] true (Examples.pos 0 44) utils.emptyStore _ _ _).
  vm_compute. reflexivity.
Defined.

(** [sum without(job) (foo{job='a',instance='b'})] *)
Lemma walkNode_without_witness :
  ∃ srcs st',
    utils.walkNode Examples.unusedMod Examples.unusedPow Examples.sum_without_text
      Examples.sum_without utils.emptyStore = utils.Done srcs st'
    ∧ ∃ inner st1,
        utils.walkNode Examples.unusedMod Examples.unusedPow Examples.sum_without_text
          (promParser.VectorSelectorExpr Examples.sum_without_selector) utils.emptyStore
        = utils.Done inner st1
        ∧ Forall2 (excludedBy ["job"]) inner srcs.
Proof.
  eexists _, _. split; [vm_compute; reflexivity|].
  eapply (walkNode_without Examples.unusedMod Examples.unusedPow
            Examples.sum_without_text promParser.SUM
            (promParser.VectorSelectorExpr Examples.sum_without_selector)
            None ["job"] (Examples.pos 0 44) utils.emptyStore).
  - refine (bool_decide_unpack _ _). vm_compute. exact I.
  - vm_compute. reflexivity.
Defined.

(** [sum(foo{job='a'})] *)
Lemma walkNode_no_grouping_witness :
  ∃ srcs st',
    utils.walkNode Examples.unusedMod Examples.unusedPow Examples.sum_all_text
      Examples.sum_all utils.emptyStore = utils.Done srcs st'
    ∧ ∃ inner st1,
        utils.walkNode Examples.unusedMod Examples.unusedPow Examples.sum_all_text
          (promParser.VectorSelectorExpr Examples.sum_all_selector) utils.emptyStore
        = utils.Done inner st1
        ∧ Forall2 allLabelsRemoved inner srcs.
Proof.
  eexists _, _. split; [vm_compute; reflexivity|].
  eapply (walkNode_no_grouping Examples.unusedMod Examples.unusedPow
            Examples.sum_all_text promParser.SUM
            (promParser.VectorSelectorExpr Examples.sum_all_selector)
            None (Examples.pos 0 17) utils.emptyStore).
  - refine (bool_decide_unpack _ _). vm_compute. exact I.
  - vm_compute. reflexivity.
Defined.

(** [count_values('version', build_info)] *)
Lemma walkNode_count_values_witness :
  ∃ srcs st',
    utils.walkNode Examples.unusedMod Examples.unusedPow Examples.count_values_text
      Examples.count_values utils.emptyStore = utils.Done srcs st'
    ∧ srcs ≠ []
    ∧ (srcs = []
       ∨ ∃ val vpos,
           Some Examples.count_values_param = Some (promParser.StringLiteral val vpos)
           ∧ Forall (λ s, utils.Operation s = "count_values"
                          ∧ val ∈ utils.GuaranteedLabels s ∧ val ∈ utils.IncludedLabels s
                          ∧ val ∉ utils.ExcludedLabels s) srcs).
Proof.
  eexists _, _. split; [vm_compute; reflexivity|]. split; [discriminate|].
  eapply (walkNode_count_values Examples.unusedMod Examples.unusedPow
            Examples.count_values_text
            (promParser.VectorSelectorExpr Examples.count_values_selector)
            (Some Examples.count_values_param) [] false (Examples.pos 0 35)
            utils.emptyStore).
  vm_compute. reflexivity.
Defined.

(* ===================================================================== *)
(** * The cases of [parseCall] *)
(* ===================================================================== *)
Section CallProperties.
Import utils.
Variables math_Mod math_Pow : float → float → float.

Abbreviation walkNode := (utils.walkNode math_Mod math_Pow).

Lemma appendToSlice_NoDup_app dst l :
  NoDup (dst ++ l) → appendToSlice dst l = dst ++ l.
Proof.
  revert dst. induction l as [|v l IH]; intros dst Hnd.
  - by rewrite app_nil_r.
  - rewrite appendToSlice_unfold.
    rewrite (proj2 (slices_Contains_false dst v)).
    + rewrite IH; rewrite <- app_assoc; done.
    + apply NoDup_app in Hnd as (_ & Hdisj & _). intros Hv.
      apply (Hdisj v Hv). left.
Qed.

Lemma appendToSlice_nil_NoDup l : NoDup l → appendToSlice [] l = l.
Proof. intros Hnd. by rewrite appendToSlice_NoDup_app. Qed.

Lemma getQueryFragment_Done expr pos st fragment st' :
  getQueryFragment expr pos st = Done fragment st' → st' = st ∧ inText expr pos.
Proof.
  unfold getQueryFragment, inText. destruct (decide _); [|done].
  by intros [= <- <-].
Qed.

Lemma getQueryFragment_any_store expr pos st fragment st' st2 :
  getQueryFragment expr pos st = Done fragment st' →
  getQueryFragment expr pos st2 = Done fragment st2.
Proof.
  unfold getQueryFragment. destruct (decide _); [|done].
  by intros [= <- <-].
Qed.

Lemma setInMap_Done dst key val st m st' :
  setInMap dst key val st = Done m st' →
  reasonsOf st' m !! key = Some val ∧ numbers st' = numbers st.
Proof.
  unfold setInMap. destruct dst as [r|].
  - destruct (reasons st !! r) as [old|] eqn:Hold; [|done].
    intros [= <- <-]. cbn. split; [|done].
    rewrite list_lookup_insert_eq by (by eapply lookup_lt_Some).
    apply lookup_insert_eq.
  - intros [= <- <-]. cbn. split; [|done].
    rewrite lookup_app_r, Nat.sub_diag by done. apply lookup_insert_eq.
Qed.

(** [setReason] records the reason and the fragment under the key, and
    leaves the rest of the source alone. *)
Lemma setReason_Done expr key reason pos s st s' st' :
  setReason expr key reason pos s st = Done s' st' →
  sameButReason s s'
  ∧ numbers st' = numbers st
  ∧ ∃ fragment,
      getQueryFragment expr pos st = Done fragment st
      ∧ recordedReason st' s' key
        = Some {| Reason := reason; Fragment := fragment |}.
Proof.
  unfold setReason. intros Hrun.
  apply bind_Done in Hrun as (fragment & st1 & Hfrag & Hrun).
  apply bind_Done in Hrun as (m & st2 & Hset & [= <- <-]).
  split; [apply sameButReason_set|].
  pose proof (getQueryFragment_Done _ _ _ _ _ Hfrag) as [-> _].
  apply setInMap_Done in Hset as [Hkey Hnums].
  split; [done|]. by exists fragment.
Qed.

Ltac known_case E :=
  apply bool_decide_eq_true in E;
  repeat (apply elem_of_cons in E as [E|E];
          [rewrite E; refine (bool_decide_unpack _ _); vm_compute; exact I|]);
  by apply elem_of_nil in E.

(** X12. Unless it panics, a call emits one source: of type [FuncSource],
    tagged with the name of the function, with no excluded label and not
    dead.  When [parseCall] has a case for the function the source records
    the call and returns a vector or a scalar; for any other function it
    records no call, returns [ValueTypeNone], and has no labels, no reasons
    and no numbers. *)
Theorem walkNode_call expr f args pos st srcs st' :
  walkNode expr (promParser.Call f args pos) st = Done srcs st' →
  ∃ s, srcs = [s]
       ∧ Type_ s = FuncSource ∧ Operation s = promParser.Name f
       ∧ ExcludedLabels s = [] ∧ IsDead s = false
       ∧ if bool_decide (promParser.Name f ∈ knownFunctions)
         then Call s = Some (promParser.Call f args pos)
              ∧ Returns s ∈ [promParser.ValueTypeVector; promParser.ValueTypeScalar]
         else Call s = None ∧ Returns s = promParser.ValueTypeNone
              ∧ IncludedLabels s = [] ∧ GuaranteedLabels s = []
              ∧ FixedLabels s = false ∧ AlwaysReturns s = false
              ∧ ExcludeReason s = None ∧ ReturnedNumbers s = None.
Proof.
  revert st srcs st'. cbn [utils.walkNode].
  eapply returning_bind with
    (P := λ s, Type_ s = FuncSource ∧ Operation s = promParser.Name f
               ∧ ExcludedLabels s = [] ∧ IsDead s = false
               ∧ if bool_decide (promParser.Name f ∈ knownFunctions)
                 then Call s = Some (promParser.Call f args pos)
                      ∧ Returns s ∈ [promParser.ValueTypeVector;
                                     promParser.ValueTypeScalar]
                 else Call s = None ∧ Returns s = promParser.ValueTypeNone
                      ∧ IncludedLabels s = [] ∧ GuaranteedLabels s = []
                      ∧ FixedLabels s = false ∧ AlwaysReturns s = false
                      ∧ ExcludeReason s = None ∧ ReturnedNumbers s = None).
  2:{ intros s Hs. apply returning_ret. by exists s. }
  unfold parseCall.
  eapply returning_bind; [apply gatherSelectors_spec|].
  intros s [sels ->].
  assert (Hvector : promParser.ValueTypeVector
                    ∈ [promParser.ValueTypeVector; promParser.ValueTypeScalar]) by left.
  assert (Hscalar : promParser.ValueTypeScalar
                    ∈ [promParser.ValueTypeVector; promParser.ValueTypeScalar])
    by (right; left).
  repeat match goal with
         | |- returning (if isCase ?a ?l then _ else _) _ =>
             let E := fresh "E" in
             destruct (isCase a l) eqn:E;
             [ assert (bool_decide (promParser.Name f ∈ knownFunctions) = true) as ->
                 by (apply bool_decide_eq_true; clear -E; known_case E) | ]
         end.
  all: try (apply returning_ret; unfold noChangeToLabels; by simpl_fields).
  all: try (unfold scalarNoLabels;
            eapply returning_mono; [apply returning_setReason|];
            intros s' ->; by simpl_fields).
  - (* absent, absent_over_time *)
    eapply returning_mono; [apply returning_setReason|].
    intros s' ->. rewrite absentLabels_spec. by simpl_fields.
  - (* days_in_month, ... *)
    destruct (decide (length args = 0)); [|apply returning_ret; by simpl_fields].
    eapply returning_mono; [apply returning_setReason|]. intros s' ->. by simpl_fields.
  - (* label_replace, label_join *)
    eapply returning_bind; [apply returning_True|]. intros arg _.
    apply stringLiteralVal_bind. intros dst p _.
    apply returning_ret. unfold noChangeToLabels. by simpl_fields.
  - (* vector *)
    eapply returning_bind; [apply returning_True|]. intros arg _.
    eapply returning_bind with
      (P := λ s', Type_ s' = FuncSource ∧ Operation s' = promParser.Name f
                  ∧ ExcludedLabels s' = [] ∧ IsDead s' = false
                  ∧ Call s' = Some (promParser.Call f args pos)
                  ∧ Returns s' = promParser.ValueTypeVector).
    + destruct arg; try (by apply returning_ret).
      eapply returning_bind; [apply returning_True|]. intros nums _.
      by apply returning_ret.
    + intros s1 (?&?&?&?&?&Hret).
      eapply returning_mono; [apply returning_setReason|].
      intros s' ->. simpl_fields. rewrite Hret. by split_and!.
  - (* a function without a case *)
    rewrite bool_decide_eq_false_2.
    + apply returning_ret. by simpl_fields.
    + intros Hknown. unfold knownFunctions, labelPreserving in Hknown.
      cbn [app] in Hknown.
      repeat match goal with
             | E : isCase _ _ = false |- _ => apply bool_decide_eq_false in E
             end.
      repeat (apply elem_of_cons in Hknown as [Hknown|Hknown];
              [rewrite Hknown in *;
               match goal with
               | E : ¬ (_ ∈ _) |- _ =>
                   solve [apply E; refine (bool_decide_unpack _ _); vm_compute; exact I]
               end|]).
      by apply elem_of_nil in Hknown.
Qed.

Ltac run_cases_in H :=
  repeat match type of H with
         | context [isCase ?a ?l] =>
             let b := eval vm_compute in (isCase a l) in
             change (isCase a l) with b in H; cbv iota in H
         end.

(** The run of a call: the first loop, then the switch on the name. *)
Lemma walkNode_call_Done expr f args pos st srcs st' :
  walkNode expr (promParser.Call f args pos) st = Done srcs st' →
  ∃ s, srcs = [s]
       ∧ parseCall (walkNode expr) expr f args pos st = Done s st'.
Proof.
  cbn [utils.walkNode]. intros Hrun.
  apply bind_Done in Hrun as (s & st1 & Hcall & [= <- <-]). by exists s.
Qed.

(** X13. Unless it panics, a call to [absent] or [absent_over_time] emits one
    source that returns a vector, has fixed labels and does not always
    return; its included and its guaranteed labels are the names that
    [labelsFromSelectors] keeps of the Equal matchers of its selectors; it
    has no excluded label; and under the empty key its reasons hold the
    reason of [absent] with the text of the call. *)
Theorem walkNode_absent expr f args pos st srcs st' :
  promParser.Name f ∈ ["absent"; "absent_over_time"] →
  walkNode expr (promParser.Call f args pos) st = Done srcs st' →
  ∃ s fragment,
    srcs = [s]
    ∧ Returns s = promParser.ValueTypeVector
    ∧ FixedLabels s = true ∧ AlwaysReturns s = false
    ∧ IncludedLabels s = labelsFromSelectors [labels.MatchEqual] (Selectors s)
    ∧ GuaranteedLabels s = labelsFromSelectors [labels.MatchEqual] (Selectors s)
    ∧ ExcludedLabels s = []
    ∧ getQueryFragment expr pos st' = Done fragment st'
    ∧ recordedReason st' s EmptyString
      = Some {| Reason := reasonAbsent (promParser.Name f); Fragment := fragment |}.
Proof.
  intros Hname Hrun.
  apply walkNode_call_Done in Hrun as (s & -> & Hrun).
  unfold parseCall in Hrun. cbv zeta in Hrun.
  apply bind_Done in Hrun as (s0 & st0 & Hgather & Hrun).
  apply gatherSelectors_spec in Hgather as [sels Hs0].
  assert (Hsels : Selectors s0 = sels) by (by rewrite Hs0).
  assert (Hfields : IncludedLabels s0 = [] ∧ GuaranteedLabels s0 = []
                    ∧ ExcludedLabels s0 = [] ∧ AlwaysReturns s0 = false)
    by (by rewrite Hs0).
  clear Hs0.
  assert (Hset : setReason expr EmptyString (reasonAbsent (promParser.Name f)) pos
            (foldl (λ s name,
               let s := setIncludedLabels (appendToSlice (IncludedLabels s) [name]) s in
               setGuaranteedLabels (appendToSlice (GuaranteedLabels s) [name]) s)
               (setFixedLabels true (setReturns promParser.ValueTypeVector s0))
               (labelsFromSelectors [labels.MatchEqual]
                  (Selectors (setFixedLabels true
                                (setReturns promParser.ValueTypeVector s0))))) st0
            = Done s st').
  { repeat (apply elem_of_cons in Hname as [Hname|Hname];
            [rewrite Hname in *; run_cases_in Hrun; exact Hrun|]).
    by apply elem_of_nil in Hname. }
  clear Hrun. rewrite absentLabels_spec in Hset.
  apply setReason_Done in Hset as (-> & _ & fragment & Hfrag & Hreason).
  destruct Hfields as (Hil & Hgl & Hel & Har).
  eexists _, fragment. split; [reflexivity|].
  simpl_fields. rewrite Hil, Hgl, Hel, Har.
  rewrite !appendToSlice_nil_NoDup by apply labelsFromSelectors_NoDup.
  split_and!; try done.
  by eapply getQueryFragment_any_store.
Qed.

Ltac enter_call Hrun s s0 st0 sels Hs0 :=
  apply walkNode_call_Done in Hrun as (s & -> & Hrun);
  unfold parseCall in Hrun; cbv zeta in Hrun;
  apply bind_Done in Hrun as (s0 & st0 & Hgather & Hrun);
  apply gatherSelectors_spec in Hgather as [sels Hs0].

(** X14. A call to [vector] without arguments panics, the index being out of
    range.  With arguments, and unless it panics, it emits one source that
    returns a vector, has no labels and always returns; its returned
    numbers are the value of the first argument when that is a number
    literal, and none otherwise; under the empty key its reasons hold the
    reason of [vector] with the text of the call. *)
Theorem walkNode_vector_call expr f args pos st :
  promParser.Name f = "vector" →
  match args with
  | [] => walkNode expr (promParser.Call f args pos) st = Panics IndexOutOfRange
  | arg :: _ =>
      ∀ srcs st',
        walkNode expr (promParser.Call f args pos) st = Done srcs st' →
        ∃ s fragment,
          srcs = [s]
          ∧ Returns s = promParser.ValueTypeVector
          ∧ noLabels s ∧ AlwaysReturns s = true
          ∧ match arg with
            | promParser.NumberLiteral val _ =>
                readNumbers (ReturnedNumbers s) st' = Done [val] st'
            | _ => ReturnedNumbers s = None
            end
          ∧ getQueryFragment expr pos st' = Done fragment st'
          ∧ recordedReason st' s EmptyString
            = Some {| Reason := reasonVector "vector"; Fragment := fragment |}
  end.
Proof.
  intros Hname. destruct args as [|arg rest].
  - cbn [utils.walkNode]. unfold parseCall. cbv zeta. cbn [gatherSelectors].
    rewrite Hname. reflexivity.
  - intros srcs st' Hrun. enter_call Hrun s s0 st0 sels Hs0.
    rewrite Hname in Hrun. run_cases_in Hrun. cbn [lookup list_lookup from_option] in Hrun.
    apply bind_Done in Hrun as (arg' & st1 & [= <- <-] & Hrun).
    apply bind_Done in Hrun as (s1 & st1 & Hnum & Hrun).
    apply setReason_Done in Hrun as (-> & Hnums & fragment & Hfrag & Hreason).
    assert (Hs1 : noLabels s1 ∧ AlwaysReturns s1 = true
                  ∧ Returns s1 = promParser.ValueTypeVector
                  ∧ match arg with
                    | promParser.NumberLiteral val _ =>
                        readNumbers (ReturnedNumbers s1) st1 = Done [val] st1
                    | _ => ReturnedNumbers s1 = None
                    end).
    { rewrite Hs0 in Hnum. unfold noLabels.
      destruct arg; try (injection Hnum as <- <-; by simpl_fields).
      apply bind_Done in Hnum as (nums & st2 & Hnum & [= <- <-]).
      simpl_fields. unfold appendNumber in Hnum. simpl_fields.
      injection Hnum as <- <-. split_and!; try done.
      unfold readNumbers. cbn [numbers].
      by rewrite lookup_app_r, Nat.sub_diag by done. }
    destruct Hs1 as ((Hil & Hel & Hgl & Hfixed) & Har & Hret & Hnumbers).
    eexists _, fragment. split; [reflexivity|]. unfold noLabels in *. simpl_fields.
    split_and!; try done.
    + destruct arg; try done. unfold readNumbers in *. rewrite Hnums.
      destruct (ReturnedNumbers s1) as [r|]; [|done].
      destruct (numbers st1 !! r); [|done]. by injection Hnumbers as ->.
    + by eapply getQueryFragment_any_store.
Qed.

(** X15. Unless it panics, a call to a function of date and time
    ([days_in_month], ..., [year]) emits one source that returns a vector.
    Without arguments the source has no labels, always returns, and records
    the reason under the empty key; with arguments its guaranteed labels are
    those of its selectors, it has no included and no excluded label, its
    labels are not fixed, and it records no reason. *)
Theorem walkNode_calendar_call expr f args pos st srcs st' :
  promParser.Name f ∈ calendarFunctions →
  walkNode expr (promParser.Call f args pos) st = Done srcs st' →
  ∃ s, srcs = [s]
       ∧ Returns s = promParser.ValueTypeVector
       ∧ match args with
         | [] =>
             noLabels s ∧ AlwaysReturns s = true
             ∧ ∃ fragment,
                 getQueryFragment expr pos st' = Done fragment st'
                 ∧ recordedReason st' s EmptyString
                   = Some {| Reason := reasonNoArguments (promParser.Name f);
                             Fragment := fragment |}
         | _ :: _ =>
             GuaranteedLabels s
             = labelsFromSelectors guaranteedLabelsMatches (Selectors s)
             ∧ IncludedLabels s = [] ∧ ExcludedLabels s = []
             ∧ FixedLabels s = false ∧ AlwaysReturns s = false
             ∧ ExcludeReason s = None
         end.
Proof.
  intros Hname Hrun. enter_call Hrun s s0 st0 sels Hs0.
  assert (Hset :
    (if decide (length args = 0) then
       setReason expr EmptyString (reasonNoArguments (promParser.Name f)) pos
         (setGuaranteedLabels [] (setIncludedLabels [] (setAlwaysReturns true
            (setFixedLabels true (setReturns promParser.ValueTypeVector s0)))))
     else
       mret (setGuaranteedLabels
               (appendToSlice (GuaranteedLabels (setReturns promParser.ValueTypeVector s0))
                  (labelsFromSelectors guaranteedLabelsMatches
                     (Selectors (setReturns promParser.ValueTypeVector s0))))
               (setReturns promParser.ValueTypeVector s0))) st0 = Done s st').
  { unfold calendarFunctions in Hname.
    repeat (apply elem_of_cons in Hname as [Hname|Hname];
            [rewrite Hname in *; run_cases_in Hrun; exact Hrun|]).
    by apply elem_of_nil in Hname. }
  clear Hrun. destruct args as [|arg rest].
  - rewrite decide_True in Hset by done.
    apply setReason_Done in Hset as (-> & _ & fragment & Hfrag & Hreason).
    eexists. split; [reflexivity|]. unfold noLabels. simpl_fields.
    rewrite Hs0. simpl_fields. split_and!; try done.
    exists fragment. split; [|done]. by eapply getQueryFragment_any_store.
  - rewrite decide_False in Hset by done. injection Hset as <- <-.
    eexists. split; [reflexivity|]. simpl_fields.
    rewrite Hs0. simpl_fields.
    rewrite appendToSlice_nil_NoDup by apply labelsFromSelectors_NoDup. done.
Qed.

(** X16. When the walk of a call to [label_replace] or [label_join] returns,
    the second argument of the call is a string literal, and the label it
    names is guaranteed: the guaranteed labels of the one source are those
    of its selectors, followed by that label unless it is among them.  The
    source returns a vector and has no included and no excluded label. *)
Theorem walkNode_label_replace expr f args pos st srcs st' :
  promParser.Name f ∈ ["label_replace"; "label_join"] →
  walkNode expr (promParser.Call f args pos) st = Done srcs st' →
  ∃ s dst dpos,
    srcs = [s]
    ∧ args !! 1 = Some (promParser.StringLiteral dst dpos)
    ∧ Returns s = promParser.ValueTypeVector
    ∧ GuaranteedLabels s
      = appendToSlice (labelsFromSelectors guaranteedLabelsMatches (Selectors s)) [dst]
    ∧ dst ∈ GuaranteedLabels s
    ∧ IncludedLabels s = [] ∧ ExcludedLabels s = [] ∧ FixedLabels s = false.
Proof.
  intros Hname Hrun. enter_call Hrun s s0 st0 sels Hs0.
  assert (Hset :
    (arg ← from_option mret (panic IndexOutOfRange) (args !! 1);
     dst ← stringLiteralVal (Some arg);
     mret (setGuaranteedLabels
             (appendToSlice (GuaranteedLabels (noChangeToLabels s0)) [dst])
             (noChangeToLabels s0))) st0 = Done s st').
  { repeat (apply elem_of_cons in Hname as [Hname|Hname];
            [rewrite Hname in *; run_cases_in Hrun; exact Hrun|]).
    by apply elem_of_nil in Hname. }
  clear Hrun.
  apply bind_Done in Hset as (arg & st1 & Harg & Hset).
  destruct (args !! 1) as [arg'|] eqn:Hlookup; [|done].
  injection Harg as -> ->.
  apply bind_Done in Hset as (dst & st2 & Hdst & [= <- <-]).
  destruct arg as [| | | | | | |val dpos| | |]; try done.
  injection Hdst as -> ->.
  eexists _, dst, dpos. split; [reflexivity|]. split; [done|].
  unfold noChangeToLabels. simpl_fields. rewrite Hs0. simpl_fields.
  rewrite appendToSlice_nil_NoDup by apply labelsFromSelectors_NoDup.
  split_and!; try done.
  apply appendToSlice_elem. right. left.
Qed.

End CallProperties.

(** [rate(foo{job='a'}[5m])] *)
Lemma walkNode_call_witness :
  ∃ srcs st',
    utils.walkNode Examples.unusedMod Examples.unusedPow Examples.rate_text
      Examples.rate_call utils.emptyStore = utils.Done srcs st'
    ∧ ∃ s, srcs = [s]
           ∧ utils.Type_ s = utils.FuncSource
           ∧ utils.Operation s = promParser.Name Examples.f_rate
           ∧ utils.ExcludedLabels s = [] ∧ utils.IsDead s = false
           ∧ utils.Call s = Some Examples.rate_call
           ∧ utils.Returns s ∈ [promParser.ValueTypeVector; promParser.ValueTypeScalar].
Proof.
  eexists _, _. split; [vm_compute; reflexivity|].
  refine (walkNode_call Examples.unusedMod Examples.unusedPow Examples.rate_text
            Examples.f_rate Examples.rate_args (Examples.pos 0 22) utils.emptyStore
            _ _ _).
  vm_compute. reflexivity.
Defined.

(** [absent(foo{job='a'})] *)
Lemma walkNode_absent_witness :
  ∃ srcs st',
    utils.walkNode Examples.unusedMod Examples.unusedPow Examples.absent_text
      Examples.absent utils.emptyStore = utils.Done srcs st'
    ∧ ∃ s fragment,
        srcs = [s]
        ∧ utils.Returns s = promParser.ValueTypeVector
        ∧ utils.FixedLabels s = true ∧ utils.AlwaysReturns s = false
        ∧ utils.IncludedLabels s
          = utils.labelsFromSelectors [labels.MatchEqual] (utils.Selectors s)
        ∧ utils.GuaranteedLabels s
          = utils.labelsFromSelectors [labels.MatchEqual] (utils.Selectors s)
        ∧ utils.ExcludedLabels s = []
        ∧ utils.getQueryFragment Examples.absent_text (Examples.pos 0 20) st'
          = utils.Done fragment st'
        ∧ recordedReason st' s EmptyString
          = Some {| utils.Reason := utils.reasonAbsent (promParser.Name Examples.f_absent);
                    utils.Fragment := fragment |}.
Proof.
  eexists _, _. split; [vm_compute; reflexivity|].
  eapply (walkNode_absent Examples.unusedMod Examples.unusedPow Examples.absent_text
            Examples.f_absent Examples.absent_args (Examples.pos 0 20)
            utils.emptyStore).
  - refine (bool_decide_unpack _ _). vm_compute. exact I.
  - vm_compute. reflexivity.
Defined.

(** [vector(1)], in [sum by(a) (vector(1))] *)
Lemma walkNode_vector_call_witness :
  ∃ srcs st',
    utils.walkNode Examples.unusedMod Examples.unusedPow Examples.sum_by_vector_text
      Examples.vector_one utils.emptyStore = utils.Done srcs st'
    ∧ ∃ s fragment,
        srcs = [s]
        ∧ utils.Returns s = promParser.ValueTypeVector
        ∧ noLabels s ∧ utils.AlwaysReturns s = true
        ∧ utils.readNumbers (utils.ReturnedNumbers s) st' = utils.Done [1%float] st'
        ∧ utils.getQueryFragment Examples.sum_by_vector_text (Examples.pos 11 20) st'
          = utils.Done fragment st'
        ∧ recordedReason st' s EmptyString
          = Some {| utils.Reason := utils.reasonVector "vector";
                    utils.Fragment := fragment |}.
Proof.
  eexists _, _. split; [vm_compute; reflexivity|].
  apply (walkNode_vector_call Examples.unusedMod Examples.unusedPow
           Examples.sum_by_vector_text Examples.f_vector
           [promParser.NumberLiteral 1 (Examples.pos 18 19)] (Examples.pos 11 20)
           utils.emptyStore eq_refl).
  vm_compute. reflexivity.
Defined.

(** [hour()] *)
Lemma walkNode_calendar_call_witness :
  ∃ srcs st',
    utils.walkNode Examples.unusedMod Examples.unusedPow Examples.hour_text
      Examples.hour utils.emptyStore = utils.Done srcs st'
    ∧ ∃ s, srcs = [s]
           ∧ utils.Returns s = promParser.ValueTypeVector
           ∧ noLabels s ∧ utils.AlwaysReturns s = true
           ∧ ∃ fragment,
               utils.getQueryFragment Examples.hour_text (Examples.pos 0 6) st'
               = utils.Done fragment st'
               ∧ recordedReason st' s EmptyString
                 = Some {| utils.Reason :=
                             utils.reasonNoArguments (promParser.Name Examples.f_hour);
                           utils.Fragment := fragment |}.
Proof.
  eexists _, _. split; [vm_compute; reflexivity|].
  eapply (walkNode_calendar_call Examples.unusedMod Examples.unusedPow
            Examples.hour_text Examples.f_hour [] (Examples.pos 0 6)
            utils.emptyStore).
  - refine (bool_decide_unpack _ _). vm_compute. exact I.
  - vm_compute. reflexivity.
Defined.

(** [label_replace(up, 'dst', 'x', 'src', '(.+)')] *)
Lemma walkNode_label_replace_witness :
  ∃ srcs st',
    utils.walkNode Examples.unusedMod Examples.unusedPow
      Examples.label_replace_plain_text Examples.label_replace_plain
      utils.emptyStore = utils.Done srcs st'
    ∧ ∃ s dst dpos,
        srcs = [s]
        ∧ Examples.label_replace_plain_args !! 1
          = Some (promParser.StringLiteral dst dpos)
        ∧ utils.Returns s = promParser.ValueTypeVector
        ∧ utils.GuaranteedLabels s
          = utils.appendToSlice
              (utils.labelsFromSelectors utils.guaranteedLabelsMatches (utils.Selectors s))
              [dst]
        ∧ dst ∈ utils.GuaranteedLabels s
        ∧ utils.IncludedLabels s = [] ∧ utils.ExcludedLabels s = []
        ∧ utils.FixedLabels s = false.
Proof.
  eexists _, _. split; [vm_compute; reflexivity|].
  eapply (walkNode_label_replace Examples.unusedMod Examples.unusedPow
            Examples.label_replace_plain_text Examples.f_label_replace
            Examples.label_replace_plain_args (Examples.pos 0 44) utils.emptyStore).
  - refine (bool_decide_unpack _ _). vm_compute. exact I.
  - vm_compute. reflexivity.
Defined.

(* ===================================================================== *)
(** * The cases of [parseBinOps] *)
(* ===================================================================== *)
Section BinaryProperties.
Import utils.
Variables math_Mod math_Pow : float → float → float.

Abbreviation walkNode := (utils.walkNode math_Mod math_Pow).
Abbreviation calculateStaticReturn := (utils.calculateStaticReturn math_Mod math_Pow).
Abbreviation foldReturnedNumbers := (utils.foldReturnedNumbers math_Mod math_Pow).
Abbreviation pairSources := (utils.pairSources math_Mod math_Pow).

Lemma defaultOperation_set vm s :
  defaultOperation vm s = setOperation (operationOr vm s) s.
Proof.
  unfold defaultOperation, operationOr.
  destruct (decide (Operation s = EmptyString)); [done|]. by destruct s.
Qed.

Lemma appendToSlice_nil_r dst : appendToSlice dst [] = dst.
Proof. reflexivity. Qed.

Lemma oneToOneSource_matched expr vm pos x :
  labelsWellFormed x →
  returning (oneToOneSource expr vm pos x) (matchedOneToOne vm x).
Proof.
  intros (Hil & Hel & Hgl & _). unfold oneToOneSource.
  eapply returning_bind with
    (P := λ s, matchedOneToOne vm x (setOperation (operationOr vm x) s)
               ∧ Operation s = Operation x).
  2:{ intros s [Hs Hop]. apply returning_ret. rewrite defaultOperation_set.
      unfold operationOr at 1. rewrite Hop. exact Hs. }
  unfold matchedOneToOne. destruct (promParser.On vm).
  - eapply returning_bind; [apply returning_True|]. intros _ _.
    eapply returning_mono; [apply returning_setReason|].
    intros s ->. simpl_fields. split; [|done]. split_and!; try done.
    intros name Hname. split.
    + apply appendToSlice_elem. by right.
    + by apply removeFromSlice_removed.
  - eapply returning_mono; [apply returning_setReasons|].
    intros s ->. simpl_fields. split; [|done]. split_and!; try done.
    intros name Hname. split_and!.
    + apply appendToSlice_elem. by right.
    + by apply removeFromSlice_removed.
    + by apply removeFromSlice_removed.
Qed.

Lemma groupSource_grouped vm x :
  labelsWellFormed x → returning (groupSource vm x) (grouped vm x).
Proof.
  intros (Hil & Hel & Hgl & _). unfold groupSource.
  eapply returning_bind with
    (P := λ s, s = setIncludedLabels
                     (appendToSlice
                        (appendToSlice (IncludedLabels x) (promParser.Include vm))
                        (onLabels vm)) x).
  - unfold onLabels. destruct (promParser.On vm).
    + eapply returning_bind; [apply returning_True|]. intros _ _.
      by apply returning_ret.
    + apply returning_ret. by rewrite appendToSlice_nil_r.
  - intros s ->.
    eapply returning_bind; [apply returning_True|]. intros _ _.
    apply returning_ret. rewrite defaultOperation_set.
    unfold grouped, operationOr. simpl_fields. split_and!; try done.
    intros name Hname. split.
    + apply appendToSlice_elem. left. apply appendToSlice_elem. by right.
    + by apply removeFromSlice_removed.
Qed.





Lemma manyToManyLeft_joined vm b src x :
  returning (manyToManyLeft vm (b, src) x)
    (λ acc, ∃ s, joined vm x s ∧ acc.2 = src ++ [s]
                 ∧ acc.1 = b || negb (AlwaysReturns x)).
Proof.
  unfold manyToManyLeft.
  eapply returning_bind with
    (P := λ s, s = setIncludedLabels (appendToSlice (IncludedLabels x) (onLabels vm)) x).
  - unfold onLabels. destruct (promParser.On vm).
    + eapply returning_bind; [apply returning_True|]. intros _ _.
      by apply returning_ret.
    + apply returning_ret. rewrite appendToSlice_nil_r. by destruct x.
  - intros s ->. apply returning_ret. rewrite defaultOperation_set.
    eexists. split; [|split; [reflexivity|]].
    + unfold joined, operationOr. by simpl_fields.
    + cbn [fst]. unfold operationOr. simpl_fields.
      destruct (AlwaysReturns x), b; done.
Qed.

(** The loop over the sources of the left operand of [and], [or], [unless]. *)
Lemma manyToManyLeft_loop vm ls b src :
  returning (forRange ls (manyToManyLeft vm) (b, src))
    (λ acc, ∃ out, Forall2 (joined vm) ls out ∧ acc.2 = src ++ out
                   ∧ acc.1 = b || negb (forallb AlwaysReturns ls)).
Proof.
  revert b src. induction ls as [|x ls IH]; intros b src.
  - apply returning_ret. exists []. split; [constructor|].
    split; [by rewrite app_nil_r|]. by rewrite orb_false_r.
  - cbn [forRange].
    eapply returning_bind; [apply manyToManyLeft_joined|].
    intros [b1 src1] (s & Hs & Hsrc & Hb). cbn [fst snd] in *. subst.
    eapply returning_mono; [apply IH|].
    intros [b2 src2] (out & Hout & Hsrc & Hb). cbn [fst snd] in *. subst.
    exists (s :: out). split; [by constructor|].
    split; [by rewrite <- app_assoc|].
    cbn [forallb]. by destruct b, (AlwaysReturns x), (forallb AlwaysReturns ls).
Qed.

Lemma manyToManyRight_alternative vm lhsCanBeEmpty y :
  alternative vm (negb lhsCanBeEmpty) y (manyToManyRight vm lhsCanBeEmpty y).
Proof.
  unfold manyToManyRight, alternative. rewrite defaultOperation_set.
  destruct lhsCanBeEmpty; cbn [negb orb]; simpl_fields.
  - split; [|done]. by destruct y.
  - done.
Qed.

(** X17. Unless it panics, a binary expression with a one-to-one vector
    matching emits one source for each source of its left operand, with the
    selectors, numbers, flags, type and call of that source.  With [on(L)]
    the labels become fixed, [L] is appended to the included labels and
    removed from the excluded ones, and the guaranteed labels are kept;
    with [ignoring(L)], [L] is removed from the included and the guaranteed
    labels and appended to the excluded ones.  A source without an
    operation gets the name of the cardinality. *)
Theorem walkNode_one_to_one expr op l r vm rb st srcs st' :
  promParser.Card vm = promParser.CardOneToOne →
  walkNode expr (promParser.BinaryExpr op l r (Some vm) rb) st = Done srcs st' →
  ∃ ls st1,
    walkNode expr l st = Done ls st1 ∧ Forall2 (matchedOneToOne vm) ls srcs.
Proof.
  intros Hcard Hrun. cbn [utils.walkNode] in Hrun. unfold parseBinOps in Hrun.
  rewrite Hcard in Hrun.
  apply bind_Done in Hrun as (ls & st1 & Hl & Hrun).
  exists ls, st1. split; [done|].
  eapply (returning_forEachSource _ ls labelsWellFormed); [| |exact Hrun].
  - eapply walkNode_wellFormed, Hl.
  - intros x Hx. by apply oneToOneSource_matched.
Qed.

(** X18. Unless it panics, a binary expression with a many-to-one or a
    one-to-many vector matching emits one source for each source of the
    operand on the side of "many" (the left operand for many-to-one, the
    right one for one-to-many): the labels of [group_left(...)] or
    [group_right(...)], and then those of [on(...)], are appended to its
    included labels, the former are removed from its excluded labels, and
    its guaranteed labels are kept. *)
Theorem walkNode_group expr op l r vm rb st srcs st' :
  promParser.Card vm ∈ [promParser.CardManyToOne; promParser.CardOneToMany] →
  walkNode expr (promParser.BinaryExpr op l r (Some vm) rb) st = Done srcs st' →
  ∃ many st1,
    walkNode expr
      (if decide (promParser.Card vm = promParser.CardManyToOne) then l else r) st
    = Done many st1
    ∧ Forall2 (grouped vm) many srcs.
Proof.
  intros Hcard Hrun. cbn [utils.walkNode] in Hrun. unfold parseBinOps in Hrun.
  assert (Hside :
    (srcs ← walkNode expr
               (if decide (promParser.Card vm = promParser.CardManyToOne) then l else r);
     forEachSource (groupSource vm) srcs) st = Done srcs st').
  { apply elem_of_cons in Hcard as [Hcard|Hcard].
    - rewrite Hcard in *. exact Hrun.
    - apply list_elem_of_singleton in Hcard. rewrite Hcard in *. exact Hrun. }
  clear Hrun.
  apply bind_Done in Hside as (many & st1 & Hmany & Hrun).
  exists many, st1. split; [done|].
  eapply (returning_forEachSource _ many labelsWellFormed); [| |exact Hrun].
  - eapply walkNode_wellFormed, Hmany.
  - intros x Hx. by apply groupSource_grouped.
Qed.

(** X19. Unless it panics, [and], [or] and [unless] emit one source for each
    source of their left operand, with the labels of [on(...)] appended to
    its included labels and nothing else changed but an empty operation.
    [or] then emits the sources of its right operand, which are dead when
    every source of the left operand always returns, or were dead already;
    [and] and [unless] emit nothing more. *)
Theorem walkNode_many_to_many expr op l r vm rb st srcs st' :
  promParser.Card vm = promParser.CardManyToMany →
  walkNode expr (promParser.BinaryExpr op l r (Some vm) rb) st = Done srcs st' →
  ∃ ls st1 lout,
    walkNode expr l st = Done ls st1
    ∧ Forall2 (joined vm) ls lout
    ∧ if decide (op = promParser.LOR)
      then ∃ rs st2 rout,
             walkNode expr r st2 = Done rs st'
             ∧ Forall2 (alternative vm (forallb AlwaysReturns ls)) rs rout
             ∧ srcs = lout ++ rout
      else srcs = lout.
Proof.
  intros Hcard Hrun. cbn [utils.walkNode] in Hrun. unfold parseBinOps in Hrun.
  rewrite Hcard in Hrun.
  apply bind_Done in Hrun as (ls & st1 & Hl & Hrun).
  apply bind_Done in Hrun as ([lhsCanBeEmpty src] & st2 & Hloop & Hrun).
  apply manyToManyLeft_loop in Hloop as (lout & Hlout & Hsrc & Hb).
  cbn [fst snd app orb] in *. subst.
  exists ls, st1, lout. split; [done|]. split; [done|].
  destruct (decide (op = promParser.LOR)).
  - apply bind_Done in Hrun as (rs & st3 & Hr & [= <- <-]).
    exists rs, st2, (manyToManyRight vm (negb (forallb AlwaysReturns ls)) <$> rs).
    split; [done|]. split; [|done].
    apply Forall2_fmap_r, Forall_Forall2_diag, Forall_forall. intros y _.
    pose proof (manyToManyRight_alternative vm (negb (forallb AlwaysReturns ls)) y) as H.
    by rewrite negb_involutive in H.
  - by injection Hrun as <- <-.
Qed.



End BinaryProperties.

(** [foo / on(job) bar] *)
Lemma walkNode_one_to_one_witness :
  ∃ srcs st',
    utils.walkNode Examples.unusedMod Examples.unusedPow Examples.on_job_text
      Examples.on_job utils.emptyStore = utils.Done srcs st'
    ∧ ∃ ls st1,
        utils.walkNode Examples.unusedMod Examples.unusedPow Examples.on_job_text
          Examples.on_job_foo utils.emptyStore = utils.Done ls st1
        ∧ Forall2 (matchedOneToOne Examples.on_job_matching) ls srcs.
Proof.
  eexists _, _. split; [vm_compute; reflexivity|].
  eapply (walkNode_one_to_one Examples.unusedMod Examples.unusedPow
            Examples.on_job_text promParser.DIV Examples.on_job_foo
            Examples.on_job_bar Examples.on_job_matching false utils.emptyStore).
  - reflexivity.
  - vm_compute. reflexivity.
Defined.

(** [foo * on(job) group_left(team) bar] *)
Lemma walkNode_group_witness :
  ∃ srcs st',
    utils.walkNode Examples.unusedMod Examples.unusedPow Examples.group_left_text
      Examples.group_left utils.emptyStore = utils.Done srcs st'
    ∧ ∃ many st1,
        utils.walkNode Examples.unusedMod Examples.unusedPow Examples.group_left_text
          Examples.group_left_foo utils.emptyStore = utils.Done many st1
        ∧ Forall2 (grouped Examples.group_left_matching) many srcs.
Proof.
  eexists _, _. split; [vm_compute; reflexivity|].
  refine (walkNode_group Examples.unusedMod Examples.unusedPow
            Examples.group_left_text promParser.MUL Examples.group_left_foo
            Examples.group_left_bar Examples.group_left_matching false
            utils.emptyStore _ _ _ _).
  - left.
  - vm_compute. reflexivity.
Defined.

(** [absent_over_time(foo[5m]) or bar] *)
Lemma walkNode_many_to_many_witness :
  ∃ srcs st',
    utils.walkNode Examples.unusedMod Examples.unusedPow Examples.absent_or_text
      Examples.absent_or utils.emptyStore = utils.Done srcs st'
    ∧ ∃ ls st1 lout,
        utils.walkNode Examples.unusedMod Examples.unusedPow Examples.absent_or_text
          Examples.absent_or_lhs utils.emptyStore = utils.Done ls st1
        ∧ Forall2 (joined Examples.manyToMany) ls lout
        ∧ ∃ rs st2 rout,
            utils.walkNode Examples.unusedMod Examples.unusedPow Examples.absent_or_text
              Examples.absent_or_rhs st2 = utils.Done rs st'
            ∧ Forall2 (alternative Examples.manyToMany (forallb utils.AlwaysReturns ls))
                rs rout
            ∧ srcs = lout ++ rout.
Proof.
  eexists _, _. split; [vm_compute; reflexivity|].
  refine (walkNode_many_to_many Examples.unusedMod Examples.unusedPow
            Examples.absent_or_text promParser.LOR Examples.absent_or_lhs
            Examples.absent_or_rhs Examples.manyToMany false utils.emptyStore _ _ _ _).
  - reflexivity.
  - vm_compute. reflexivity.
Defined.


(* ===================================================================== *)
(** * Constant folding *)
(* ===================================================================== *)
Section ConstantFolding.
Import utils.
Variables math_Mod math_Pow : float → float → float.

Abbreviation walkNode := (utils.walkNode math_Mod math_Pow).
Abbreviation calculateStaticReturn := (utils.calculateStaticReturn math_Mod math_Pow).

Lemma getQueryFragment_inText expr pos st :
  inText expr pos →
  getQueryFragment expr pos st
  = Done (substring (Z.to_nat (posrange.Start pos))
            (Z.to_nat (posrange.End_ pos - posrange.Start pos)) expr) st.
Proof.
  intros Hin. unfold getQueryFragment. by rewrite decide_True.
Qed.

(** The walk of a number literal: a new array with the number, a new map
    with the reason. *)
Lemma walkNode_number expr v pos st :
  inText expr pos →
  walkNode expr (promParser.NumberLiteral v pos) st
  = Done [numberSource (length (numbers st)) (length (reasons st))]
      {| numbers := numbers st ++ [[v]];
         reasons := reasons st ++
           [ {[ EmptyString :=
                  {| Reason := reasonNumber;
                     Fragment := substring (Z.to_nat (posrange.Start pos))
                                   (Z.to_nat (posrange.End_ pos - posrange.Start pos))
                                   expr |} ]} ] |}.
Proof.
  intros Hin. cbn [utils.walkNode]. unfold setReason.
  unfold mbind, M_bind, mret, M_ret. cbn [appendNumber ReturnedNumbers setReturns setType zeroSource].
  rewrite getQueryFragment_inText by done.
  reflexivity.
Qed.

(** Folding two sources that each return one number: the number of the left
    source is overwritten in place. *)
Lemma foldReturnedNumbers_single op ls rs st lr rr lv rv :
  ReturnedNumbers ls = Some lr → ReturnedNumbers rs = Some rr →
  numbers st !! lr = Some [lv] → numbers st !! rr = Some [rv] →
  utils.foldReturnedNumbers math_Mod math_Pow op ls rs st
  = Done (setIsDead (calculateStaticReturn lv rv op (IsDead ls)).2 ls)
      {| numbers := <[lr := [(calculateStaticReturn lv rv op (IsDead ls)).1]]> (numbers st);
         reasons := reasons st |}.
Proof.
  intros Hl Hr Hlv Hrv. unfold utils.foldReturnedNumbers.
  unfold mbind, M_bind, mret, M_ret.
  unfold readNumbers at 1. rewrite Hl, Hlv. cbn [length seq forRange].
  unfold mbind, M_bind, mret, M_ret.
  unfold readNumber at 1. rewrite Hl, Hlv. cbn [lookup list_lookup].
  unfold readNumbers. rewrite Hr, Hrv. cbn [length seq forRange].
  unfold mbind, M_bind, mret, M_ret.
  unfold readNumber. rewrite Hrv. cbn [lookup list_lookup].
  destruct (calculateStaticReturn lv rv op (IsDead ls)) as [v isDead].
  unfold writeNumber. rewrite Hl, Hlv. cbn [length fst snd].
  rewrite decide_True by lia. reflexivity.
Qed.

(** X21. A binary expression of two number literals whose positions lie
    inside the text is folded: the walk returns one source, a number that
    returns a scalar, always returns and has no labels; its returned number
    and its flag [IsDead] are what [calculateStaticReturn] gives for the
    two values. *)
Theorem walkNode_fold_literals expr op a apos b bpos rb st :
  inText expr apos → inText expr bpos →
  ∃ s st',
    walkNode expr
      (promParser.BinaryExpr op (promParser.NumberLiteral a apos)
         (promParser.NumberLiteral b bpos) None rb) st
    = Done [s] st'
    ∧ readNumbers (ReturnedNumbers s) st'
      = Done [(calculateStaticReturn a b op false).1] st'
    ∧ IsDead s = (calculateStaticReturn a b op false).2
    ∧ Type_ s = NumberSource ∧ Returns s = promParser.ValueTypeScalar
    ∧ AlwaysReturns s = true ∧ noLabels s.
Proof.
  intros Ha Hb.
  cbn [utils.walkNode]. unfold parseBinOps.
  change (utils.walkNode math_Mod math_Pow expr (promParser.NumberLiteral a apos))
    with (walkNode expr (promParser.NumberLiteral a apos)).
  unfold mbind at 1, M_bind at 1. rewrite walkNode_number by done.
  unfold mbind at 1, M_bind at 1. rewrite walkNode_number by done.
  cbn [numbers reasons].
  set (n := length (numbers st)).
  set (ls := numberSource n _). set (rs := numberSource _ _).
  cbn [forRange]. unfold pairSources at 1.
  change (AlwaysReturns ls && AlwaysReturns rs) with true. cbv iota.
  unfold mbind, M_bind, mret, M_ret, fmap, M_fmap.
  erewrite (foldReturnedNumbers_single op ls rs _ n (length (numbers st ++ [[a]])) a b);
    [|reflexivity|reflexivity| |].
  - cbn [numbers reasons snd app].
    eexists _, _. split; [reflexivity|].
    change (IsDead ls) with false. change (ReturnedNumbers (setIsDead _ ls)) with (Some n).
    unfold readNumbers. cbn [numbers].
    rewrite list_lookup_insert_eq by (rewrite !length_app; simpl; lia).
    unfold noLabels. subst ls. by simpl_fields.
  - cbn [numbers]. rewrite lookup_app_l by (rewrite length_app; simpl; lia).
    by rewrite lookup_app_r, Nat.sub_diag by done.
  - cbn [numbers]. by rewrite lookup_app_r, Nat.sub_diag by done.
Qed.

End ConstantFolding.

(** [1 + 2] *)
Lemma walkNode_fold_literals_witness :
  ∃ s st',
    utils.walkNode Examples.unusedMod Examples.unusedPow Examples.one_plus_two_text
      (promParser.BinaryExpr promParser.ADD
         (promParser.NumberLiteral 1 (Examples.pos 0 1))
         (promParser.NumberLiteral 2 (Examples.pos 4 5)) None false)
      utils.emptyStore = utils.Done [s] st'
    ∧ utils.readNumbers (utils.ReturnedNumbers s) st'
      = utils.Done
          [(utils.calculateStaticReturn Examples.unusedMod Examples.unusedPow
              1 2 promParser.ADD false).1] st'
    ∧ utils.IsDead s
      = (utils.calculateStaticReturn Examples.unusedMod Examples.unusedPow
           1 2 promParser.ADD false).2
    ∧ utils.Type_ s = utils.NumberSource
    ∧ utils.Returns s = promParser.ValueTypeScalar
    ∧ utils.AlwaysReturns s = true ∧ noLabels s.
Proof.
  apply (walkNode_fold_literals Examples.unusedMod Examples.unusedPow
           Examples.one_plus_two_text promParser.ADD
           1 (Examples.pos 0 1) 2 (Examples.pos 4 5) false utils.emptyStore).
  - unfold inText. simpl. lia.
  - unfold inText. simpl. lia.
Defined.

(* ===================================================================== *)
(** * More on the alerts/comparison check *)
(* ===================================================================== *)
Section ComparisonCheckMore.
Import checks.
Variable HasOuterBinaryExpr : parser.PromQLNode → option promParser.BinaryExprT.

Abbreviation Check := (checks.Check HasOuterBinaryExpr).

Lemma rewriteSeverity_existsb s nodes :
  rewriteSeverity s nodes = if existsb isVectorCall nodes then Bug else s.
Proof.
  induction nodes as [|n nodes IH]; [done|].
  destruct n as [| |f args pos| | | | | | | |];
    cbn [rewriteSeverity existsb isVectorCall orb]; try exact IH.
  destruct (decide (promParser.Name f = "vector")) as [Hv|Hv].
  - by rewrite bool_decide_eq_true_2.
  - by rewrite bool_decide_eq_false_2.
Qed.

Lemma comparisonOrUnless_Some d b :
  comparisonOrUnless d = Some b →
  promParser.asBinaryExpr d = Some b
  ∧ (promParser.IsComparisonOperator (promParser.Op b) = true
     ∨ promParser.Op b = promParser.LUNLESS).
Proof.
  unfold comparisonOrUnless.
  destruct (promParser.asBinaryExpr d) as [node|]; [|done].
  destruct (promParser.IsComparisonOperator (promParser.Op node)) eqn:Hcmp.
  - intros [= <-]. split; [done|by left].
  - destruct (decide (promParser.Op node = promParser.LUNLESS)); [|done].
    intros [= <-]. split; [done|by right].
Qed.

Lemma firstNonNil_Some {A B} (f : A → option B) l b :
  firstNonNil f l = Some b →
  ∃ before x after,
    l = before ++ x :: after ∧ f x = Some b ∧ ∀ y, y ∈ before → f y = None.
Proof.
  induction l as [|x l IH]; [done|]. cbn [firstNonNil].
  destruct (f x) as [b'|] eqn:Hx.
  - intros [= ->]. exists [], x, l. split; [done|]. split; [done|].
    intros y Hy. by apply elem_of_nil in Hy.
  - intros (before & y & after & -> & Hy & Hbefore)%IH.
    exists (x :: before), y, after. split; [done|]. split; [done|].
    intros z [->|Hz]%elem_of_cons; auto.
Qed.

(** X22. [hasComparision] returns the first node, in pre-order, that is a
    binary expression with a comparison operator or with [unless]; it
    returns nil exactly when the expression has no such node. *)
Theorem hasComparision_spec n :
  match hasComparision n with
  | Some b =>
      ∃ before d after,
        descendants n = before ++ d :: after
        ∧ promParser.asBinaryExpr d = Some b
        ∧ (promParser.IsComparisonOperator (promParser.Op b) = true
           ∨ promParser.Op b = promParser.LUNLESS)
        ∧ ∀ d', d' ∈ before → comparisonOrUnless d' = None
  | None => ∀ d, d ∈ descendants n → comparisonOrUnless d = None
  end.
Proof.
  rewrite hasComparision_descendants.
  destruct (firstNonNil comparisonOrUnless (descendants n)) as [b|] eqn:Hfirst.
  - apply firstNonNil_Some in Hfirst as (before & d & after & Hd & Hb & Hbefore).
    apply comparisonOrUnless_Some in Hb as [Hb Hop].
    by exists before, d, after.
  - by apply firstNonNil_None.
Qed.

Lemma hasAbsent_subtrees q :
  hasAbsent q = existsb (λ t, isAbsent (parser.Node t)) (subtrees q).
Proof.
  revert q. fix IH 1. intros [node children].
  cbn [hasAbsent subtrees existsb parser.Node].
  destruct (isAbsent node); [done|]. cbn [orb].
  induction children as [|child children IHc]; [done|].
  by rewrite existsb_app, <- IH, IHc.
Qed.

(** X23. [hasAbsent] holds exactly when the node of some tree of the query has
    a descendant that is a call to [absent]. *)
Theorem hasAbsent_spec q :
  hasAbsent q = true
  ↔ ∃ t d, t ∈ subtrees q ∧ d ∈ descendants (parser.Node t) ∧ isAbsentCall d = true.
Proof.
  rewrite hasAbsent_subtrees, existsb_exists. split.
  - intros (t & Ht & Habs). rewrite isAbsent_descendants, existsb_exists in Habs.
    destruct Habs as (d & Hd & Hcall).
    exists t, d. by rewrite !list_elem_of_In.
  - intros (t & d & Ht & Hd & Hcall). exists t. split; [by apply list_elem_of_In|].
    rewrite isAbsent_descendants, existsb_exists. exists d.
    split; [by apply list_elem_of_In|done].
Qed.

(** X24. The check reports at most two problems, and only for alerting rules.
    Every problem carries the text and the lines of the expression of the
    rule and the name of the check, has no details, and is one of: "always
    fire" with severity [Warning] or [Bug], "bool modifier" with severity
    [Bug], "no condition" with severity [Warning]. *)
Theorem Check_problems rule :
  length (Check rule) ≤ 2
  ∧ ∀ p, p ∈ Check rule →
      ∃ ar, rule = parser.AlertingRule ar
            ∧ Fragment p = parser.Value (parser.Expr ar)
            ∧ Lines p = parser.Lines (parser.Expr ar)
            ∧ Reporter p = ComparisonCheckName
            ∧ Details p = EmptyString
            ∧ ((Text p = textAlwaysFire ∧ Severity_ p ∈ [Warning; Bug])
               ∨ (Text p = textBoolModifier ∧ Severity_ p = Bug)
               ∨ (Text p = textNoCondition ∧ Severity_ p = Warning)).
Proof.
  destruct rule as [r|ar]; cbn [checks.Check].
  { split; [simpl; lia|]. intros p Hp. by apply elem_of_nil in Hp. }
  destruct (parser.Parsed (parser.Expr ar)) as [err|expr].
  { split; [simpl; lia|]. intros p Hp. by apply elem_of_nil in Hp. }
  assert (Hor : checkOr HasOuterBinaryExpr ar expr [] = []
                ∨ ∃ sev, checkOr HasOuterBinaryExpr ar expr []
                         = [problem ar textAlwaysFire sev]
                         ∧ sev ∈ [Warning; Bug]).
  { unfold checkOr. destruct (HasOuterBinaryExpr expr) as [n|]; [|by left].
    destruct (decide _); [|by left]. destruct (_ && _); [|by left].
    right. eexists. split; [reflexivity|].
    rewrite rewriteSeverity_existsb. destruct (existsb _ _); [right|]; left. }
  assert (Hrest : ∀ rest,
            (rest = [] ∨ rest = [problem ar textBoolModifier Bug]
             ∨ rest = [problem ar textNoCondition Warning]) →
            length (checkOr HasOuterBinaryExpr ar expr [] ++ rest) ≤ 2
            ∧ ∀ p, p ∈ checkOr HasOuterBinaryExpr ar expr [] ++ rest →
                ∃ ar0, parser.AlertingRule ar = parser.AlertingRule ar0
                  ∧ Fragment p = parser.Value (parser.Expr ar0)
                  ∧ Lines p = parser.Lines (parser.Expr ar0)
                  ∧ Reporter p = ComparisonCheckName
                  ∧ Details p = EmptyString
                  ∧ ((Text p = textAlwaysFire ∧ Severity_ p ∈ [Warning; Bug])
                     ∨ (Text p = textBoolModifier ∧ Severity_ p = Bug)
                     ∨ (Text p = textNoCondition ∧ Severity_ p = Warning))).
  { intros rest Hrest. split.
    - rewrite length_app.
      destruct Hor as [->|(sev & -> & _)], Hrest as [->|[->| ->]]; simpl; lia.
    - intros p [Hp|Hp]%elem_of_app; exists ar.
      + destruct Hor as [Hor|(sev & Hor & Hsev)]; rewrite Hor in Hp;
          [by apply elem_of_nil in Hp|].
        apply list_elem_of_singleton in Hp as ->. cbn. split_and!; try done. by left.
      + destruct Hrest as [->|[->| ->]]; [by apply elem_of_nil in Hp| |];
          apply list_elem_of_singleton in Hp as ->; cbn; split_and!; try done.
        * right. by left.
        * right. by right. }
  destruct (hasComparision (parser.Node expr)) as [n|].
  - destruct (_ && _).
    + apply Hrest. right. by left.
    + rewrite <- (app_nil_r (checkOr _ _ _ _)). apply Hrest. by left.
  - destruct (hasAbsent expr).
    + rewrite <- (app_nil_r (checkOr _ _ _ _)). apply Hrest. by left.
    + apply Hrest. right. by right.
Qed.

Lemma checkOr_text ar expr p :
  p ∈ checkOr HasOuterBinaryExpr ar expr [] → Text p = textAlwaysFire.
Proof.
  unfold checkOr. destruct (HasOuterBinaryExpr expr) as [n|];
    [|intros H; by apply elem_of_nil in H].
  destruct (decide _); [|intros H; by apply elem_of_nil in H].
  destruct (_ && _); [|intros H; by apply elem_of_nil in H].
  by intros ->%list_elem_of_singleton.
Qed.

(** X25. For an alerting rule whose expression parses, the check reports "no
    condition" exactly when no node of the expression is a binary
    expression with a comparison operator or with [unless], and [hasAbsent]
    does not hold. *)
Theorem Check_no_condition ar expr :
  parser.Parsed (parser.Expr ar) = parser.Query expr →
  problem ar textNoCondition Warning ∈ Check (parser.AlertingRule ar)
  ↔ (∀ d, d ∈ descendants (parser.Node expr) → comparisonOrUnless d = None)
    ∧ hasAbsent expr = false.
Proof.
  intros Hparsed. cbn [checks.Check]. rewrite Hparsed.
  rewrite <- firstNonNil_None, <- hasComparision_descendants.
  destruct (hasComparision (parser.Node expr)) as [n|].
  - split; [|by intros [? _]].
    intros Hin. exfalso.
    assert (Hnot : problem ar textNoCondition Warning
                   ∉ checkOr HasOuterBinaryExpr ar expr []).
    { intros H%checkOr_text. discriminate H. }
    destruct (_ && _); [|done].
    apply elem_of_app in Hin as [Hin|Hin]; [done|].
    apply list_elem_of_singleton in Hin. discriminate Hin.
  - destruct (hasAbsent expr).
    + split; [|by intros [_ ?]].
      intros H%checkOr_text. discriminate H.
    + split; [done|]. intros _. apply elem_of_app. right. left.
Qed.

(** X26. For an alerting rule whose expression parses, the check reports the
    bool modifier exactly when the first node of the expression, in
    pre-order, that is a binary expression with a comparison operator or
    with [unless] has the bool modifier and neither of its operands
    contains such a binary expression: it reports it in no other case. *)
Theorem Check_bool_modifier_only ar expr :
  parser.Parsed (parser.Expr ar) = parser.Query expr →
  problem ar textBoolModifier Bug ∈ Check (parser.AlertingRule ar)
  ↔ ∃ n, firstNonNil comparisonOrUnless (descendants (parser.Node expr)) = Some n
         ∧ promParser.ReturnBool n = true
         ∧ (∀ d, d ∈ descendants (promParser.LHS n) → comparisonOrUnless d = None)
         ∧ (∀ d, d ∈ descendants (promParser.RHS n) → comparisonOrUnless d = None).
Proof.
  intros Hparsed. cbn [checks.Check]. rewrite Hparsed.
  rewrite <- hasComparision_descendants.
  assert (Hnot : problem ar textBoolModifier Bug
                 ∉ checkOr HasOuterBinaryExpr ar expr []).
  { intros H%checkOr_text. discriminate H. }
  destruct (hasComparision (parser.Node expr)) as [n|].
  - setoid_rewrite <- firstNonNil_None.
    setoid_rewrite <- hasComparision_descendants.
    destruct (promParser.ReturnBool n) eqn:Hbool; cbn [andb].
    + destruct (hasComparision (promParser.LHS n)) eqn:Hl; cbn [bool_decide andb].
      * rewrite bool_decide_eq_false_2 by done. cbn [andb].
        split; [done|]. intros (n' & [= <-] & _ & Hl' & _). congruence.
      * rewrite bool_decide_eq_true_2 by done. cbn [andb].
        destruct (hasComparision (promParser.RHS n)) eqn:Hr.
        -- rewrite bool_decide_eq_false_2 by done.
           split; [done|]. intros (n' & [= <-] & _ & _ & Hr'). congruence.
        -- rewrite bool_decide_eq_true_2 by done.
           split.
           ++ intros _. by exists n.
           ++ intros _. apply elem_of_app. right. left.
    + split; [done|]. intros (n' & [= <-] & Hb & _). congruence.
  - split.
    + destruct (hasAbsent expr); [done|].
      intros [Hin|Hin]%elem_of_app; [done|].
      apply list_elem_of_singleton in Hin. discriminate Hin.
    + intros (n & Hn & _). done.
Qed.

End ComparisonCheckMore.

(** The alert [up]. *)
Lemma Check_no_condition_witness :
  checks.problem Examples.no_condition_alerting checks.textNoCondition checks.Warning
  ∈ checks.Check utils.HasOuterBinaryExpr
      (parser.AlertingRule Examples.no_condition_alerting)
  ↔ (∀ d, d ∈ descendants (parser.Node (Examples.leaf Examples.eq_bool_up)) →
          checks.comparisonOrUnless d = None)
    ∧ checks.hasAbsent (Examples.leaf Examples.eq_bool_up) = false.
Proof.
  apply (Check_no_condition utils.HasOuterBinaryExpr Examples.no_condition_alerting
           (Examples.leaf Examples.eq_bool_up)).
  reflexivity.
Defined.

(** The alert [up == bool 0]. *)
Lemma Check_bool_modifier_only_witness :
  checks.problem Examples.eq_bool_alerting checks.textBoolModifier checks.Bug
  ∈ checks.Check utils.HasOuterBinaryExpr (parser.AlertingRule Examples.eq_bool_alerting)
  ↔ ∃ n, checks.firstNonNil checks.comparisonOrUnless
           (descendants (parser.Node Examples.eq_bool_query)) = Some n
         ∧ promParser.ReturnBool n = true
         ∧ (∀ d, d ∈ descendants (promParser.LHS n) → checks.comparisonOrUnless d = None)
         ∧ (∀ d, d ∈ descendants (promParser.RHS n) → checks.comparisonOrUnless d = None).
Proof.
  apply (Check_bool_modifier_only utils.HasOuterBinaryExpr Examples.eq_bool_alerting
           Examples.eq_bool_query).
  reflexivity.
Defined.

(* ===================================================================== *)
(** * The walk returns *)
(* ===================================================================== *)
Section Succeeds.
Import utils.

Lemma succeeds_ret {A} (a : A) st (Q : A → Store → Prop) :
  Q a st → succeeds (mret a) st Q.
Proof. intros HQ. by exists a, st. Qed.

Lemma succeeds_bind {A B} (m : M A) (f : A → M B) st
    (P : A → Store → Prop) (Q : B → Store → Prop) :
  succeeds m st P → (∀ a st1, P a st1 → succeeds (f a) st1 Q) →
  succeeds (m ≫= f) st Q.
Proof.
  intros (a & st1 & Hm & HP) Hf.
  destruct (Hf a st1 HP) as (b & st2 & Hfa & HQ).
  exists b, st2. split; [|done]. unfold mbind, M_bind. by rewrite Hm.
Qed.

Lemma succeeds_bind_ret {A B} (a : A) (f : A → M B) st (Q : B → Store → Prop) :
  succeeds (f a) st Q → succeeds (mret a ≫= f) st Q.
Proof. done. Qed.

Lemma succeeds_fmap {A B} (m : M A) (f : A → B) st
    (P : A → Store → Prop) (Q : B → Store → Prop) :
  succeeds m st P → (∀ a st1, P a st1 → Q (f a) st1) → succeeds (f <$> m) st Q.
Proof.
  intros (a & st1 & Hm & HP) Hf.
  exists (f a), st1. split; [|by apply Hf]. unfold fmap, M_fmap. by rewrite Hm.
Qed.

Lemma succeeds_mono {A} (m : M A) st (P Q : A → Store → Prop) :
  succeeds m st P → (∀ a st1, P a st1 → Q a st1) → succeeds m st Q.
Proof. intros (a & st1 & Hm & HP) HPQ. exists a, st1. split; [done|by apply HPQ]. Qed.

Lemma succeeds_forRange {A S} (xs : list A) (body : S → A → M S)
    (I : S → Store → Prop) acc st :
  I acc st →
  (∀ acc x st, x ∈ xs → I acc st → succeeds (body acc x) st I) →
  succeeds (forRange xs body acc) st I.
Proof.
  revert acc st. induction xs as [|x xs IH]; intros acc st Hacc Hbody.
  - by apply succeeds_ret.
  - cbn [forRange]. eapply succeeds_bind.
    + apply Hbody; [left|done].
    + intros acc' st1 Hacc'. apply IH; [done|].
      intros acc2 y st2 Hy. apply Hbody. by right.
Qed.

Lemma grows_refl st : grows st st.
Proof. split; done. Qed.

Lemma grows_trans st1 st2 st3 : grows st1 st2 → grows st2 st3 → grows st1 st3.
Proof. intros [H1 H2] [H3 H4]. split; [by etrans|lia]. Qed.

Lemma grows_numbers_length st st' :
  grows st st' → length (numbers st) ≤ length (numbers st').
Proof.
  intros [Hp _]. apply prefix_length in Hp. by rewrite !length_fmap in Hp.
Qed.

Lemma validSource_grows st st' s : grows st st' → validSource st s → validSource st' s.
Proof.
  intros Hg [Hn Hr]. pose proof (grows_numbers_length _ _ Hg). destruct Hg as [_ Hg].
  split; intros r Hrf; [specialize (Hn r Hrf)|specialize (Hr r Hrf)]; lia.
Qed.

Lemma Forall_validSource_grows st st' srcs :
  grows st st' → Forall (validSource st) srcs → Forall (validSource st') srcs.
Proof.
  intros Hg H. eapply Forall_impl; [exact H|]. intros s. by apply validSource_grows.
Qed.

(** A loop over sources whose body keeps the references allocated. *)
Lemma succeeds_forEachSource body srcs st :
  Forall (validSource st) srcs →
  (∀ x st1, x ∈ srcs → validSource st1 x →
            succeeds (body x) st1 (λ s st2, grows st1 st2 ∧ validSource st2 s)) →
  succeeds (forEachSource body srcs) st
    (λ out st', grows st st' ∧ Forall (validSource st') out).
Proof.
  intros Hvalid Hbody. unfold forEachSource.
  eapply succeeds_mono.
  - apply (succeeds_forRange srcs _
             (λ out st', grows st st' ∧ Forall (validSource st') out)).
    + split; [apply grows_refl|constructor].
    + intros out x st1 Hx [Hg Hout].
      eapply succeeds_bind.
      * apply Hbody; [done|]. eapply validSource_grows; [exact Hg|].
        by eapply Forall_forall in Hvalid.
      * intros s st2 [Hg2 Hs]. apply succeeds_ret. split; [by eapply grows_trans|].
        apply Forall_app. split; [by eapply Forall_validSource_grows|].
        by apply Forall_singleton.
  - done.
Qed.

Lemma getQueryFragment_succeeds expr pos st :
  inText expr pos → succeeds (getQueryFragment expr pos) st (λ _ st', st' = st).
Proof.
  intros Hin. unfold getQueryFragment. rewrite decide_True by done.
  by apply succeeds_ret.
Qed.

Lemma setInMap_succeeds dst key val st :
  (∀ r, dst = Some r → r < length (reasons st)) →
  succeeds (setInMap dst key val) st
    (λ m st', (∃ r, m = Some r ∧ r < length (reasons st'))
              ∧ numbers st' = numbers st
              ∧ length (reasons st) ≤ length (reasons st')).
Proof.
  intros Hvalid. unfold setInMap, succeeds. destruct dst as [r|]; cbv beta.
  - specialize (Hvalid r eq_refl).
    match goal with
    | |- context [match ?t with _ => _ end] => destruct t as [m|] eqn:Hm
    end.
    2:{ apply lookup_ge_None in Hm. lia. }
    eexists _, _. split; [reflexivity|]. cbn.
    rewrite length_insert. split; [by exists r|]. done.
  - eexists _, _. split; [reflexivity|]. cbn. rewrite length_app. cbn.
    split; [eexists; split; [reflexivity|lia]|]. split; [done|lia].
Qed.

Lemma deleteInMap_succeeds dst key st :
  (∀ r, dst = Some r → r < length (reasons st)) →
  succeeds (deleteInMap dst key) st
    (λ _ st', numbers st' = numbers st ∧ length (reasons st') = length (reasons st)).
Proof.
  intros Hvalid. unfold deleteInMap, succeeds. destruct dst as [r|]; cbv beta.
  - specialize (Hvalid r eq_refl).
    match goal with
    | |- context [match ?t with _ => _ end] => destruct t as [m|] eqn:Hm
    end.
    2:{ apply lookup_ge_None in Hm. lia. }
    eexists _, _. split; [reflexivity|]. cbn.
    by rewrite length_insert.
  - by eexists _, _.
Qed.

Lemma grows_same_numbers st st' :
  numbers st' = numbers st → length (reasons st) ≤ length (reasons st') → grows st st'.
Proof. intros Hn Hr. split; [by rewrite Hn|done]. Qed.

Lemma setReason_succeeds expr key reason pos s st :
  inText expr pos → validSource st s →
  succeeds (setReason expr key reason pos s) st
    (λ s' st', grows st st' ∧ validSource st' s' ∧ sameButReason s s').
Proof.
  intros Hin [Hn Hr]. unfold setReason.
  eapply succeeds_bind; [by apply getQueryFragment_succeeds|].
  intros fragment st1 ->.
  eapply succeeds_bind; [by apply setInMap_succeeds|].
  intros m st1 ((r & -> & Hlt) & Hnums & Hlen).
  apply succeeds_ret. split; [by apply grows_same_numbers|].
  split; [|apply sameButReason_set].
  split; simpl_fields.
  - intros r' Hr'. rewrite Hnums. by apply Hn.
  - by intros r' [= <-].
Qed.

Lemma setReasons_succeeds expr (names : list string) reason pos s st :
  inText expr pos → validSource st s →
  succeeds (forRange names (λ s name, setReason expr name reason pos s) s) st
    (λ s' st', grows st st' ∧ validSource st' s' ∧ sameButReason s s').
Proof.
  intros Hin Hs.
  apply (succeeds_forRange names _
           (λ s' st', grows st st' ∧ validSource st' s' ∧ sameButReason s s')).
  - split; [apply grows_refl|]. split; [done|apply sameButReason_refl].
  - intros s1 name st1 _ (Hg & Hs1 & Hsame).
    eapply succeeds_mono; [by apply setReason_succeeds|].
    intros s2 st2 (Hg2 & Hs2 & Hsame2).
    split; [by eapply grows_trans|]. split; [done|].
    by eapply sameButReason_trans.
Qed.

Lemma deleteReasons_succeeds names s st :
  validSource st s →
  succeeds (deleteReasons names s) st (λ _ st', grows st st' ∧ validSource st' s).
Proof.
  intros Hs. unfold deleteReasons.
  apply (succeeds_forRange names _ (λ _ st', grows st st' ∧ validSource st' s)).
  - split; [apply grows_refl|done].
  - intros [] name st1 _ [Hg [Hn Hr]].
    eapply succeeds_mono; [by apply deleteInMap_succeeds|].
    intros [] st2 [Hnums Hlen].
    assert (grows st1 st2) by (apply grows_same_numbers; [done|lia]).
    split; [by eapply grows_trans|].
    by eapply validSource_grows; [|split].
Qed.

(** A change of the labels, of the flags or of the tags of a source leaves
    its references alone. *)
Lemma validSource_same_refs st s s' :
  ReturnedNumbers s' = ReturnedNumbers s → ExcludeReason s' = ExcludeReason s →
  validSource st s → validSource st s'.
Proof. intros Hn Hr [H1 H2]. split; intros r; rewrite ?Hn, ?Hr; auto. Qed.

Ltac same_refs := unfold validSource in *; simpl_fields; done.

Lemma aggregateSource_succeeds expr grouping without pos x st :
  inText expr pos → validSource st x →
  succeeds (aggregateSource expr grouping without pos x) st
    (λ s st', grows st st' ∧ validSource st' s).
Proof.
  intros Hin Hx. unfold aggregateSource.
  eapply succeeds_bind with (P := λ s st', grows st st' ∧ validSource st' s).
  2:{ intros s st1 [Hg Hs]. apply succeeds_ret. split; [done|same_refs]. }
  destruct without.
  - eapply succeeds_mono; [apply setReasons_succeeds; [done|same_refs]|].
    by intros s st1 (Hg & Hs & _).
  - eapply succeeds_bind with (P := λ s st', grows st st' ∧ validSource st' s).
    2:{ intros s st1 [Hg Hs]. apply succeeds_ret. split; [done|same_refs]. }
    destruct (decide (length grouping = 0)).
    + eapply succeeds_mono; [apply setReason_succeeds; [done|same_refs]|].
      by intros s st1 (Hg & Hs & _).
    + eapply succeeds_bind with (P := λ s st', grows st st' ∧ validSource st' s).
      2:{ intros s st1 [Hg Hs]. apply succeeds_ret. split; [done|same_refs]. }
      destruct (FixedLabels x); cbn [negb].
      * apply succeeds_ret. split; [apply grows_refl|done].
      * destruct (removeExcluded_spec grouping
                    (setIncludedLabels (appendToSlice (IncludedLabels x) grouping) x))
          as (el & _ & ->).
        eapply succeeds_mono; [apply setReason_succeeds; [done|same_refs]|].
        by intros s st1 (Hg & Hs & _).
Qed.

Lemma stringLiteralVal_literal val vpos :
  stringLiteralVal (Some (promParser.StringLiteral val vpos)) = mret val.
Proof. reflexivity. Qed.

Lemma walkAggregation_succeeds walk expr op e param grouping without pos st :
  inText expr pos →
  assertionsHold (promParser.AggregateExpr op e param grouping without pos) = true →
  (∀ st, succeeds (walk e) st (λ srcs st', grows st st' ∧ Forall (validSource st') srcs)) →
  succeeds (walkAggregation walk expr op e param grouping without pos) st
    (λ srcs st', grows st st' ∧ Forall (validSource st') srcs).
Proof.
  intros Hin Hassert IH.
  assert (Hparsed : ∀ st,
            succeeds (parseAggregation walk expr e grouping without pos) st
              (λ srcs st', grows st st' ∧ Forall (validSource st') srcs)).
  { intros st0. unfold parseAggregation.
    eapply succeeds_bind; [apply IH|]. intros inner st1 [Hg Hinner].
    eapply succeeds_mono.
    - apply succeeds_forEachSource; [exact Hinner|].
      intros x st2 _ Hx. by apply aggregateSource_succeeds.
    - intros out st2 [Hg2 Hout]. split; [by eapply grows_trans|done]. }
  assert (Htag : ∀ name,
            succeeds (tagOperation name
                        <$> parseAggregation walk expr e grouping without pos) st
              (λ srcs st', grows st st' ∧ Forall (validSource st') srcs)).
  { intros name. eapply succeeds_fmap; [apply Hparsed|].
    intros srcs st1 [Hg Hsrcs]. split; [done|].
    unfold tagOperation. apply Forall_fmap.
    eapply Forall_impl; [exact Hsrcs|]. intros s Hs. cbn. same_refs. }
  assert (Htop : ∀ name,
            succeeds (srcs ← walk e;
                      mret ((λ s, setOperation name (setType AggregateSource s)) <$> srcs))
              st (λ srcs st', grows st st' ∧ Forall (validSource st') srcs)).
  { intros name. eapply succeeds_bind; [apply IH|]. intros srcs st1 [Hg Hsrcs].
    apply succeeds_ret. split; [done|]. apply Forall_fmap.
    eapply Forall_impl; [exact Hsrcs|]. intros s Hs. cbn. same_refs. }
  unfold walkAggregation.
  destruct op; try apply Htag; try apply Htop;
    try (apply succeeds_ret; split; [apply grows_refl|constructor]).
  (* count_values *)
  cbn [assertionsHold] in Hassert. rewrite decide_True in Hassert by done.
  destruct param as [[| | | | | | |val vpos| | |]|]; try done.
  eapply succeeds_bind; [apply Hparsed|]. intros srcs st1 [Hg Hsrcs].
  eapply succeeds_mono.
  - apply succeeds_forEachSource; [exact Hsrcs|].
    intros x st2 _ Hx. cbv zeta. rewrite !stringLiteralVal_literal.
    do 4 apply succeeds_bind_ret.
    eapply succeeds_bind.
    + apply deleteInMap_succeeds. destruct Hx as [_ Hr]. simpl_fields. exact Hr.
    + intros [] st3 [Hnums Hlen]. apply succeeds_ret.
      assert (grows st2 st3) by (apply grows_same_numbers; [done|lia]).
      split; [done|]. eapply validSource_grows; [done|]. same_refs.
  - intros out st2 [Hg2 Hout]. split; [by eapply grows_trans|done].
Qed.

Lemma argType_succeeds f i st :
  promParser.ArgTypes f ≠ [] → succeeds (argType f i) st (λ _ st', st' = st).
Proof.
  intros Htypes. unfold argType.
  destruct (decide (length (promParser.ArgTypes f) ≤ i)) as [Hle|Hgt].
  - destruct (promParser.ArgTypes f) as [|t types] eqn:Hf; [done|]. cbn [length].
    destruct (lookup_lt_is_Some_2 (t :: types) (length types)) as [vt ->];
      [simpl; lia|].
    by apply succeeds_ret.
  - destruct (lookup_lt_is_Some_2 (promParser.ArgTypes f) i) as [vt ->]; [lia|].
    by apply succeeds_ret.
Qed.

Lemma gatherSelectors_succeeds walk f i args s st :
  (args ≠ [] → promParser.ArgTypes f ≠ []) →
  Forall (λ e, ∀ st, succeeds (walk e) st
                       (λ srcs st', grows st st' ∧ Forall (validSource st') srcs)) args →
  succeeds (gatherSelectors walk f i args s) st
    (λ s' st', grows st st' ∧ ∃ sels, s' = setSelectors sels s).
Proof.
  intros Htypes Hargs. revert i s st.
  induction Hargs as [|e args He _ IH]; intros i s st; cbn [gatherSelectors].
  - apply succeeds_ret. split; [apply grows_refl|].
    exists (Selectors s). by destruct s.
  - assert (Hne : promParser.ArgTypes f ≠ []) by (by apply Htypes).
    eapply succeeds_bind; [by apply argType_succeeds|]. intros vt st0 ->.
    eapply succeeds_bind with
      (P := λ s' st', grows st st' ∧ ∃ sels, s' = setSelectors sels s).
    + assert (Hs : ∃ sels, s = setSelectors sels s)
        by (exists (Selectors s); by destruct s).
      destruct vt; try (apply succeeds_ret; split; [apply grows_refl|done]).
      all: eapply succeeds_bind; [apply He|]; intros srcs st1 [Hg _];
        apply succeeds_ret; split; [done|apply appendSelectors_spec].
    + intros s' st1 [Hg [sels ->]].
      eapply succeeds_mono; [apply IH; by intros _|].
      intros s'' st2 [Hg2 [sels' ->]]. split; [by eapply grows_trans|].
      by exists sels'.
Qed.

Lemma setReason_keeps expr key reason pos s st0 st :
  inText expr pos → grows st0 st → validSource st s →
  succeeds (setReason expr key reason pos s) st
    (λ s' st', grows st0 st' ∧ validSource st' s').
Proof.
  intros Hin Hg Hs.
  eapply succeeds_mono; [by apply setReason_succeeds|].
  intros s' st' (Hg' & Hs' & _). split; [by eapply grows_trans|done].
Qed.

Lemma appendNumber_succeeds nums v st :
  (∀ r, nums = Some r → r < length (numbers st)) →
  succeeds (appendNumber nums v) st
    (λ nums' st', grows st st' ∧ reasons st' = reasons st
                  ∧ ∃ r, nums' = Some r ∧ r < length (numbers st')).
Proof.
  intros Hvalid. unfold appendNumber, succeeds. destruct nums as [r|]; cbv beta.
  - specialize (Hvalid r eq_refl).
    match goal with
    | |- context [match ?t with _ => _ end] => destruct t as [old|] eqn:Hold
    end.
    2:{ apply lookup_ge_None in Hold. lia. }
    eexists _, _. split; [reflexivity|]. cbn. split_and!; try done.
    + split; [|done]. cbn. rewrite fmap_app. by apply prefix_app_r.
    + eexists. split; [reflexivity|]. rewrite length_app. simpl. lia.
  - eexists _, _. split; [reflexivity|]. cbn. split_and!; try done.
    + split; [|done]. cbn. rewrite fmap_app. by apply prefix_app_r.
    + eexists. split; [reflexivity|]. rewrite length_app. simpl. lia.
Qed.

Lemma parseCall_succeeds walk expr f args pos st :
  inText expr pos →
  assertionsHold (promParser.Call f args pos) = true →
  Forall (λ e, ∀ st, succeeds (walk e) st
                       (λ srcs st', grows st st' ∧ Forall (validSource st') srcs)) args →
  succeeds (parseCall walk expr f args pos) st
    (λ s st', grows st st' ∧ validSource st' s).
Proof.
  intros Hin Hassert Hargs. cbn [assertionsHold] in Hassert.
  apply andb_true_iff in Hassert as [Hassert Hvector].
  apply andb_true_iff in Hassert as [Htypes Hreplace].
  unfold parseCall. cbv zeta.
  eapply succeeds_bind.
  { apply gatherSelectors_succeeds; [|exact Hargs].
    intros Hne. destruct args; [done|].
    apply negb_true_iff, bool_decide_eq_false in Htypes. exact Htypes. }
  intros s0 st0 [Hg [sels ->]].
  assert (Hvalid : validSource st0 (setSelectors sels (callSource f args pos)))
    by (split; intros r; discriminate).
  unfold callSource in Hvalid.
  repeat match goal with
         | |- succeeds (if isCase ?a ?l then _ else _) _ _ =>
             let E := fresh "E" in destruct (isCase a l) eqn:E
         end.
  all: try (apply succeeds_ret; split; [done|]; unfold noChangeToLabels; same_refs).
  all: try (unfold scalarNoLabels; apply setReason_keeps; [done|done|same_refs]).
  - (* absent, absent_over_time *)
    rewrite absentLabels_spec. apply setReason_keeps; [done|done|same_refs].
  - (* days_in_month, ... *)
    destruct (decide (length args = 0)).
    + apply setReason_keeps; [done|done|same_refs].
    + apply succeeds_ret. split; [done|same_refs].
  - (* label_replace, label_join *)
    destruct (args !! 1) as [[| | | | | | |dst dpos| | |]|]; try done.
    cbn [from_option]. apply succeeds_bind_ret. rewrite stringLiteralVal_literal.
    apply succeeds_bind_ret. apply succeeds_ret. split; [done|].
    unfold noChangeToLabels. same_refs.
  - (* vector *)
    destruct args as [|arg args]; [done|].
    cbn [lookup list_lookup from_option]. apply succeeds_bind_ret.
    eapply succeeds_bind with (P := λ s' st', grows st st' ∧ validSource st' s').
    + destruct arg; try (apply succeeds_ret; split; [done|same_refs]).
      eapply succeeds_bind; [apply appendNumber_succeeds; by intros r|].
      intros nums st1 (Hg1 & Hreasons & r & -> & Hr).
      apply succeeds_ret. split; [by eapply grows_trans|].
      split; simpl_fields; [by intros ? [= <-]|by intros ?].
    + intros s1 st1 [Hg1 Hs1]. by apply setReason_keeps.
Qed.

(** ** Binary expressions *)


Lemma sameShape_refl st : sameShape st st.
Proof. done. Qed.

Lemma sameShape_trans st1 st2 st3 :
  sameShape st1 st2 → sameShape st2 st3 → sameShape st1 st3.
Proof. intros [H1 H2] [H3 H4]. split; congruence. Qed.

Lemma sameShape_grows st st' : sameShape st st' → grows st st'.
Proof. intros [H1 H2]. split; [by rewrite H1|by rewrite H2]. Qed.

Lemma sameShape_lookup st st' (r : nat) vs :
  sameShape st st' → numbers st !! r = Some vs →
  ∃ vs', numbers st' !! r = Some vs' ∧ length vs' = length vs.
Proof.
  intros [Hshape _] Hvs.
  assert (Hl : (length <$> numbers st') !! r = Some (length vs))
    by (by rewrite Hshape, list_lookup_fmap, Hvs).
  rewrite list_lookup_fmap in Hl.
  destruct (numbers st' !! r) as [vs'|]; [|done].
  injection Hl as Hl. by exists vs'.
Qed.

Lemma validSource_sameShape st st' s :
  sameShape st st' → validSource st s → validSource st' s.
Proof. intros H. by apply validSource_grows, sameShape_grows. Qed.

Lemma readNumbers_succeeds nums st :
  (∀ r, nums = Some r → r < length (numbers st)) →
  succeeds (readNumbers nums) st
    (λ vs st', st' = st
               ∧ match nums with
                 | Some r => numbers st !! r = Some vs
                 | None => vs = []
                 end).
Proof.
  intros Hvalid. unfold readNumbers, succeeds. destruct nums as [r|]; cbv beta.
  - specialize (Hvalid r eq_refl).
    match goal with
    | |- context [match ?t with _ => _ end] => destruct t as [vs|] eqn:Hvs
    end.
    2:{ apply lookup_ge_None in Hvs. lia. }
    by eexists _, _.
  - by eexists _, _.
Qed.

Lemma readNumber_succeeds (r : nat) i vs st :
  numbers st !! r = Some vs → i < length vs →
  succeeds (readNumber (Some r) i) st (λ _ st', st' = st).
Proof.
  intros Hvs Hi. unfold readNumber, succeeds, ref. cbv beta iota. rewrite Hvs.
  destruct (lookup_lt_is_Some_2 vs i Hi) as [v ->]. by eexists _, _.
Qed.

Lemma writeNumber_succeeds (r : nat) i v vs st :
  numbers st !! r = Some vs → i < length vs →
  succeeds (writeNumber (Some r) i v) st (λ _ st', sameShape st st').
Proof.
  intros Hvs Hi. unfold writeNumber, succeeds, ref. cbv beta iota. rewrite Hvs.
  rewrite decide_True by done. eexists _, _. split; [reflexivity|].
  split; [|done]. cbn [numbers].
  rewrite list_fmap_insert, length_insert.
  apply list_insert_id. by rewrite list_lookup_fmap, Hvs.
Qed.

Section BinarySucceeds.
Variables math_Mod math_Pow : float → float → float.

Lemma foldReturnedNumbers_succeeds op ls rs st :
  validSource st ls → validSource st rs →
  succeeds (utils.foldReturnedNumbers math_Mod math_Pow op ls rs) st
    (λ ls' st', sameShape st st' ∧ sameButDead ls ls').
Proof.
  intros [Hls _] [Hrs _]. unfold utils.foldReturnedNumbers.
  eapply succeeds_bind; [by apply readNumbers_succeeds|].
  intros lnums st0 [-> Hlnums].
  apply (succeeds_forRange _ _ (λ ls' st', sameShape st st' ∧ sameButDead ls ls')).
  { split; [apply sameShape_refl|apply sameButDead_refl]. }
  intros ls1 i st1 Hi [Hshape1 Hsame1].
  apply elem_of_seq in Hi as [_ Hi]. cbn in Hi.
  assert (Hrefs1 : ReturnedNumbers ls1 = ReturnedNumbers ls) by (by rewrite Hsame1).
  destruct (ReturnedNumbers ls) as [lr|] eqn:Hlr; [|subst; simpl in Hi; lia].
  destruct (sameShape_lookup _ _ _ _ Hshape1 Hlnums) as (lnums1 & Hlnums1 & Hlen1).
  rewrite Hrefs1.
  eapply succeeds_bind; [eapply readNumber_succeeds; [exact Hlnums1|lia]|].
  intros lv st2 ->.
  eapply succeeds_bind.
  { apply readNumbers_succeeds. intros rr Hrr. specialize (Hrs rr Hrr).
    destruct Hshape1 as [Hshape1 _].
    assert (length (numbers st1) = length (numbers st)) as ->; [|done].
    by rewrite <- (length_fmap length (numbers st1)), Hshape1, length_fmap. }
  intros rnums st2 [-> Hrnums].
  eapply succeeds_mono.
  - apply (succeeds_forRange _ _
             (λ ls' st', sameShape st1 st' ∧ sameButDead ls1 ls')).
    { split; [apply sameShape_refl|apply sameButDead_refl]. }
    intros ls2 j st2 Hj [Hshape2 Hsame2].
    apply elem_of_seq in Hj as [_ Hj]. cbn in Hj.
    destruct (ReturnedNumbers rs) as [rr|] eqn:Hrr; [|subst; simpl in Hj; lia].
    destruct (sameShape_lookup _ _ _ _ Hshape2 Hrnums) as (rnums2 & Hrnums2 & Hlen2).
    eapply succeeds_bind; [eapply readNumber_succeeds; [exact Hrnums2|lia]|].
    intros rv st3 ->.
    destruct (utils.calculateStaticReturn math_Mod math_Pow lv rv op (IsDead ls2))
      as [v isDead].
    assert (Hrefs2 : ReturnedNumbers ls2 = Some lr)
      by (rewrite Hsame2; simpl_fields; by rewrite Hrefs1).
    rewrite Hrefs2.
    destruct (sameShape_lookup _ _ _ _ Hshape2 Hlnums1) as (lnums2 & Hlnums2 & Hlen2').
    eapply succeeds_bind; [eapply writeNumber_succeeds; [exact Hlnums2|lia]|].
    intros [] st3 Hshape3. apply succeeds_ret.
    split; [by eapply sameShape_trans|].
    eapply sameButDead_trans; [exact Hsame2|]. done.
  - intros ls2 st2 [Hshape2 Hsame2].
    split; [by eapply sameShape_trans|by eapply sameButDead_trans].
Qed.

Lemma validSource_sameButDead st s s' :
  sameButDead s s' → validSource st s → validSource st s'.
Proof. intros ->. apply validSource_same_refs; done. Qed.

Lemma pairSources_succeeds op ls src rs st :
  validSource st ls → validSource st rs → Forall (validSource st) src →
  succeeds (utils.pairSources math_Mod math_Pow op (ls, src) rs) st
    (λ acc st', sameShape st st' ∧ validSource st' acc.1
                ∧ Forall (validSource st') acc.2).
Proof.
  intros Hls Hrs Hsrc. unfold utils.pairSources.
  destruct (AlwaysReturns ls && AlwaysReturns rs).
  - eapply succeeds_bind; [by apply foldReturnedNumbers_succeeds|].
    intros ls' st1 [Hshape Hsame]. apply succeeds_ret. cbn [fst snd].
    assert (validSource st1 ls').
    { eapply validSource_sameButDead; [exact Hsame|].
      by eapply validSource_sameShape. }
    split; [done|]. split; [done|].
    apply Forall_app. split; [|by apply Forall_singleton].
    eapply Forall_impl; [exact Hsrc|]. intros s. by apply validSource_sameShape.
  - destruct (isVectorOrMatrix (Returns ls)).
    + apply succeeds_ret. cbn [fst snd]. split; [apply sameShape_refl|].
      split; [done|]. apply Forall_app. split; [done|by apply Forall_singleton].
    + destruct (isVectorOrMatrix (Returns rs)); apply succeeds_ret; cbn [fst snd];
        (split; [apply sameShape_refl|]); (split; [done|]); [|done].
      apply Forall_app. split; [done|by apply Forall_singleton].
Qed.

Lemma oneToOneSource_succeeds expr vm pos x st :
  inText expr pos → validSource st x →
  succeeds (oneToOneSource expr vm pos x) st
    (λ s st', grows st st' ∧ validSource st' s).
Proof.
  intros Hin Hx. unfold oneToOneSource.
  eapply succeeds_bind with (P := λ s st', grows st st' ∧ validSource st' s).
  2:{ intros s st1 [Hg Hs]. apply succeeds_ret. split; [done|].
      rewrite defaultOperation_set. same_refs. }
  destruct (promParser.On vm).
  - eapply succeeds_bind; [apply deleteReasons_succeeds; same_refs|].
    intros [] st1 [Hg Hs]. by apply setReason_keeps.
  - eapply succeeds_mono; [apply setReasons_succeeds; [done|same_refs]|].
    by intros s st1 (Hg & Hs & _).
Qed.

Lemma groupSource_succeeds vm x st :
  validSource st x →
  succeeds (groupSource vm x) st (λ s st', grows st st' ∧ validSource st' s).
Proof.
  intros Hx. unfold groupSource.
  eapply succeeds_bind with (P := λ s st', grows st st' ∧ validSource st' s).
  - destruct (promParser.On vm).
    + eapply succeeds_bind; [apply deleteReasons_succeeds; same_refs|].
      intros [] st1 [Hg Hs]. apply succeeds_ret. split; [done|same_refs].
    + apply succeeds_ret. split; [apply grows_refl|same_refs].
  - intros s st1 [Hg Hs].
    eapply succeeds_bind; [apply deleteReasons_succeeds; same_refs|].
    intros [] st2 [Hg2 Hs2]. apply succeeds_ret. split; [by eapply grows_trans|].
    rewrite defaultOperation_set. same_refs.
Qed.

Lemma manyToManyLeft_succeeds vm b src x st0 st :
  grows st0 st → Forall (validSource st) src → validSource st x →
  succeeds (manyToManyLeft vm (b, src) x) st
    (λ acc st', grows st0 st' ∧ Forall (validSource st') acc.2).
Proof.
  intros Hg0 Hsrc Hx. unfold manyToManyLeft.
  eapply succeeds_bind with (P := λ s st', grows st st' ∧ validSource st' s).
  - destruct (promParser.On vm).
    + eapply succeeds_bind; [apply deleteReasons_succeeds; same_refs|].
      intros [] st1 [Hg Hs]. apply succeeds_ret. split; [done|same_refs].
    + apply succeeds_ret. split; [apply grows_refl|done].
  - intros s st1 [Hg Hs]. apply succeeds_ret. cbn [snd].
    split; [by eapply grows_trans|].
    apply Forall_app. split; [by eapply Forall_validSource_grows|].
    apply Forall_singleton. rewrite defaultOperation_set. same_refs.
Qed.

Lemma parseBinOps_succeeds (walk : promParser.Node → M (list Source))
    expr op l r vm st :
  inText expr {| posrange.Start := posrange.Start (promParser.PositionRange l);
                 posrange.End_ := posrange.End_ (promParser.PositionRange r) |} →
  (∀ st, succeeds (walk l) st (λ srcs st', grows st st' ∧ Forall (validSource st') srcs)) →
  (∀ st, succeeds (walk r) st (λ srcs st', grows st st' ∧ Forall (validSource st') srcs)) →
  succeeds (utils.parseBinOps math_Mod math_Pow walk expr op l r vm) st
    (λ srcs st', grows st st' ∧ Forall (validSource st') srcs).
Proof.
  intros Hin IHl IHr. unfold utils.parseBinOps.
  assert (Heach : ∀ body side,
            (∀ st, succeeds (walk side) st
                     (λ srcs st', grows st st' ∧ Forall (validSource st') srcs)) →
            (∀ x st1, validSource st1 x →
                      succeeds (body x) st1
                        (λ s st2, grows st1 st2 ∧ validSource st2 s)) →
            succeeds (srcs ← walk side; forEachSource body srcs) st
              (λ srcs st', grows st st' ∧ Forall (validSource st') srcs)).
  { intros body side IH Hbody.
    eapply succeeds_bind; [apply IH|]. intros srcs st1 [Hg Hsrcs].
    eapply succeeds_mono; [apply succeeds_forEachSource; [exact Hsrcs|]|].
    - intros x st2 _ Hx. by apply Hbody.
    - intros out st2 [Hg2 Hout]. split; [by eapply grows_trans|done]. }
  destruct vm as [vm|].
  - destruct (promParser.Card vm).
    + apply Heach; [done|]. intros x st1 Hx. by apply oneToOneSource_succeeds.
    + apply Heach; [done|]. intros x st1 Hx. by apply groupSource_succeeds.
    + apply Heach; [done|]. intros x st1 Hx. by apply groupSource_succeeds.
    + (* and, or, unless *)
      eapply succeeds_bind; [apply IHl|]. intros lhs st1 [Hg1 Hlhs].
      eapply succeeds_bind with
        (P := λ acc st', grows st st' ∧ Forall (validSource st') acc.2).
      * eapply succeeds_mono.
        -- apply (succeeds_forRange lhs (manyToManyLeft vm)
                    (λ acc st', grows st1 st' ∧ Forall (validSource st') acc.2)).
           { split; [apply grows_refl|constructor]. }
           intros [b src] x st2 Hx [Hg2 Hsrc]. cbn [snd] in Hsrc.
           apply manyToManyLeft_succeeds; [done|done|].
           eapply validSource_grows; [exact Hg2|]. by eapply Forall_forall in Hlhs.
        -- intros acc st2 [Hg2 Hacc]. split; [by eapply grows_trans|done].
      * intros [b src] st2 [Hg2 Hsrc]. cbn [snd] in Hsrc.
        destruct (decide (op = promParser.LOR)).
        -- eapply succeeds_bind; [apply IHr|]. intros rhs st3 [Hg3 Hrhs].
           apply succeeds_ret. split; [by eapply grows_trans|].
           apply Forall_app. split; [by eapply Forall_validSource_grows|].
           apply Forall_fmap. eapply Forall_impl; [exact Hrhs|].
           intros y Hy. cbn. unfold manyToManyRight. rewrite defaultOperation_set.
           destruct (negb b); same_refs.
        -- by apply succeeds_ret.
  - (* no vector matching *)
    eapply succeeds_bind; [apply IHl|]. intros lhs st1 [Hg1 Hlhs].
    eapply succeeds_bind; [apply IHr|]. intros rhs st2 [Hg2 Hrhs].
    assert (Hlhs2 : Forall (validSource st2) lhs)
      by (by eapply Forall_validSource_grows).
    eapply succeeds_mono.
    + apply (succeeds_forRange lhs _
               (λ src st', sameShape st2 st' ∧ Forall (validSource st') src)).
      { split; [apply sameShape_refl|constructor]. }
      intros src ls st3 Hls [Hshape Hsrc].
      eapply succeeds_fmap.
      * apply (succeeds_forRange rhs (utils.pairSources math_Mod math_Pow op)
                 (λ acc st', sameShape st2 st' ∧ validSource st' acc.1
                             ∧ Forall (validSource st') acc.2)).
        { split; [done|]. split; [|done]. cbn [fst].
          eapply validSource_sameShape; [exact Hshape|].
          by eapply Forall_forall in Hlhs2. }
        intros [ls1 src1] rs st4 Hrs (Hshape4 & Hls1 & Hsrc1). cbn [fst snd] in *.
        eapply succeeds_mono.
        -- apply pairSources_succeeds; [done| |done].
           eapply validSource_sameShape; [exact Hshape4|].
           by eapply Forall_forall in Hrhs.
        -- intros acc st5 (Hshape5 & Hacc1 & Hacc2).
           split; [by eapply sameShape_trans|done].
      * intros acc st4 (Hshape4 & _ & Hsrc4). done.
    + intros src st3 [Hshape Hsrc].
      split; [|done].
      eapply grows_trans; [exact Hg1|]. eapply grows_trans; [exact Hg2|].
      by apply sameShape_grows.
Qed.

(** The nodes of an expression: the node, then the nodes of its children. *)
Lemma descendants_Children n :
  descendants n = n :: (promParser.Children n ≫= descendants).
Proof.
  destruct n as [op e [p|] grouping without pos|op l r vm rb|f args pos| | | | | | | |];
    cbn [descendants promParser.Children mbind list_bind app];
    rewrite ?app_nil_r; done.
Qed.

Lemma walkable_inv expr n :
  walkable expr n = true →
  inText expr (promParser.PositionRange n) ∧ assertionsHold n = true
  ∧ Forall (λ c, walkable expr c = true) (promParser.Children n).
Proof.
  unfold walkable. rewrite descendants_Children. cbn [forallb].
  intros [[Hin Hassert]%andb_true_iff Hrest]%andb_true_iff.
  apply bool_decide_eq_true in Hin. split; [done|]. split; [done|].
  apply Forall_forall. intros c Hc.
  apply forallb_forall. intros d Hd.
  rewrite forallb_forall in Hrest. apply Hrest.
  apply list_elem_of_In, list_elem_of_bind. exists c.
  split; [by apply list_elem_of_In|done].
Qed.

Lemma walkNode_succeeds expr node :
  walkable expr node = true →
  ∀ st, succeeds (utils.walkNode math_Mod math_Pow expr node) st
          (λ srcs st', grows st st' ∧ Forall (validSource st') srcs).
Proof.
  induction node as [op e param grouping without pos IHe _|op l r vm rb IHl IHr
                    |f args pos IHargs|e r ep IH|e r s ep IH|v pos|e pos IH|v pos
                    |op e sp IH|e IH|vs] using promParser.Node_ind;
    intros Hwalk st;
    apply walkable_inv in Hwalk as (Hin & Hassert & Hchildren);
    cbn [promParser.PositionRange promParser.Children] in Hin, Hchildren;
    cbn [utils.walkNode].
  - (* aggregation *)
    apply walkAggregation_succeeds; [done|done|].
    apply IHe. destruct param; by apply Forall_inv in Hchildren.
  - (* binary expression *)
    apply Forall_cons in Hchildren as [Hl Hr%Forall_inv].
    apply parseBinOps_succeeds; [done|by apply IHl|by apply IHr].
  - (* call *)
    eapply succeeds_bind.
    + apply parseCall_succeeds; [done|done|].
      clear -IHargs Hchildren. induction IHargs as [|arg args Harg _ IH]; [constructor|].
      apply Forall_cons in Hchildren as [Hc Hcs]. constructor; [by apply Harg|by apply IH].
    + intros s0 st1 [Hg Hs0]. apply succeeds_ret. split; [done|by apply Forall_singleton].
  - apply IH. by apply Forall_inv in Hchildren.
  - apply IH. by apply Forall_inv in Hchildren.
  - (* number *)
    eapply succeeds_bind; [apply appendNumber_succeeds; intros ?; discriminate|].
    intros nums st1 (Hg1 & Hreasons & r0 & -> & Hr0).
    eapply succeeds_bind.
    + apply setReason_succeeds; [done|].
      split; simpl_fields; [by intros ? [= <-]|intros ?; discriminate].
    + intros s0 st2 (Hg2 & Hs0 & _). apply succeeds_ret.
      split; [by eapply grows_trans|by apply Forall_singleton].
  - apply IH. by apply Forall_inv in Hchildren.
  - (* string *)
    eapply succeeds_bind.
    + apply setReason_succeeds; [done|]. split; intros ?; discriminate.
    + intros s0 st1 (Hg & Hs0 & _). apply succeeds_ret.
      split; [done|by apply Forall_singleton].
  - apply IH. by apply Forall_inv in Hchildren.
  - apply succeeds_ret. split; [apply grows_refl|constructor].
  - apply succeeds_ret. split; [apply grows_refl|].
    apply Forall_singleton. split; intros ?; discriminate.
Qed.

(** X27. [LabelsSource] does not panic on a walkable expression: one in which
    the position of every node lies inside the text of the query, the
    parameter of every [count_values] and the second argument of every
    [label_replace] and [label_join] are string literals, every [vector]
    has an argument, and every function that is given arguments declares
    the type of one.  It returns a list of sources, which is not empty when
    the parser has checked the expression, and every reference of every
    source is allocated: its numbers and its reasons can be read. *)
Theorem LabelsSource_returns expr node st :
  walkable expr node = true →
  ∃ srcs st',
    utils.LabelsSource math_Mod math_Pow expr node st = Done srcs st'
    ∧ (parserChecked node → srcs ≠ [])
    ∧ Forall (λ s, (∃ nums, readNumbers (ReturnedNumbers s) st' = Done nums st')
                   ∧ ∀ r, ExcludeReason s = Some r → is_Some (reasons st' !! r))
             srcs.
Proof.
  intros Hwalk.
  destruct (walkNode_succeeds expr node Hwalk st) as (srcs & st' & Hrun & _ & Hvalid).
  exists srcs, st'. split; [exact Hrun|]. split.
  - intros Hchecked.
    by destruct (walkNode_result math_Mod math_Pow expr node Hchecked st srcs st' Hrun).
  - eapply Forall_impl; [exact Hvalid|]. intros s [Hnums Hreasons]. split.
    + destruct (readNumbers_succeeds (ReturnedNumbers s) st' Hnums)
        as (nums & st'' & Hread & -> & _).
      by exists nums.
    + intros r Hr. apply lookup_lt_is_Some. by apply Hreasons.
Qed.

End BinarySucceeds.

End Succeeds.

(** [1 + (vector(1) or vector(2))] *)
Lemma LabelsSource_returns_witness :
  ∃ srcs st',
    utils.LabelsSource Examples.unusedMod Examples.unusedPow Examples.shared_text
      Examples.shared utils.emptyStore = utils.Done srcs st'
    ∧ (parserChecked Examples.shared → srcs ≠ [])
    ∧ Forall (λ s, (∃ nums,
                      utils.readNumbers (utils.ReturnedNumbers s) st'
                      = utils.Done nums st')
                   ∧ ∀ r, utils.ExcludeReason s = Some r
                          → is_Some (utils.reasons st' !! r))
             srcs.
Proof.
  apply (LabelsSource_returns Examples.unusedMod Examples.unusedPow
           Examples.shared_text Examples.shared utils.emptyStore).
  vm_compute. reflexivity.
Defined.

(* ===================================================================== *)
(** * Change types and paths *)
(* ===================================================================== *)
Section Discovery.
Import discovery.

Lemma ChangeType_String_cases c :
  (c = Unknown ∧ ChangeType_String c = "unknown")
  ∨ (c = Noop ∧ ChangeType_String c = "noop")
  ∨ (c = Added ∧ ChangeType_String c = "added")
  ∨ (c = Modified ∧ ChangeType_String c = "modified")
  ∨ (c = Removed ∧ ChangeType_String c = "removed")
  ∨ (c = Moved ∧ ChangeType_String c = "moved")
  ∨ ((c ∉ changeTypes) ∧ ChangeType_String c = "---").
Proof.
  unfold ChangeType_String, changeTypes.
  repeat case_decide; subst; try by eauto 10.
  do 6 right. split; [|done]. rewrite !elem_of_cons, elem_of_nil. tauto.
Qed.

(** X28. [ChangeType.String] gives the six change types six different names,
    and gives ["---"] to the values that are not a change type, and to
    them only. *)
Theorem ChangeType_String_names c c' :
  (ChangeType_String c = "---" ↔ (c ∉ changeTypes))
  ∧ (ChangeType_String c = ChangeType_String c' →
     c = c' ∨ ((c ∉ changeTypes) ∧ (c' ∉ changeTypes))).
Proof.
  split.
  - split.
    + intros H. destruct (ChangeType_String_cases c)
        as [[? E]|[[? E]|[[? E]|[[? E]|[[? E]|[[? E]|[? E]]]]]]]; rewrite E in H; done.
    + intros H. destruct (ChangeType_String_cases c)
        as [[-> E]|[[-> E]|[[-> E]|[[-> E]|[[-> E]|[[-> E]|[? E]]]]]]]; try done;
        exfalso; apply H; unfold changeTypes; set_solver.
  - intros H.
    destruct (ChangeType_String_cases c)
      as [[? E]|[[? E]|[[? E]|[[? E]|[[? E]|[[? E]|[? E]]]]]]];
    destruct (ChangeType_String_cases c')
      as [[? E']|[[? E']|[[? E']|[[? E']|[[? E']|[[? E']|[? E']]]]]]];
    rewrite E, E' in H; try discriminate H; subst; auto.
Qed.

Lemma length_append (s t : string) :
  String.length (s +:+ t) = String.length s + String.length t.
Proof.
  induction s as [|a s IH]; [done|].
  rewrite append_cons. cbn [String.length]. by rewrite IH.
Qed.

Lemma prefix_append (s t : string) : String.prefix s (s +:+ t) = true.
Proof.
  induction s as [|a s IH]; [by destruct t|].
  rewrite append_cons. cbn [String.prefix]. by destruct (ascii_dec a a).
Qed.

(** X29. [Path.String] is the name of the path exactly when the name and the
    target of the symbolic link are the same; otherwise it starts with the
    name, and has four characters more than the name and the target
    together. *)
Theorem Path_String_spec p :
  (Path_String p = Name p ↔ Name p = SymlinkTarget p)
  ∧ (Name p ≠ SymlinkTarget p →
     String.length (Path_String p)
     = String.length (Name p) + 4 + String.length (SymlinkTarget p)
     ∧ String.prefix (Name p) (Path_String p) = true).
Proof.
  unfold Path_String. split.
  - split.
    + intros H. case_decide as Hp; [done|].
      apply (f_equal String.length) in H. rewrite !length_append in H.
      cbn in H. lia.
    + intros H. by rewrite decide_True.
  - intros Hne. rewrite decide_False by done. split.
    + rewrite !length_append. cbn. lia.
    + apply prefix_append.
Qed.

End Discovery.
